(** * Voice calculator: transcript finalisation and numeral extraction

    A shallow embedding of the [VoiceCalculator] class: the numeral parser
    [parseNumber], the extraction pass [processSpeechInput] with its entry
    list, and the event handlers that drive the recognition session.

    JavaScript strings are sequences of UTF-16 code units and JavaScript
    numbers are IEEE 754 binary64 values; both are modelled as such. *)

From Stdlib Require Import QArith Qpower Lqa.
From Stdlib Require Import String Ascii.
From Stdlib Require Import ZArith List Bool Lia.
From Stdlib Require Import SpecFloat.
Import ListNotations.
Open Scope list_scope.
Open Scope Z_scope.

(** ** Strings *)

Module JsString.

(** A JavaScript string: its UTF-16 code units, in order. *)
Definition jsstring := list Z.

Fixpoint bytes_of (s : String.string) : list Z :=
  match s with
  | String.EmptyString => []
  | String.String a r => Z.of_N (Ascii.N_of_ascii a) :: bytes_of r
  end.

(** The literals of the source are written here as they are there; the file
    is UTF-8, so a literal is decoded from UTF-8 to code points, and a code
    point above the basic plane becomes a surrogate pair. *)
Fixpoint utf8_decode (bs : list Z) : jsstring :=
  match bs with
  | [] => []
  | b0 :: r0 =>
    if b0 <? 0x80 then b0 :: utf8_decode r0
    else
      match r0 with
      | [] => []
      | b1 :: r1 =>
        if b0 <? 0xE0 then
          ((b0 mod 0x20) * 0x40 + b1 mod 0x40) :: utf8_decode r1
        else
          match r1 with
          | [] => []
          | b2 :: r2 =>
            if b0 <? 0xF0 then
              ((b0 mod 0x10) * 0x1000 + (b1 mod 0x40) * 0x40 + b2 mod 0x40)
                :: utf8_decode r2
            else
              match r2 with
              | [] => []
              | b3 :: r3 =>
                let cp := (b0 mod 0x08) * 0x40000 + (b1 mod 0x40) * 0x1000
                          + (b2 mod 0x40) * 0x40 + b3 mod 0x40 in
                let v := cp - 0x10000 in
                (0xD800 + v / 0x400) :: (0xDC00 + v mod 0x400)
                  :: utf8_decode r3
              end
          end
      end
  end.

Definition js (s : String.string) : jsstring := utf8_decode (bytes_of s).
Arguments js s%_string.

(** Membership of a code unit in a character class given by its members. *)
Definition in_class (cls : jsstring) (c : Z) : bool := existsb (Z.eqb c) cls.

(** [[0-9]] *)
Definition is_digit (c : Z) : bool := (0x30 <=? c) && (c <=? 0x39).

(** White space and line terminators: what [trim] strips and what [\s]
    matches. *)
Definition is_space (c : Z) : bool :=
  in_class [0x09; 0x0A; 0x0B; 0x0C; 0x0D; 0x20; 0xA0; 0x1680; 0x2028; 0x2029;
            0x202F; 0x205F; 0x3000; 0xFEFF] c
  || ((0x2000 <=? c) && (c <=? 0x200A)).

Definition string_eqb (a b : jsstring) : bool :=
  if list_eq_dec Z.eq_dec a b then true else false.

(** [if (s)] on a string: true unless it is empty. *)
Definition truthy (s : jsstring) : bool :=
  match s with [] => false | _ => true end.

(** [s.startsWith(p)] *)
Fixpoint starts_with (p s : jsstring) : bool :=
  match p, s with
  | [], _ => true
  | _ :: _, [] => false
  | a :: p', b :: s' => (a =? b) && starts_with p' s'
  end.

(** [s.includes(p)] *)
Fixpoint includes (s p : jsstring) : bool :=
  starts_with p s || match s with [] => false | _ :: s' => includes s' p end.

Fixpoint drop_while (f : Z -> bool) (s : jsstring) : jsstring :=
  match s with
  | [] => []
  | c :: r => if f c then drop_while f r else s
  end.

Fixpoint take_while (f : Z -> bool) (s : jsstring) : jsstring :=
  match s with
  | [] => []
  | c :: r => if f c then c :: take_while f r else []
  end.

(** [s.trim()] *)
Definition trim (s : jsstring) : jsstring :=
  rev (drop_while is_space (rev (drop_while is_space s))).

(** [s.toLowerCase()], on the letters A to Z.  The program only searches the
    result for the word delete, and no code unit outside A-Z lower-cases to
    one of d, e, l, t. *)
Definition toLowerCase (s : jsstring) : jsstring :=
  map (fun c => if (0x41 <=? c) && (c <=? 0x5A) then c + 0x20 else c) s.

End JsString.
Import JsString.

(** ** Numbers *)

Module JsNumber.

(** A JavaScript number: binary64. *)
Definition number := spec_float.
Definition prec : Z := 53.
Definition emax : Z := 1024.

Definition NaN : number := S754_nan.
Definition Infinity : number := S754_infinity false.

(** A numeric literal of the source with an integer value. *)
Definition lit (z : Z) : number := binary_normalize prec emax z 0 false.

Definition isNaN (x : number) : bool :=
  match x with S754_nan => true | _ => false end.

Definition isFinite (x : number) : bool :=
  match x with S754_nan | S754_infinity _ => false | _ => true end.

Definition num_add : number -> number -> number := SFadd prec emax.
Definition num_mul : number -> number -> number := SFmul prec emax.
(** [x === y] on numbers *)
Definition strict_eq : number -> number -> bool := SFeqb.
(** [x <= y], [x > y], [x >= y] *)
Definition num_le : number -> number -> bool := SFleb.
Definition num_gt (x y : number) : bool := SFltb y x.
Definition num_ge (x y : number) : bool := SFleb y x.

(** The integer a number stands for, when it stands for one. *)
Definition to_Z (x : number) : option Z :=
  match x with
  | S754_zero _ => Some 0
  | S754_finite s m e =>
    let v := if s then Z.neg m else Z.pos m in
    if 0 <=? e then Some (v * 2 ^ e)
    else if (Z.pos m) mod 2 ^ (- e) =? 0 then Some (v / 2 ^ (- e)) else None
  | _ => None
  end.

(** The number value of the decimal [m * 10^e], [m >= 0]: the nearest
    binary64, ties to even, whatever the number of digits of [m] (the
    language lets an engine look at the first 20 significant digits only;
    the engines in use round the full decimal). *)
Definition of_decimal (neg : bool) (m e : Z) : number :=
  match m with
  | Z0 => S754_zero neg
  | Zneg _ => S754_nan
  | Zpos _ =>
    if 0 <=? e then binary_normalize prec emax (if neg then - (m * 10 ^ e) else m * 10 ^ e) 0 neg
    else
      let '(q, e', l) := SFdiv_core_binary prec emax m 0 (10 ^ (- e)) 0 in
      binary_round_aux prec emax neg q e' l
  end.

(** *** [parseFloat] *)

(** The value of a run of decimal digits, most significant first. *)
Definition digits_value (ds : jsstring) : Z :=
  fold_left (fun acc c => 10 * acc + (c - 0x30)) ds 0.

(** An optional exponent part: [e] or [E], an optional sign, and at least
    one digit.  Anything else is no exponent. *)
Definition scan_exponent (s : jsstring) : Z :=
  match s with
  | c :: r =>
    if (c =? 0x65) || (c =? 0x45) then
      match r with
      | sg :: r' =>
        if (sg =? 0x2B) || (sg =? 0x2D) then
          match take_while is_digit r' with
          | [] => 0
          | ds => if sg =? 0x2D then - digits_value ds else digits_value ds
          end
        else
          match take_while is_digit r with
          | [] => 0
          | ds => digits_value ds
          end
      | [] => 0
      end
    else 0
  | [] => 0
  end.

(** The longest prefix that is an unsigned decimal literal, as its value. *)
Definition scan_unsigned (neg : bool) (s : jsstring) : number :=
  if starts_with (js "Infinity") s then S754_infinity neg
  else
    let ip := take_while is_digit s in
    let r := drop_while is_digit s in
    match ip, r with
    | [], c :: r' =>
      if c =? 0x2E then
        match take_while is_digit r' with
        | [] => NaN
        | fp =>
          of_decimal neg (digits_value fp)
            (scan_exponent (drop_while is_digit r') - Z.of_nat (List.length fp))
        end
      else NaN
    | [], [] => NaN
    | _ :: _, c :: r' =>
      if c =? 0x2E then
        let fp := take_while is_digit r' in
        of_decimal neg (digits_value (ip ++ fp))
          (scan_exponent (drop_while is_digit r') - Z.of_nat (List.length fp))
      else of_decimal neg (digits_value ip) (scan_exponent r)
    | _ :: _, [] => of_decimal neg (digits_value ip) 0
    end.

(** [parseFloat(s)]: leading white space is skipped, then the longest prefix
    that is a decimal literal gives the value; [NaN] when there is none. *)
Definition parseFloat (s : jsstring) : number :=
  match drop_while is_space s with
  | c :: r =>
    if c =? 0x2B then scan_unsigned false r
    else if c =? 0x2D then scan_unsigned true r
    else scan_unsigned false (c :: r)
  | [] => NaN
  end.

End JsNumber.
Import JsNumber.

(** ** The numeral parser *)

(** [/[零一二兩三四五六七八九十百千萬]/.test(str)] *)
Definition has_numeral_char (str : jsstring) : bool :=
  existsb (in_class (js "零一二兩三四五六七八九十百千萬")) str.

(** The object literal [map] of [parseNumber], keys in source order. *)
Definition map : list (jsstring * number) :=
  [ (js "零", lit 0); (js "一", lit 1); (js "二", lit 2); (js "兩", lit 2);
    (js "三", lit 3); (js "四", lit 4); (js "五", lit 5); (js "六", lit 6);
    (js "七", lit 7); (js "八", lit 8); (js "九", lit 9); (js "十", lit 10);
    (js "百", lit 100); (js "千", lit 1000); (js "萬", lit 10000) ].

(** [map[char]]; [None] is [undefined]. *)
Fixpoint lookup (m : list (jsstring * number)) (char : jsstring) : option number :=
  match m with
  | [] => None
  | (k, v) :: m' => if string_eqb k char then Some v else lookup m' char
  end.

(** [arr.includes(x)] on numbers (SameValueZero). *)
Definition includes_number (arr : list number) (x : number) : bool :=
  existsb (fun y => strict_eq y x || (isNaN y && isNaN x)) arr.

(** The three locals of the scanning loop. *)
Record scan := Scan {
  val : number;
  bucket : number;
  currentDigitStr : jsstring
}.

(** One iteration of the [for] loop, on the code unit [str[i]]. *)
Definition scan_char (st : scan) (c : Z) : scan :=
  let char := [c] in
  if is_digit c || (c =? 0x2E) then
    Scan (val st) (bucket st) (currentDigitStr st ++ char)
  else
    let bucket1 :=
      if truthy (currentDigitStr st) then parseFloat (currentDigitStr st)
      else bucket st in
    match lookup map char with
    | None => Scan (val st) bucket1 []
    | Some num =>
      if num_ge num (lit 10)
         && negb (includes_number (List.map lit [0; 1; 2; 3; 4; 5; 6; 7; 8; 9]) num)
      then
        let bucket2 :=
          if strict_eq bucket1 (lit 0) && string_eqb char (js "十") then lit 1
          else bucket1 in
        if strict_eq num (lit 10000) then
          Scan (num_mul (num_add (val st) bucket2) (lit 10000)) (lit 0) []
        else
          Scan (num_add (val st) (num_mul bucket2 num)) (lit 0) []
      else Scan (val st) num []
    end.

(** The value of [val] after the loop and the two statements that follow
    it. *)
Definition scan_value (str : jsstring) : number :=
  let st := fold_left scan_char str (Scan (lit 0) (lit 0) []) in
  let bucket1 :=
    if truthy (currentDigitStr st) then parseFloat (currentDigitStr st)
    else bucket st in
  num_add (val st) bucket1.

Definition parseNumber (str : jsstring) : number :=
  let floatCheck := parseFloat str in
  if negb (isNaN floatCheck) && negb (has_numeral_char str) then floatCheck
  else
    let v := scan_value str in
    if strict_eq v (lit 0) then NaN else v.

(** ** The calculator object *)

(** An element of [this.entries]. *)
Record Entry := {
  id : number;
  value : number;
  timestamp : number
}.

(** What the handlers take from their surroundings when they create the
    k-th entry: [Date.now()], [Math.random()] and [new Date()]. *)
Record Env := {
  date_now : nat -> number;
  math_random : nat -> number;
  new_date : nat -> number
}.

(** The callbacks handed to [setTimeout]. *)
Inductive task :=
| HideTranscript
| ForceFinalize (interimTranscript : jsstring)
| Restart
| AutoStop
| StartSettle.

(** The two places that call [recognition.start()]. *)
Inductive call_site := InRestartTimer | InMicClick.

(** The text shown by [showTranscript]. *)
Inductive message :=
| Plain (text : jsstring)
| Deleted (removed : number)
| AutoStopSet (minutes : number).

(** Calls on the collaborators (recognition backend, page), in the order
    they are made.  [Called] records each call of [processSpeechInput] with
    its argument.  Vibration and console output change no field and are
    not recorded. *)
Inductive effect :=
| RecognitionStart (site : call_site)
| RecognitionStop
| RecognitionAbort
| Alert (text : jsstring)
| UpdateUIState (listening : bool)
| StatusText (text : jsstring)
| ShowTranscript (m : message)
| HideTranscriptNow
| Render
| ShowSummary (count : nat) (total : number)
| Called (text : jsstring).

(** The fields of the object, the timers it has pending in the runtime, and
    the trace of its calls.  [created] counts the entries created so far.
    The object is the one built in a browser that has speech recognition;
    without it the constructor disables the microphone button and no event
    reaches the handlers below. *)
Record App := {
  entries : list Entry;
  isListening : bool;
  transcriptTimeout : option nat;
  forceFinalizeTimer : option nat;
  restartTimer : option nat;
  inactivityTimer : option nat;
  autoStopMinutes : number;
  timers : list (nat * task);
  next_handle : nat;
  created : nat;
  trace : list effect
}.

Definition initial : App :=
  {| entries := []; isListening := false;
     transcriptTimeout := None; forceFinalizeTimer := None;
     restartTimer := None; inactivityTimer := None;
     autoStopMinutes := lit 3;
     timers := []; next_handle := 1; created := 0;
     trace := [Render] |}.

Definition set_entries (st : App) (es : list Entry) : App :=
  {| entries := es; isListening := isListening st;
     transcriptTimeout := transcriptTimeout st;
     forceFinalizeTimer := forceFinalizeTimer st;
     restartTimer := restartTimer st; inactivityTimer := inactivityTimer st;
     autoStopMinutes := autoStopMinutes st;
     timers := timers st; next_handle := next_handle st;
     created := created st; trace := trace st |}.

Definition set_isListening (st : App) (b : bool) : App :=
  {| entries := entries st; isListening := b;
     transcriptTimeout := transcriptTimeout st;
     forceFinalizeTimer := forceFinalizeTimer st;
     restartTimer := restartTimer st; inactivityTimer := inactivityTimer st;
     autoStopMinutes := autoStopMinutes st;
     timers := timers st; next_handle := next_handle st;
     created := created st; trace := trace st |}.

Definition set_autoStopMinutes (st : App) (n : number) : App :=
  {| entries := entries st; isListening := isListening st;
     transcriptTimeout := transcriptTimeout st;
     forceFinalizeTimer := forceFinalizeTimer st;
     restartTimer := restartTimer st; inactivityTimer := inactivityTimer st;
     autoStopMinutes := n;
     timers := timers st; next_handle := next_handle st;
     created := created st; trace := trace st |}.

Definition set_created (st : App) (n : nat) : App :=
  {| entries := entries st; isListening := isListening st;
     transcriptTimeout := transcriptTimeout st;
     forceFinalizeTimer := forceFinalizeTimer st;
     restartTimer := restartTimer st; inactivityTimer := inactivityTimer st;
     autoStopMinutes := autoStopMinutes st;
     timers := timers st; next_handle := next_handle st;
     created := n; trace := trace st |}.

(** Record one call on a collaborator. *)
Definition emit (st : App) (e : effect) : App :=
  {| entries := entries st; isListening := isListening st;
     transcriptTimeout := transcriptTimeout st;
     forceFinalizeTimer := forceFinalizeTimer st;
     restartTimer := restartTimer st; inactivityTimer := inactivityTimer st;
     autoStopMinutes := autoStopMinutes st;
     timers := timers st; next_handle := next_handle st;
     created := created st; trace := trace st ++ [e] |}.

(** The four timer fields. *)
Inductive timer_field := TranscriptTimeout | ForceFinalizeTimer | RestartTimer | InactivityTimer.

(** [clearTimeout(h)]: the timer with that handle, if one is pending, is
    dropped; [clearTimeout(null)] and a stale handle do nothing. *)
Definition clearTimeout (st : App) (h : option nat) : App :=
  {| entries := entries st; isListening := isListening st;
     transcriptTimeout := transcriptTimeout st;
     forceFinalizeTimer := forceFinalizeTimer st;
     restartTimer := restartTimer st; inactivityTimer := inactivityTimer st;
     autoStopMinutes := autoStopMinutes st;
     timers := match h with
               | None => timers st
               | Some n => filter (fun ht => negb (Nat.eqb (fst ht) n)) (timers st)
               end;
     next_handle := next_handle st;
     created := created st; trace := trace st |}.

(** [this.f = setTimeout(t, ...)], or a bare [setTimeout] when [f] is
    [None]: a fresh handle, the timer pending. *)
Definition setTimeout (st : App) (f : option timer_field) (t : task) : App :=
  let h := next_handle st in
  let upd (g : timer_field) (old : option nat) : option nat :=
    match f, g with
    | Some TranscriptTimeout, TranscriptTimeout
    | Some ForceFinalizeTimer, ForceFinalizeTimer
    | Some RestartTimer, RestartTimer
    | Some InactivityTimer, InactivityTimer => Some h
    | _, _ => old
    end in
  {| entries := entries st; isListening := isListening st;
     transcriptTimeout := upd TranscriptTimeout (transcriptTimeout st);
     forceFinalizeTimer := upd ForceFinalizeTimer (forceFinalizeTimer st);
     restartTimer := upd RestartTimer (restartTimer st);
     inactivityTimer := upd InactivityTimer (inactivityTimer st);
     autoStopMinutes := autoStopMinutes st;
     timers := timers st ++ [(h, t)];
     next_handle := S h;
     created := created st; trace := trace st |}.

Definition hideTranscript (st : App) : App := emit st HideTranscriptNow.

Definition updateUIState (st : App) (listening : bool) : App :=
  if listening then emit st (UpdateUIState true)
  else hideTranscript (emit st (UpdateUIState false)).

Definition showTranscript (st : App) (m : message) : App :=
  let st1 := emit st (ShowTranscript m) in
  let st2 := clearTimeout st1 (transcriptTimeout st1) in
  setTimeout st2 (Some TranscriptTimeout) HideTranscript.

Definition calculateTotal (st : App) : number :=
  fold_left (fun sum item => num_add sum (value item)) (entries st) (lit 0).

(** [this.entries.length] *)
Definition count (st : App) : nat := List.length (entries st).

Definition render (st : App) : App := emit st Render.

Definition showSummary (st : App) : App :=
  emit st (ShowSummary (count st) (calculateTotal st)).

Definition deleteLastEntry (st : App) : App :=
  match rev (entries st) with
  | removed :: front =>
    let st1 := set_entries st (rev front) in
    showTranscript (render st1) (Deleted (value removed))
  | [] => showTranscript st (Plain (js "無資料"))
  end.

(** ** The extraction pass *)

(** [cleanText.replace(/,/g, '')] *)
Definition remove_commas (s : jsstring) : jsstring :=
  filter (fun c => negb (c =? 0x2C)) s.

(** The three character classes of the two patterns. *)
Definition qty_class (c : Z) : bool :=
  is_digit c || in_class (js "零一二兩三四五六七八九十") c.

Definition amount_class (c : Z) : bool :=
  is_digit c || in_class (js "零一二兩三四五六七八九十百千萬") c.

Definition unit_class (c : Z) : bool := in_class (js "個个") c.

(** [[0-9零一二兩三四五六七八九十百千萬\.、]], the class whose complement
    separates tokens. *)
Definition token_class (c : Z) : bool :=
  is_digit c || in_class (js "零一二兩三四五六七八九十百千萬.、") c.

(** A match of the multiplier pattern: the whole match, its two groups and
    the text after it. *)
Record phrase := Phrase {
  matched : jsstring;
  qtyStr : jsstring;
  amountStr : jsstring;
  after : jsstring
}.

(** The multiplier pattern matched at the start of [s].  Each of its five
    parts takes the longest run it can: the classes of neighbouring parts
    are disjoint, so a shorter run leaves a character the next part
    refuses. *)
Definition match_phrase (s : jsstring) : option phrase :=
  let q := take_while qty_class s in
  let r1 := drop_while qty_class s in
  let w1 := take_while is_space r1 in
  match q, drop_while is_space r1 with
  | _ :: _, u :: r3 =>
    if unit_class u then
      let w2 := take_while is_space r3 in
      let r4 := drop_while is_space r3 in
      match take_while amount_class r4 with
      | [] => None
      | a => Some (Phrase (q ++ w1 ++ [u] ++ w2 ++ a) q a (drop_while amount_class r4))
      end
    else None
  | _, _ => None
  end.

(** [Array(qty)]: an array of that length, or a RangeError ([None]) when
    [qty] is not an integer in [0, 2^32 - 1]. *)
Definition Array (qty : number) : option nat :=
  match to_Z qty with
  | Some z => if (0 <=? z) && (z <? 2 ^ 32) then Some (Z.to_nat z) else None
  | None => None
  end.

(** [arr.join(' ')] *)
Fixpoint join (sep : jsstring) (arr : list jsstring) : jsstring :=
  match arr with
  | [] => []
  | [x] => x
  | x :: rest => x ++ sep ++ join sep rest
  end.

(** The replacement callback; [None] when it throws. *)
Definition expand_phrase (p : phrase) : option jsstring :=
  let qty := parseNumber (qtyStr p) in
  if negb (isNaN qty) && num_gt qty (lit 0) && num_le qty (lit 50) then
    match Array qty with
    | Some n => Some (join (js " ") (repeat (amountStr p) n))
    | None => None
    end
  else Some (matched p).

(** The global replace: matches are sought left to right, each search
    starting where the previous match ended. *)
Fixpoint replace_loop (fuel : nat) (s : jsstring) : option jsstring :=
  match fuel with
  | O => Some s
  | S fuel' =>
    match s with
    | [] => Some []
    | c :: r =>
      match match_phrase s with
      | Some p =>
        match expand_phrase p, replace_loop fuel' (after p) with
        | Some x, Some y => Some (x ++ y)
        | _, _ => None
        end
      | None =>
        match replace_loop fuel' r with
        | Some y => Some (c :: y)
        | None => None
        end
      end
    end
  end.

Definition expand (cleanText : jsstring) : option jsstring :=
  replace_loop (List.length cleanText) cleanText.

(** [s.split(/[^...]+/)]: the pieces between the longest runs of separator
    characters, empty pieces at either end included. *)
Fixpoint split_loop (sep : Z -> bool) (s cur : jsstring) (in_sep : bool) : list jsstring :=
  match s with
  | [] => [cur]
  | c :: r =>
    if sep c then
      if in_sep then split_loop sep r [] true
      else cur :: split_loop sep r [] true
    else split_loop sep r (cur ++ [c]) false
  end.

Definition split (cleanText : jsstring) : list jsstring :=
  split_loop (fun c => negb (token_class c)) cleanText [] false.

(** The result of running a handler body: it returned, or it threw and the
    rest of the handler was skipped. *)
Inductive completion := Returned (st : App) | Thrown (st : App).

Definition state_of (c : completion) : App :=
  match c with Returned st | Thrown st => st end.

(** [this.entries.push({ id, value, timestamp })] *)
Definition push_entry (env : Env) (st : App) (v : number) : App :=
  let k := created st in
  let e := {| id := num_add (date_now env k) (math_random env k);
              value := v;
              timestamp := new_date env k |} in
  set_created (set_entries st (entries st ++ [e])) (S k).

(** The body of the [forEach] callback; the second component is
    [addedCount]. *)
Definition add_token (env : Env) (acc : App * nat) (token : jsstring) : App * nat :=
  let '(st, addedCount) := acc in
  if negb (truthy token) then acc
  else
    let v := parseNumber token in
    if negb (isNaN v) then (push_entry env st v, S addedCount) else acc.

Definition is_delete_command (cleanText : jsstring) : bool :=
  includes cleanText (js "刪除") || includes (toLowerCase cleanText) (js "delete").

Definition is_summary_command (cleanText : jsstring) : bool :=
  includes cleanText (js "總共") || includes cleanText (js "多少")
  || includes cleanText (js "結算") || includes cleanText (js "買單").

Definition processSpeechInput (env : Env) (st0 : App) (text : jsstring) : completion :=
  let st := emit st0 (Called text) in
  let cleanText := remove_commas (trim text) in
  if negb (truthy cleanText) then Returned st
  else if is_delete_command cleanText then Returned (deleteLastEntry st)
  else if is_summary_command cleanText then Returned (showSummary st)
  else
    match expand cleanText with
    | None => Thrown st
    | Some cleanText' =>
      let '(st1, addedCount) := fold_left (add_token env) (split cleanText') (st, O) in
      Returned (if (0 <? addedCount)%nat then render st1 else st1)
    end.

(** ** The session: handlers and timers *)

(** One element of [event.results]: [results[i][0].transcript] and
    [results[i].isFinal]. *)
Record result := {
  transcript : jsstring;
  isFinal : bool
}.

(** What the runtime delivers to the object.  A timer callback is run for a
    pending handle only; [start_throws] says whether [recognition.start()]
    throws if the callback calls it. *)
Inductive event :=
| OnStart
| OnEnd
| OnResult (resultIndex : nat) (results : list result)
| OnError (error : jsstring)
| Timeout (h : nat) (start_throws : bool)
| MicClick
| DeleteClick
| SummaryClick
| ClearClick (confirmed : bool)
| DeleteEntryClick (entry_id : number)
| SaveSettings (val : number).

Definition resetInactivityTimer (st : App) : App :=
  let st1 := clearTimeout st (inactivityTimer st) in
  if isListening st1 then setTimeout st1 (Some InactivityTimer) AutoStop
  else st1.

Definition onstart (st : App) : App :=
  if isListening st then resetInactivityTimer (updateUIState st true)
  else st.

Definition onend (st : App) : App :=
  if isListening st then
    setTimeout (clearTimeout st (restartTimer st)) (Some RestartTimer) Restart
  else updateUIState st false.

(** The loop over [event.results] from [event.resultIndex]: the two
    concatenations. *)
Definition transcripts (resultIndex : nat) (results : list result) : jsstring * jsstring :=
  fold_left
    (fun '(finalTranscript, interimTranscript) r =>
       if isFinal r then (finalTranscript ++ transcript r, interimTranscript)
       else (finalTranscript, interimTranscript ++ transcript r))
    (skipn resultIndex results) ([], []).

(** The two [if] statements that end [onresult]. *)
Definition deliver (env : Env) (st : App) (finalTranscript interimTranscript : jsstring) : App :=
  let c :=
    if truthy finalTranscript then
      processSpeechInput env (showTranscript st (Plain finalTranscript)) finalTranscript
    else Returned st in
  match c with
  | Thrown st1 => st1
  | Returned st1 =>
    if truthy interimTranscript then
      setTimeout (showTranscript st1 (Plain interimTranscript))
        (Some ForceFinalizeTimer) (ForceFinalize interimTranscript)
    else st1
  end.

Definition onresult (env : Env) (st : App) (resultIndex : nat) (results : list result) : App :=
  let st1 := resetInactivityTimer st in
  let st2 := clearTimeout st1 (forceFinalizeTimer st1) in
  let '(finalTranscript, interimTranscript) := transcripts resultIndex results in
  deliver env st2 finalTranscript interimTranscript.

Definition onerror (st : App) (error : jsstring) : App :=
  if existsb (string_eqb error) [js "no-speech"; js "aborted"; js "network"] then st
  else if string_eqb error (js "not-allowed") || string_eqb error (js "service-not-allowed") then
    emit (updateUIState (set_isListening st false) false)
      (Alert (js "無法存取麥克風。請確認：" ++ [0x0A] ++ js "1. 網址開頭是 https"
              ++ [0x0A] ++ js "2. 已允許瀏覽器使用麥克風"))
  else emit st (StatusText (js "錯誤: " ++ error)).

(** The body of a timer callback. *)
Definition run_task (env : Env) (st : App) (t : task) (start_throws : bool) : App :=
  match t with
  | HideTranscript => hideTranscript st
  | ForceFinalize interimTranscript =>
    match processSpeechInput env st interimTranscript with
    | Thrown st1 => st1
    | Returned st1 =>
      if isListening st1 then emit st1 RecognitionAbort else st1
    end
  | Restart =>
    if isListening st then emit st (RecognitionStart InRestartTimer) else st
  | AutoStop =>
    emit (updateUIState (emit (set_isListening st false) RecognitionStop) false)
      (StatusText (js "閒置已關閉"))
  | StartSettle =>
    let st1 := emit st (RecognitionStart InMicClick) in
    if start_throws then
      emit (updateUIState (set_isListening st1 false) false) (Alert (js "啟動失敗，請重試"))
    else st1
  end.

Fixpoint find_task (h : nat) (ts : list (nat * task)) : option task :=
  match ts with
  | [] => None
  | (h', t) :: ts' => if Nat.eqb h' h then Some t else find_task h ts'
  end.

Definition micClick (st : App) : App :=
  if isListening st then
    let st1 := updateUIState (emit (set_isListening st false) RecognitionStop) false in
    clearTimeout st1 (inactivityTimer st1)
  else
    let st1 := emit (set_isListening st true) (StatusText (js "啟動中...")) in
    setTimeout (emit st1 RecognitionAbort) None StartSettle.

Definition handle (env : Env) (st : App) (ev : event) : App :=
  match ev with
  | OnStart => onstart st
  | OnEnd => onend st
  | OnResult resultIndex results => onresult env st resultIndex results
  | OnError error => onerror st error
  | Timeout h start_throws =>
    match find_task h (timers st) with
    | Some t => run_task env (clearTimeout st (Some h)) t start_throws
    | None => st
    end
  | MicClick => micClick st
  | DeleteClick => deleteLastEntry st
  | SummaryClick => showSummary st
  | ClearClick confirmed =>
    if confirmed then showTranscript (render (set_entries st [])) (Plain (js "已清空"))
    else st
  | DeleteEntryClick entry_id =>
    render (set_entries st
      (filter (fun e => negb (strict_eq (id e) entry_id)) (entries st)))
  | SaveSettings val =>
    let st1 := showTranscript (set_autoStopMinutes st val) (AutoStopSet val) in
    if isListening st1 then resetInactivityTimer st1 else st1
  end.

(** The object after a sequence of events. *)
Definition run (env : Env) (st : App) (evs : list event) : App :=
  fold_left (handle env) evs st.

(** ** Notions of the specification *)

(** A valid decimal literal: Arabic digits with at most one decimal point,
    and at least one digit. *)
Definition is_decimal_literal (token : jsstring) : bool :=
  forallb (fun c => is_digit c || (c =? 0x2E)) token
  && (List.length (filter (Z.eqb 0x2E) token) <=? 1)%nat
  && existsb is_digit token.

(** The value of a digit character. *)
Definition digit_value (c : Z) : Q := inject_Z (c - 0x30).

(** The digits after the point: each place is worth a tenth of the place
    before it. *)
Fixpoint fraction_value (digits : jsstring) : Q :=
  match digits with
  | [] => 0%Q
  | c :: rest => ((digit_value c + fraction_value rest) * (1 # 10))%Q
  end.

(** A decimal literal read from the left with [whole] read so far: a
    digit moves what was read one place up, the point starts the
    fraction. *)
Fixpoint decimal_value_from (whole : Q) (s : jsstring) : Q :=
  match s with
  | [] => whole
  | c :: rest =>
    if c =? 0x2E then (whole + fraction_value rest)%Q
    else decimal_value_from (10 * whole + digit_value c)%Q rest
  end.

(** The rational a decimal literal denotes. *)
Definition decimal_value (token : jsstring) : Q := decimal_value_from 0%Q token.

(** The binary64 numbers above zero: a mantissa below [2^53] at an exponent
    from -1074 to 971, of 53 bits unless the exponent is the least. *)
Definition representable (m e : Z) : Prop :=
  0 < m < 2 ^ 53 /\ -1074 <= e <= 971 /\ (e = -1074 \/ 2 ^ 52 <= m).

(** [f] is the binary64 nearest to the rational [x >= 0], a tie going to
    the even mantissa: [x] is within half a unit in the last place of [f]
    (a quarter below a power of two, where the numbers below are twice as
    dense); zero below half the least number; infinity from half a unit
    above the greatest. *)
Definition rounds_to (x : Q) (f : number) : Prop :=
  match f with
  | S754_zero false => (0 <= x /\ x <= 2 ^ (-1075))%Q
  | S754_finite false m e =>
    representable (Z.pos m) e
    /\ let below := if (Z.pos m =? 2 ^ 52) && (-1074 <? e) then (1 # 4)%Q else (1 # 2)%Q in
       let lo := ((inject_Z (Z.pos m) - below) * 2 ^ e)%Q in
       let hi := ((inject_Z (Z.pos m) + (1 # 2)) * 2 ^ e)%Q in
       (lo <= x /\ x <= hi)%Q
       /\ ((x == hi)%Q \/ ((x == lo)%Q /\ below = (1 # 2)%Q) -> Z.even (Z.pos m) = true)
  | S754_infinity false => ((2 ^ 53 - (1 # 2)) * 2 ^ 971 <= x)%Q
  | _ => False
  end.

(** Surroundings used when a statement is evaluated at a concrete input:
    a clock that advances by one millisecond per entry. *)
Definition sample_env : Env :=
  {| date_now := fun k => lit (1700000000000 + Z.of_nat k);
     math_random := fun _ => of_decimal false 5 (-1);
     new_date := fun k => lit (1700000000000 + Z.of_nat k) |}.

(** The token parses to the integer [z]. *)
Definition parses_to (token : jsstring) (z : Z) : Prop :=
  parseNumber token = lit z /\ to_Z (parseNumber token) = Some z.

(** Universal and head conditions on the characters of a string. *)
Definition all (f : Z -> bool) (s : jsstring) : Prop := forallb f s = true.

(** Arabic digits, the decimal point and the list separator: the part of
    the token alphabet that is not a Chinese numeral. *)
Definition plain_char (c : Z) : bool :=
  is_digit c || (c =? 0x2E) || (c =? 0x3001).

(** What may follow a run of digits for the literal to end there with no
    fraction and no exponent. *)
Definition ends_number (rest : jsstring) : Prop :=
  match rest with
  | [] => True
  | c :: _ => is_digit c = false /\ c <> 0x2E /\ c <> 0x65 /\ c <> 0x45
  end.

(** What may follow the amount for the match to end there. *)
Definition not_amount_head (rest : jsstring) : Prop :=
  match rest with [] => True | c :: _ => amount_class c = false end.

(** The multiplier pattern read as a relation: [s] starts with a quantity
    [q], optional white space, a unit word, optional white space and an
    amount [a], wherever the groups may end; [rest] is what follows. *)
Inductive pattern_at : jsstring -> jsstring -> jsstring -> jsstring -> Prop :=
| Pattern_at (q w1 : jsstring) (u : Z) (w2 a rest : jsstring) :
    q <> [] -> all qty_class q -> all is_space w1 -> unit_class u = true ->
    all is_space w2 -> a <> [] -> all amount_class a ->
    pattern_at (q ++ w1 ++ [u] ++ w2 ++ a ++ rest) q a rest.

(** ** Notions used to state what the handlers preserve *)

(** From [st] to [st'] handles were only handed out, every timer pending
    in [st'] was pending in [st] or is new and runs a task allowed by [T],
    and the calls made in between are allowed by [P]. *)
Definition evolves (P : effect -> bool) (T : task -> bool) (st st' : App) : Prop :=
  (next_handle st <= next_handle st')%nat
  /\ (forall h t, In (h, t) (timers st') ->
        In (h, t) (timers st)
        \/ ((next_handle st <= h)%nat /\ (h < next_handle st')%nat /\ T t = true))
  /\ exists new, trace st' = trace st ++ new /\ forallb P new = true.

(** The calls that only touch the page, other than [processSpeechInput]
    itself. *)
Definition page_effect (e : effect) : bool :=
  match e with
  | ShowTranscript _ | Render | ShowSummary _ _ => true
  | _ => false
  end.

Definition hide_task (t : task) : bool :=
  match t with HideTranscript => true | _ => false end.

Definition any_effect (e : effect) : bool := true.
Definition any_task (t : task) : bool := true.

(** Everything but a call of [recognition.start()] from the restart
    timer. *)
Definition no_auto_restart (e : effect) : bool :=
  match e with RecognitionStart InRestartTimer => false | _ => true end.

Definition no_restart_task (t : task) : bool :=
  match t with Restart => false | _ => true end.

Definition not_a_call (e : effect) : bool :=
  match e with Called _ => false | _ => true end.

(** The arguments of the calls of [processSpeechInput] in a trace. *)
Definition calls (tr : list effect) : list jsstring :=
  flat_map (fun e => match e with Called text => [text] | _ => [] end) tr.

(** The states the object can be in: those the events lead to from the
    constructor. *)
Definition reachable (env : Env) (st : App) : Prop :=
  exists evs, st = run env initial evs.

(** Handles in use are below the next one, and a pending forced-commit
    timer is the one named by [this.forceFinalizeTimer]. *)
Definition timers_wf (st : App) : Prop :=
  (forall h t, In (h, t) (timers st) -> (h < next_handle st)%nat)
  /\ (forall h text, In (h, ForceFinalize text) (timers st) ->
        forceFinalizeTimer st = Some h).

Definition has_value (e : Entry) : bool := negb (isNaN (value e)).

Definition no_force_task (t : task) : bool :=
  match t with ForceFinalize _ => false | _ => true end.

(** ** Notions used by the further properties *)

(** The entries the token loop creates for the values [vs], the first of
    them being the [k]-th entry the object creates. *)
Fixpoint new_entries (env : Env) (k : nat) (vs : list number) : list Entry :=
  match vs with
  | [] => []
  | v :: rest =>
    {| id := num_add (date_now env k) (math_random env k);
       value := v;
       timestamp := new_date env k |} :: new_entries env (S k) rest
  end.

(** The values of the tokens that are not empty and parse to a number, in
    the order of the tokens. *)
Definition token_values (tokens : list jsstring) : list number :=
  filter (fun v => negb (isNaN v)) (List.map parseNumber (filter truthy tokens)).

(** What [toLowerCase] does to one code unit. *)
Definition lower (c : Z) : Z :=
  if (0x41 <=? c) && (c <=? 0x5A) then c + 0x20 else c.

(** The start of the scanning loop. *)
Definition scan_start : scan := Scan (lit 0) (lit 0) [].

(** No run of digits is pending after [s]: [s] is empty or ends with a
    character that is neither a digit nor a decimal point. *)
Definition no_pending_digits (s : jsstring) : Prop :=
  match rev s with
  | [] => True
  | c :: _ => is_digit c || (c =? 0x2E) = false
  end.

(** ** Written numerals

    The written forms the properties of the parser range over: a digit
    word, and a number written place by place. *)

(** The digit words with their values. *)
Definition basic_numerals : list (jsstring * Z) :=
  [ (js "零", 0); (js "一", 1); (js "二", 2); (js "兩", 2); (js "三", 3);
    (js "四", 4); (js "五", 5); (js "六", 6); (js "七", 7); (js "八", 8);
    (js "九", 9) ].

(** An absent choice, or one of [l]. *)
Definition options {A : Type} (l : list A) : list (option A) :=
  None :: List.map Some l.

(** A place left out, or a digit word followed by the unit word. *)
Definition place (unit : jsstring) (weight : Z) (d : option (jsstring * Z))
  : jsstring * Z :=
  match d with
  | None => ([], 0)
  | Some (ch, v) => (ch ++ unit, weight * v)
  end.

(** The tens place: left out, a bare 十, or a digit word followed by 十.
    零十 counts ten, as 十 does. *)
Definition tens_place (d : option (option (jsstring * Z))) : jsstring * Z :=
  match d with
  | None => ([], 0)
  | Some None => (js "十", 10)
  | Some (Some (ch, v)) => (ch ++ js "十", if v =? 0 then 10 else 10 * v)
  end.

(** Thousands, hundreds, tens and units, each place optional. *)
Definition written (th h : option (jsstring * Z))
    (t : option (option (jsstring * Z))) (u : option (jsstring * Z))
  : jsstring * Z :=
  let '(s1, v1) := place (js "千") 1000 th in
  let '(s2, v2) := place (js "百") 100 h in
  let '(s3, v3) := tens_place t in
  let '(s4, v4) := place [] 1 u in
  (s1 ++ s2 ++ s3 ++ s4, v1 + v2 + v3 + v4).

(** A count of ten thousands written with tens and units, then 萬, then
    thousands and hundreds. *)
Definition written_wan (t : option (option (jsstring * Z)))
    (u th h : option (jsstring * Z)) : jsstring * Z :=
  let '(s1, v1) := tens_place t in
  let '(s2, v2) := place [] 1 u in
  let '(s3, v3) := place (js "千") 1000 th in
  let '(s4, v4) := place (js "百") 100 h in
  (s1 ++ s2 ++ js "萬" ++ s3 ++ s4, (v1 + v2) * 10000 + v3 + v4).

(** What [parseNumber] gives for a written form of value [v]: zero is
    reported as not a number. *)
Definition reading (v : Z) : number := if v =? 0 then NaN else lit v.

(** Structural equality of two floats. *)
Definition number_eqb (x y : number) : bool :=
  match x, y with
  | S754_zero a, S754_zero b => Bool.eqb a b
  | S754_infinity a, S754_infinity b => Bool.eqb a b
  | S754_nan, S754_nan => true
  | S754_finite a m e, S754_finite b n f => Bool.eqb a b && (m =? n)%positive && (e =? f)
  | _, _ => false
  end.

Definition reads (w : jsstring * Z) : bool :=
  number_eqb (parseNumber (fst w)) (reading (snd w)).

(** The sign bit of a number; [NaN] has none. *)
Definition negative (x : number) : bool :=
  match x with
  | S754_zero s | S754_infinity s | S754_finite s _ _ => s
  | S754_nan => false
  end.

(** What the scanning loop keeps: the two sums have no sign bit and the
    pending run of digits has no minus sign. *)
Definition unsigned_scan (st : scan) : Prop :=
  negative (val st) = false /\ negative (bucket st) = false
  /\ ~ In 0x2D (currentDigitStr st).

(** ** Timers and the fields that name them *)

(** The field that keeps the handle of a timer running [t]; the handle of
    the timer armed by the microphone button is kept nowhere. *)
Definition owner (t : task) : option timer_field :=
  match t with
  | HideTranscript => Some TranscriptTimeout
  | ForceFinalize _ => Some ForceFinalizeTimer
  | Restart => Some RestartTimer
  | AutoStop => Some InactivityTimer
  | StartSettle => None
  end.

Definition field_value (st : App) (f : timer_field) : option nat :=
  match f with
  | TranscriptTimeout => transcriptTimeout st
  | ForceFinalizeTimer => forceFinalizeTimer st
  | RestartTimer => restartTimer st
  | InactivityTimer => inactivityTimer st
  end.

(** Handles in use, pending or kept in a field, are below the next one; no
    two pending timers share a handle; a pending timer whose handle is kept
    in a field is the one the field names, and a field names no timer of
    another kind. *)
Definition timers_owned (st : App) : Prop :=
  (forall h t, In (h, t) (timers st) -> (h < next_handle st)%nat)
  /\ NoDup (List.map fst (timers st))
  /\ (forall h t f, In (h, t) (timers st) -> owner t = Some f ->
                    field_value st f = Some h)
  /\ (forall f h, field_value st f = Some h -> (h < next_handle st)%nat)
  /\ (forall f h t, field_value st f = Some h -> In (h, t) (timers st) ->
                    owner t = Some f).

(** No pending timer is kept in the field [f]. *)
Definition absent (f : timer_field) (st : App) : Prop :=
  forall h t, In (h, t) (timers st) -> owner t <> Some f.

(** From [st] to [st'] the field [f] keeps its handle and the timers it
    names stay pending. *)
Definition kept (f : timer_field) (st st' : App) : Prop :=
  field_value st' f = field_value st f
  /\ forall h t, owner t = Some f -> In (h, t) (timers st) -> In (h, t) (timers st').

(** The tasks an idle session arms: everything but a restart and the
    inactivity stop. *)
Definition idle_task (t : task) : bool :=
  match t with Restart | AutoStop => false | _ => true end.

(** The events that count as activity of a listening session. *)
Definition activity (ev : event) : Prop :=
  ev = OnStart \/ (exists resultIndex results, ev = OnResult resultIndex results)
  \/ exists val, ev = SaveSettings val.

(** ** The list on the page *)

(** The rows [render] builds when the list is not empty, first row first:
    the [displayIndex] of each row and the entry it shows. *)
Definition rows (st : App) : list (nat * Entry) :=
  let n := List.length (entries st) in
  List.map (fun '(index, entry) => ((n - index)%nat, entry))
    (combine (seq 0 n) (rev (entries st))).

(** ** Notions used to show that the conversion rounds to nearest *)

(** [x] divided by [2^e]. *)
Definition scaled (x : Q) (e : Z) : Q := (x * 2 ^ (- e))%Q.

(** What a shift record knows of [y]: its integer part and where [y] lies
    in the unit above it. *)
Definition located (y : Q) (mrs : shr_record) : Prop :=
  let m := inject_Z (shr_m mrs) in
  match shr_r mrs, shr_s mrs with
  | false, false => (y == m)%Q
  | false, true => (m < y /\ y < m + (1 # 2))%Q
  | true, false => (y == m + (1 # 2))%Q
  | true, true => (m + (1 # 2) < y /\ y < m + 1)%Q
  end.

(** * Properties *)

(** ** The embedding at work *)

Example parseFloat_examples :
  parseFloat (js "150") = lit 150
  /\ parseFloat (js "0.1") = S754_finite false 7205759403792794 (-56)
  /\ parseFloat (js "1.2.3") = S754_finite false 5404319552844595 (-52)
  /\ parseFloat (js "  -.5E-1x") = S754_finite true 7205759403792794 (-57)
  /\ parseFloat (js "9007199254740993") = lit 9007199254740992
  /\ parseFloat (js "5e-324") = S754_finite false 1 (-1074)
  /\ parseFloat (js "2e-324") = S754_zero false
  /\ parseFloat (js "1.7976931348623157e308")
     = S754_finite false 9007199254740991 971
  /\ parseFloat (js "1.7976931348623159e308") = Infinity
  /\ parseFloat (js ".") = NaN
  /\ parseFloat (js "一") = NaN.
Proof. repeat split; vm_compute; reflexivity. Qed.

Example js_examples :
  js "一百五" = [0x4E00; 0x767E; 0x4E94]
  /\ js "3個300" = [0x33; 0x500B; 0x33; 0x30; 0x30]
  /\ js "a、b" = [0x61; 0x3001; 0x62].
Proof. repeat split; reflexivity. Qed.

Example split_examples :
  split (js " 一百五 200,300") = [[]; js "一百五"; js "200"; js "300"]
  /\ split (js "3、4 元") = [js "3、4"; []]
  /\ trim (js "  a b ") = js "a b".
Proof. repeat split; vm_compute; reflexivity. Qed.

Example expand_examples :
  expand (js "買 3 個 三百 和 0個5 51個2")
  = Some (js "買 三百 三百 三百 和 0個5 51個2")
  /\ expand (js "3個3個300") = Some (js "3 3 3個300")
  /\ expand (js "十二个1萬x")
     = Some (js "1萬 1萬 1萬 1萬 1萬 1萬 1萬 1萬 1萬 1萬 1萬 1萬x").
Proof. repeat split; vm_compute; reflexivity. Qed.

(** The text suggested on the empty list, committed as a final segment. *)
Example three_amounts :
  List.map (fun e => to_Z (value e))
    (entries (run sample_env initial
                [OnResult 0 [{| transcript := js "一百五 200 300"; isFinal := true |}]]))
  = [Some 105; Some 200; Some 300].
Proof. vm_compute. reflexivity. Qed.

(** ** Rounding never yields NaN *)

Section RoundingFacts.

Lemma iter_pos_invariant {A : Type} (P : A -> Prop) (f : A -> A) :
  (forall x, P x -> P (f x)) ->
  forall p x, P x -> P (iter_pos f p x).
Proof.
  intros Hf p; induction p as [p IH | p IH | ]; intros x Hx; cbn.
  - apply IH, IH, Hf, Hx.
  - apply IH, IH, Hx.
  - apply Hf, Hx.
Qed.

Lemma shr_1_nonneg (mrs : shr_record) :
  0 <= shr_m mrs -> 0 <= shr_m (shr_1 mrs).
Proof.
  destruct mrs as [m r s]; cbn [shr_m].
  destruct m as [ | [p | p | ] | p]; cbn; lia.
Qed.

Lemma shr_nonneg (mrs : shr_record) (e n : Z) :
  0 <= shr_m mrs -> 0 <= shr_m (fst (shr mrs e n)).
Proof.
  intros H; destruct n as [ | p | p]; cbn; trivial.
  apply (iter_pos_invariant (fun x => 0 <= shr_m x)); auto using shr_1_nonneg.
Qed.

Lemma shr_fexp_nonneg (m e : Z) (l : location) :
  0 <= m -> 0 <= shr_m (fst (shr_fexp prec emax m e l)).
Proof.
  intros H; unfold shr_fexp; apply shr_nonneg.
  destruct l as [ | [ | | ]]; cbn; exact H.
Qed.

Lemma round_nearest_even_nonneg (m : Z) (l : location) :
  0 <= m -> 0 <= round_nearest_even m l.
Proof.
  intros H; destruct l as [ | [ | | ]]; cbn; try lia.
  destruct (Z.even m); lia.
Qed.

Lemma binary_round_aux_not_nan (s : bool) (mx ex : Z) (lx : location) :
  0 <= mx -> isNaN (binary_round_aux prec emax s mx ex lx) = false.
Proof.
  intros H; unfold binary_round_aux.
  pose proof (shr_fexp_nonneg mx ex lx H) as H1.
  destruct (shr_fexp prec emax mx ex lx) as [mrs' e']; cbn [fst] in H1.
  pose proof (shr_fexp_nonneg _ e' loc_Exact
                (round_nearest_even_nonneg _ (loc_of_shr_record mrs') H1)) as H2.
  destruct (shr_fexp prec emax _ e' loc_Exact) as [mrs'' e'']; cbn [fst] in H2.
  destruct (shr_m mrs'') as [ | m | m]; try lia; trivial.
  destruct (e'' <=? emax - prec); reflexivity.
Qed.

Lemma binary_normalize_not_nan (m e : Z) (sz : bool) :
  isNaN (binary_normalize prec emax m e sz) = false.
Proof.
  destruct m as [ | p | p]; cbn [binary_normalize]; trivial;
    unfold binary_round;
    destruct (shl_align _ _ _) as [mz ez];
    apply binary_round_aux_not_nan; lia.
Qed.

Lemma lit_not_nan (z : Z) : isNaN (lit z) = false.
Proof. apply binary_normalize_not_nan. Qed.

Lemma of_decimal_not_nan (neg : bool) (m e : Z) :
  0 <= m -> isNaN (of_decimal neg m e) = false.
Proof.
  intros H; unfold of_decimal.
  destruct m as [ | p | p]; try lia; trivial.
  destruct (0 <=? e) eqn:He.
  - apply binary_normalize_not_nan.
  - unfold SFdiv_core_binary.
    set (m' := match _ with Z0 => Z.pos p | Zpos _ => _ | Zneg _ => 0 end).
    assert (Hm' : 0 <= m').
    { subst m'. destruct (_ - _) as [ | s | s]; try lia.
      apply Z.shiftl_nonneg; lia. }
    assert (Hd : 0 < 10 ^ (- e)) by (apply Z.pow_pos_nonneg; lia).
    pose proof (Z_div_mod m' (10 ^ (- e)) ltac:(lia)) as Hdm.
    destruct (Z.div_eucl m' (10 ^ (- e))) as [q r].
    apply binary_round_aux_not_nan.
    destruct Hdm as [Heq Hr]. nia.
Qed.

End RoundingFacts.

(** ** Scanning runs of characters *)

Ltac zbool :=
  repeat rewrite ?andb_true_iff, ?orb_true_iff, ?andb_false_iff, ?orb_false_iff,
    ?negb_true_iff, ?negb_false_iff, ?Z.eqb_eq, ?Z.eqb_neq, ?Z.leb_le,
    ?Z.leb_gt, ?Z.ltb_lt, ?Z.ltb_ge in *.

Lemma all_cons (f : Z -> bool) (c : Z) (s : jsstring) :
  all f (c :: s) <-> f c = true /\ all f s.
Proof. unfold all; cbn; apply andb_true_iff. Qed.

Lemma all_app (f : Z -> bool) (s t : jsstring) :
  all f (s ++ t) <-> all f s /\ all f t.
Proof. unfold all; rewrite forallb_app; apply andb_true_iff. Qed.

Lemma take_drop (f : Z -> bool) (s : jsstring) :
  take_while f s ++ drop_while f s = s.
Proof.
  induction s as [ | c r IH]; cbn; trivial.
  destruct (f c); cbn; congruence.
Qed.

Lemma all_take_while (f : Z -> bool) (s : jsstring) : all f (take_while f s).
Proof.
  induction s as [ | c r IH]; cbn; [reflexivity | ].
  destruct (f c) eqn:E; [ | reflexivity]. apply all_cons; auto.
Qed.

Lemma drop_while_head (f : Z -> bool) (s : jsstring) (c : Z) (r : jsstring) :
  drop_while f s = c :: r -> f c = false.
Proof.
  induction s as [ | d t IH]; cbn; try discriminate.
  destruct (f d) eqn:E; auto. intros [= -> ->]; exact E.
Qed.

Lemma take_while_app (f : Z -> bool) (s t : jsstring) :
  all f s -> take_while f (s ++ t) = s ++ take_while f t.
Proof.
  induction s as [ | c r IH]; cbn; trivial.
  intros H; apply all_cons in H as [-> H]. f_equal; auto.
Qed.

Lemma drop_while_app (f : Z -> bool) (s t : jsstring) :
  all f s -> drop_while f (s ++ t) = drop_while f t.
Proof.
  induction s as [ | c r IH]; cbn; trivial.
  intros H; apply all_cons in H as [-> H]; auto.
Qed.

Lemma take_while_all (f : Z -> bool) (s : jsstring) :
  all f s -> take_while f s = s.
Proof.
  intros H. rewrite <- (app_nil_r s) at 1.
  rewrite take_while_app by trivial. apply app_nil_r.
Qed.

Lemma drop_while_all (f : Z -> bool) (s : jsstring) :
  all f s -> drop_while f s = [].
Proof.
  intros H. rewrite <- (app_nil_r s). now rewrite drop_while_app.
Qed.

Lemma drop_while_stop (f : Z -> bool) (c : Z) (s : jsstring) :
  f c = false -> drop_while f (c :: s) = c :: s.
Proof. intros H; cbn; now rewrite H. Qed.

Lemma take_while_stop (f : Z -> bool) (c : Z) (s : jsstring) :
  f c = false -> take_while f (c :: s) = [].
Proof. intros H; cbn; now rewrite H. Qed.

Lemma all_impl (f g : Z -> bool) (s : jsstring) :
  (forall c, f c = true -> g c = true) -> all f s -> all g s.
Proof.
  intros Hfg; induction s as [ | c r IH]; [reflexivity | ].
  rewrite !all_cons; intros [H1 H2]; auto.
Qed.

Lemma filter_all (f : Z -> bool) (s : jsstring) : all f s -> filter f s = s.
Proof.
  induction s as [ | c r IH]; cbn; trivial.
  intros H; apply all_cons in H as [-> H]; f_equal; auto.
Qed.

(** ** Character classes *)

Lemma numeral_chars : js "零一二兩三四五六七八九十百千萬"
  = [0x96F6; 0x4E00; 0x4E8C; 0x5169; 0x4E09; 0x56DB; 0x4E94; 0x516D; 0x4E03;
     0x516B; 0x4E5D; 0x5341; 0x767E; 0x5343; 0x842C].
Proof. reflexivity. Qed.

Lemma digit_range (c : Z) : is_digit c = true <-> 0x30 <= c <= 0x39.
Proof. unfold is_digit; zbool; reflexivity. Qed.

Lemma digit_not_space (c : Z) : is_digit c = true -> is_space c = false.
Proof.
  rewrite digit_range; intros H.
  unfold is_space, in_class; cbn [existsb]; zbool.
  repeat split; lia.
Qed.

Lemma point_not_space : is_space 0x2E = false.
Proof. reflexivity. Qed.

Lemma digit_not_numeral (c : Z) :
  is_digit c = true -> in_class (js "零一二兩三四五六七八九十百千萬") c = false.
Proof.
  rewrite digit_range, numeral_chars; intros H.
  unfold in_class; cbn [existsb]; zbool. repeat split; lia.
Qed.

Lemma starts_with_Infinity (c : Z) (s : jsstring) :
  c <> 0x49 -> starts_with (js "Infinity") (c :: s) = false.
Proof.
  intros H. change (js "Infinity") with (0x49 :: js "nfinity").
  cbn [starts_with]. apply andb_false_iff; left. zbool. lia.
Qed.

(** ** [parseFloat] on digits *)

Lemma take_while_digits_end (ip rest : jsstring) :
  all is_digit ip -> ends_number rest ->
  take_while is_digit (ip ++ rest) = ip /\ drop_while is_digit (ip ++ rest) = rest.
Proof.
  intros Hip Hrest.
  rewrite take_while_app, drop_while_app by trivial.
  destruct rest as [ | c r]; cbn.
  - now rewrite app_nil_r.
  - destruct Hrest as [-> _]. now rewrite app_nil_r.
Qed.

Lemma scan_exponent_none (rest : jsstring) :
  ends_number rest -> scan_exponent rest = 0.
Proof.
  destruct rest as [ | c r]; cbn; trivial.
  intros (_ & _ & He & HE).
  destruct (c =? 0x65) eqn:E1; [zbool; lia | ].
  destruct (c =? 0x45) eqn:E2; [zbool; lia | ]. reflexivity.
Qed.

Lemma parseFloat_unsigned (c : Z) (s : jsstring) :
  is_digit c = true \/ c = 0x2E ->
  parseFloat (c :: s) = scan_unsigned false (c :: s).
Proof.
  intros H. unfold parseFloat.
  assert (Hs : is_space c = false)
    by (destruct H as [H | ->]; [now apply digit_not_space | reflexivity]).
  cbn [drop_while]; rewrite Hs.
  assert (Hr : c = 0x2E \/ 0x30 <= c <= 0x39)
    by (rewrite <- digit_range; tauto).
  destruct (c =? 0x2B) eqn:E1; [zbool; lia | ].
  destruct (c =? 0x2D) eqn:E2; [zbool; lia | ]. reflexivity.
Qed.

Lemma parseFloat_digits (ip rest : jsstring) :
  all is_digit ip -> ip <> [] -> ends_number rest ->
  parseFloat (ip ++ rest) = of_decimal false (digits_value ip) 0.
Proof.
  intros Hip Hne Hrest.
  destruct (take_while_digits_end ip rest Hip Hrest) as [Ht Hd].
  destruct ip as [ | c ip']; [congruence | ].
  pose proof Hip as Hc; apply all_cons in Hc as [Hc _].
  cbn [app] in *. rewrite parseFloat_unsigned by auto.
  unfold scan_unsigned.
  rewrite starts_with_Infinity by (apply digit_range in Hc; lia).
  rewrite Ht, Hd.
  destruct rest as [ | d r]; trivial.
  destruct Hrest as (Hd1 & Hd2 & Hd3).
  destruct (d =? 0x2E) eqn:E; [zbool; lia | ].
  now rewrite scan_exponent_none by (cbn; auto).
Qed.

Lemma parseFloat_point (ip fp : jsstring) :
  all is_digit ip -> all is_digit fp -> ip <> [] \/ fp <> [] ->
  parseFloat (ip ++ 0x2E :: fp)
  = of_decimal false (digits_value (ip ++ fp)) (- Z.of_nat (List.length fp)).
Proof.
  intros Hip Hfp Hne.
  assert (Hhead : exists c s, ip ++ 0x2E :: fp = c :: s /\ (is_digit c = true \/ c = 0x2E)).
  { destruct ip as [ | c ip']; cbn; eauto.
    apply all_cons in Hip as [Hc _]; eauto. }
  destruct Hhead as (c & s & Hcs & Hc).
  rewrite Hcs, parseFloat_unsigned by trivial. unfold scan_unsigned.
  rewrite starts_with_Infinity
    by (destruct Hc as [Hc | ->]; [apply digit_range in Hc | ]; lia).
  rewrite <- Hcs.
  rewrite take_while_app, drop_while_app by trivial.
  rewrite take_while_stop, drop_while_stop, app_nil_r by reflexivity.
  rewrite (take_while_all _ fp), (drop_while_all _ fp) by trivial.
  cbn [scan_exponent]. change (0x2E =? 0x2E) with true. cbn match.
  destruct ip as [ | a ip'].
  - destruct fp as [ | b fp']; [destruct Hne; congruence | ].
    cbn [app]. f_equal; lia.
  - f_equal; lia.
Qed.

Lemma digits_value_nonneg (ds : jsstring) :
  all is_digit ds -> 0 <= digits_value ds.
Proof.
  unfold digits_value.
  assert (G : forall acc, 0 <= acc -> all is_digit ds ->
              0 <= fold_left (fun a c => 10 * a + (c - 0x30)) ds acc).
  { induction ds as [ | c r IH]; cbn [fold_left]; intros acc Ha H; trivial.
    apply all_cons in H as [Hc H]. apply digit_range in Hc.
    apply IH; trivial; lia. }
  apply G; lia.
Qed.

(** ** Decimal literals *)

Lemma no_point_digits (s : jsstring) :
  all (fun c => is_digit c || (c =? 0x2E)) s ->
  filter (Z.eqb 0x2E) s = [] -> all is_digit s.
Proof.
  induction s as [ | c r IH]; [reflexivity | ].
  rewrite !all_cons; cbn [filter]. intros [Hc Hr].
  destruct (0x2E =? c) eqn:E; [discriminate | ].
  intros Hf; split; auto.
  apply orb_true_iff in Hc as [Hc | Hc]; trivial. zbool; lia.
Qed.

Lemma digits_no_point (s : jsstring) :
  all is_digit s -> filter (Z.eqb 0x2E) s = [].
Proof.
  induction s as [ | c r IH]; [reflexivity | ].
  rewrite all_cons; cbn [filter]. intros [Hc Hr].
  apply digit_range in Hc.
  destruct (0x2E =? c) eqn:E; [zbool; lia | auto].
Qed.

Lemma decimal_literal_shape (token : jsstring) :
  is_decimal_literal token = true ->
  exists ip fp, all is_digit ip /\ all is_digit fp /\
    ((token = ip /\ ip <> []) \/
     (token = ip ++ 0x2E :: fp /\ (ip <> [] \/ fp <> []))).
Proof.
  unfold is_decimal_literal. rewrite !andb_true_iff. intros [[H1 H2] H3].
  pose proof (take_drop is_digit token) as Ht.
  pose proof (all_take_while is_digit token) as Hip.
  set (ip := take_while is_digit token) in *.
  destruct (drop_while is_digit token) as [ | c fp] eqn:Hd.
  - rewrite app_nil_r in Ht. exists ip, []. repeat split; trivial.
    left; split; [congruence | ]. intros ->. rewrite <- Ht in H3. discriminate.
  - apply drop_while_head in Hd. rewrite <- Ht in H1, H2, H3.
    apply all_app in H1 as [_ H1]. apply all_cons in H1 as [Hc H1].
    rewrite Hd in Hc. cbn [orb] in Hc. apply Z.eqb_eq in Hc; subst c.
    rewrite filter_app, digits_no_point in H2 by trivial.
    cbn [app filter] in H2. change (0x2E =? 0x2E) with true in H2.
    cbn [List.length] in H2. apply Nat.leb_le in H2.
    assert (Hf : filter (Z.eqb 0x2E) fp = [])
      by (destruct (filter (Z.eqb 0x2E) fp); [trivial | cbn in H2; lia]).
    exists ip, fp. repeat split; trivial; [now apply no_point_digits | ].
    right; split; [congruence | ].
    destruct ip; [ | left; discriminate]. destruct fp; [ | right; discriminate].
    discriminate.
Qed.

Lemma digits_no_numeral (s : jsstring) :
  all (fun c => is_digit c || (c =? 0x2E)) s -> has_numeral_char s = false.
Proof.
  unfold has_numeral_char.
  induction s as [ | c r IH]; [reflexivity | ].
  rewrite all_cons; cbn [existsb]. intros [Hc Hr].
  rewrite IH, orb_false_r by trivial.
  apply orb_true_iff in Hc as [Hc | Hc]; [now apply digit_not_numeral | ].
  apply Z.eqb_eq in Hc; subst; reflexivity.
Qed.

(** ** The conversion of a decimal rounds to nearest *)

Lemma digits2_pos_bounds (p : positive) :
  2 ^ (Z.pos (digits2_pos p) - 1) <= Z.pos p < 2 ^ Z.pos (digits2_pos p).
Proof.
  induction p as [p IH | p IH | ]; cbn [digits2_pos].
  - rewrite Pos2Z.inj_succ.
    replace (Z.succ (Z.pos (digits2_pos p)) - 1) with (Z.succ (Z.pos (digits2_pos p) - 1)) by lia.
    rewrite !Z.pow_succ_r by lia.
    revert IH. generalize (2 ^ (Z.pos (digits2_pos p) - 1)) (2 ^ Z.pos (digits2_pos p)). lia.
  - rewrite Pos2Z.inj_succ.
    replace (Z.succ (Z.pos (digits2_pos p)) - 1) with (Z.succ (Z.pos (digits2_pos p) - 1)) by lia.
    rewrite !Z.pow_succ_r by lia.
    revert IH. generalize (2 ^ (Z.pos (digits2_pos p) - 1)) (2 ^ Z.pos (digits2_pos p)). lia.
  - cbn. lia.
Qed.

Lemma inject_xO (p : positive) : (inject_Z (Z.pos p~0) == 2 * inject_Z (Z.pos p))%Q.
Proof. change (Z.pos p~0) with (2 * Z.pos p). now rewrite inject_Z_mult. Qed.

Lemma inject_xI (p : positive) : (inject_Z (Z.pos p~1) == 2 * inject_Z (Z.pos p) + 1)%Q.
Proof.
  change (Z.pos p~1) with (2 * Z.pos p + 1). now rewrite inject_Z_plus, inject_Z_mult.
Qed.

Lemma inject_succ (m : Z) : (inject_Z (m + 1) == inject_Z m + 1)%Q.
Proof. now rewrite inject_Z_plus. Qed.

Lemma shr_1_located (y : Q) (mrs : shr_record) :
  0 <= shr_m mrs -> located y mrs ->
  located (y * (1 # 2)) (shr_1 mrs) /\ shr_m (shr_1 mrs) = shr_m mrs / 2.
Proof.
  destruct mrs as [m r s]. cbn [shr_m]. intros Hm H. split.
  - unfold located in *. cbn [shr_m shr_r shr_s] in H.
    destruct m as [ | [p | p | ] | p]; try lia;
      destruct r, s; cbn [shr_1 shr_m shr_r shr_s orb];
      rewrite ?inject_xO, ?inject_xI in H;
      change (inject_Z 1) with 1%Q in *; change (inject_Z 0) with 0%Q in *; lra.
  - destruct m as [ | [p | p | ] | p]; try lia; cbn [shr_1 shr_m].
    + reflexivity.
    + apply (Z.div_unique _ _ _ 1); lia.
    + apply (Z.div_unique _ _ _ 0); lia.
    + reflexivity.
Qed.

Lemma pow2_pos (e : Z) : (0 < 2 ^ e)%Q.
Proof. apply Qpower_0_lt. reflexivity. Qed.

Lemma scaled_succ (x : Q) (e : Z) : (scaled x (e + 1) == scaled x e * (1 # 2))%Q.
Proof.
  unfold scaled. replace (- (e + 1)) with (- e + -1) by lia.
  rewrite Qpower_plus by discriminate.
  change (2 ^ (-1))%Q with (1 # 2)%Q. ring.
Qed.

Lemma located_eq (y y' : Q) (mrs : shr_record) :
  (y == y')%Q -> located y mrs -> located y' mrs.
Proof.
  intros E. unfold located. destruct (shr_r mrs), (shr_s mrs); rewrite E; trivial.
Qed.

Lemma iter_shr_1_located (x : Q) (p : positive) :
  forall (e : Z) (mrs : shr_record),
  0 <= shr_m mrs -> located (scaled x e) mrs ->
  0 <= shr_m (SpecFloat.iter_pos shr_1 p mrs)
  /\ located (scaled x (e + Z.pos p)) (SpecFloat.iter_pos shr_1 p mrs)
  /\ shr_m (SpecFloat.iter_pos shr_1 p mrs) = shr_m mrs / 2 ^ Z.pos p.
Proof.
  assert (Step : forall e mrs, 0 <= shr_m mrs -> located (scaled x e) mrs ->
            0 <= shr_m (shr_1 mrs)
            /\ located (scaled x (e + 1)) (shr_1 mrs)
            /\ shr_m (shr_1 mrs) = shr_m mrs / 2 ^ 1).
  { intros e mrs Hm H. destruct (shr_1_located _ mrs Hm H) as [H1 H2].
    split; [rewrite H2; apply Z.div_pos; lia | split; [ | exact H2]].
    apply (located_eq (scaled x e * (1 # 2))); [ | exact H1].
    now rewrite scaled_succ. }
  induction p as [p IH | p IH | ]; intros e mrs Hm H; cbn [SpecFloat.iter_pos].
  - destruct (Step e mrs Hm H) as (A1 & A2 & A3).
    destruct (IH _ _ A1 A2) as (B1 & B2 & B3).
    destruct (IH _ _ B1 B2) as (C1 & C2 & C3).
    split; [exact C1 | split].
    + replace (e + Z.pos p~1) with (e + 1 + Z.pos p + Z.pos p) by lia. exact C2.
    + rewrite C3, B3, A3, !Z.div_div by lia. f_equal.
      rewrite <- !Z.pow_add_r by lia. f_equal. lia.
  - destruct (IH _ _ Hm H) as (B1 & B2 & B3).
    destruct (IH _ _ B1 B2) as (C1 & C2 & C3).
    split; [exact C1 | split].
    + replace (e + Z.pos p~0) with (e + Z.pos p + Z.pos p) by lia. exact C2.
    + rewrite C3, B3, !Z.div_div by lia. f_equal.
      rewrite <- !Z.pow_add_r by lia. f_equal. lia.
  - apply Step; trivial.
Qed.

Lemma shr_located (x : Q) (mrs : shr_record) (e n : Z) :
  0 <= n -> 0 <= shr_m mrs -> located (scaled x e) mrs ->
  snd (shr mrs e n) = e + n
  /\ located (scaled x (e + n)) (fst (shr mrs e n))
  /\ shr_m (fst (shr mrs e n)) = shr_m mrs / 2 ^ n.
Proof.
  intros Hn Hm H. destruct n as [ | p | p]; try lia; cbn [shr fst snd].
  - rewrite Z.add_0_r, Z.div_1_r. auto.
  - destruct (iter_shr_1_located x p e mrs Hm H) as (_ & H1 & H2). auto.
Qed.

Lemma round_nearest_even_located (y : Q) (mrs : shr_record) :
  located y mrs ->
  let m := shr_m mrs in
  let z := round_nearest_even m (loc_of_shr_record mrs) in
  (z = m \/ z = m + 1)
  /\ (inject_Z m <= y /\ y < inject_Z m + 1)%Q
  /\ (inject_Z z - (1 # 2) <= y /\ y <= inject_Z z + (1 # 2))%Q
  /\ ((y == inject_Z z - (1 # 2) \/ y == inject_Z z + (1 # 2))%Q -> Z.even z = true)
  /\ (z = m + 1 -> (y <= inject_Z z)%Q).
Proof.
  destruct mrs as [m r s]. unfold located. cbn [shr_m shr_r shr_s]. intros H. cbv zeta.
  pose proof (inject_succ m) as E.
  destruct r, s; cbn [loc_of_shr_record round_nearest_even].
  - rewrite E. repeat split; try lra; try lia; try (intros [T | T]; lra).
  - destruct (Z.even m) eqn:Ev.
    + repeat split; try lra; try lia; try (intros _; exact Ev).
    + rewrite E. repeat split; try lra; try lia.
      intros _. rewrite Z.even_add, Ev. reflexivity.
  - repeat split; try lra; try lia; try (intros [T | T]; lra).
  - repeat split; try lra; try lia; try (intros [T | T]; lra).
Qed.

Lemma Zdigits2_bounds (m : Z) :
  0 < m -> 0 < Zdigits2 m /\ 2 ^ (Zdigits2 m - 1) <= m < 2 ^ Zdigits2 m.
Proof.
  destruct m as [ | p | p]; try lia. intros _. cbn [Zdigits2].
  split; [lia | apply digits2_pos_bounds].
Qed.

Lemma pow2_lt_exponent (a b : Z) : 0 <= b -> 2 ^ a < 2 ^ b -> a < b.
Proof.
  intros Hb H. destruct (Z_lt_le_dec a b) as [ | Hle]; trivial.
  apply (Z.pow_le_mono_r 2) in Hle; lia.
Qed.

Lemma shr_no_shift (mrs : shr_record) (e n : Z) : n <= 0 -> shr mrs e n = (mrs, e).
Proof. destruct n; trivial; lia. Qed.

(** The first shift of [binary_round_aux]: the mantissa is cut to 53 bits,
    or to what the least exponent leaves of it. *)
Lemma shr_fexp_located (x : Q) (mx ex : Z) (lx : location) :
  0 <= mx -> -1074 <= ex -> (ex = -1074 \/ 2 ^ 52 <= mx) ->
  located (scaled x ex) (shr_record_of_loc mx lx) ->
  let mrs := fst (shr_fexp prec emax mx ex lx) in
  let e := snd (shr_fexp prec emax mx ex lx) in
  located (scaled x e) mrs
  /\ 0 <= shr_m mrs < 2 ^ 53
  /\ -1074 <= e /\ (e = -1074 \/ 2 ^ 52 <= shr_m mrs).
Proof.
  intros Hm He Hcan Hloc. cbv zeta. unfold shr_fexp.
  set (n := fexp prec emax (Zdigits2 mx + ex) - ex).
  assert (Hrec : shr_m (shr_record_of_loc mx lx) = mx)
    by (destruct lx as [ | [ | | ]]; reflexivity).
  assert (Hn : 0 <= n /\ (mx = 0 -> n = 0)
               /\ (0 < mx -> (n = Zdigits2 mx - 53 /\ -1074 <= Zdigits2 mx + ex - 53)
                             \/ (n = 0 /\ ex = -1074 /\ Zdigits2 mx < 53))).
  { subst n. unfold fexp, emin, prec, emax.
    destruct (Z.eq_dec mx 0) as [-> | Hne].
    - cbn [Zdigits2]. destruct Hcan as [-> | Hc]; [lia | ].
      change (2 ^ 52) with 4503599627370496 in Hc. lia.
    - destruct (Zdigits2_bounds mx) as (Hd & Hlo & Hhi); [lia | ].
      destruct Hcan as [-> | Hc].
      + lia.
      + assert (52 < Zdigits2 mx) by (apply pow2_lt_exponent; lia). lia. }
  destruct Hn as (Hn0 & Hz & Hp).
  destruct (shr_located x (shr_record_of_loc mx lx) ex n Hn0) as (E1 & E2 & E3);
    [rewrite Hrec; exact Hm | exact Hloc | ].
  rewrite E1, E3, Hrec. split; [exact E2 | ].
  destruct (Z.eq_dec mx 0) as [-> | Hne].
  - rewrite (Hz eq_refl). cbn. destruct Hcan as [-> | Hc]; [lia | ].
    change (2 ^ 52) with 4503599627370496 in Hc. lia.
  - destruct (Zdigits2_bounds mx) as (Hd & Hlo & Hhi); [lia | ].
    destruct Hp as [[-> Hge] | (-> & -> & Hlt)]; [lia | | ].
    + assert (H53 : 0 <= Zdigits2 mx - 53).
      { destruct Hcan as [-> | Hc]; [lia | ].
        assert (52 < Zdigits2 mx) by (apply pow2_lt_exponent; lia). lia. }
      assert (Hpow : 0 < 2 ^ (Zdigits2 mx - 53)) by (apply Z.pow_pos_nonneg; lia).
      assert (E52 : 2 ^ (Zdigits2 mx - 1) = 2 ^ (Zdigits2 mx - 53) * 2 ^ 52)
        by (rewrite <- Z.pow_add_r by lia; f_equal; lia).
      assert (E53 : 2 ^ Zdigits2 mx = 2 ^ (Zdigits2 mx - 53) * 2 ^ 53)
        by (rewrite <- Z.pow_add_r by lia; f_equal; lia).
      split; [split | split; [lia | right]].
      * apply Z.div_pos; lia.
      * apply Z.div_lt_upper_bound; lia.
      * apply Z.div_le_lower_bound; lia.
    + rewrite Z.add_0_r, Z.div_1_r.
      assert (Hle : 2 ^ Zdigits2 mx <= 2 ^ 52) by (apply Z.pow_le_mono_r; lia).
      assert (2 ^ 52 < 2 ^ 53) by reflexivity.
      split; [lia | split; [lia | left; reflexivity]].
Qed.

(** The second shift brings the mantissa back to 53 bits when rounding
    carried into the bit above. *)
Lemma shr_fexp_carry (z e : Z) :
  0 <= z <= 2 ^ 53 -> -1074 <= e ->
  shr_fexp prec emax z e loc_Exact
  = if z =? 2 ^ 53 then ({| shr_m := 2 ^ 52; shr_r := false; shr_s := false |}, e + 1)
    else ({| shr_m := z; shr_r := false; shr_s := false |}, e).
Proof.
  intros Hz He. destruct (Z.eqb_spec z (2 ^ 53)) as [-> | Hne].
  - unfold shr_fexp. change (Zdigits2 (2 ^ 53)) with 54.
    unfold fexp, emin, prec, emax.
    replace (Z.max (54 + e - 53) (3 - 1024 - 53) - e) with 1 by lia.
    reflexivity.
  - unfold shr_fexp. apply shr_no_shift. unfold fexp, emin, prec, emax.
    destruct (Z.eq_dec z 0) as [-> | Hz0]; [cbn [Zdigits2]; lia | ].
    destruct (Zdigits2_bounds z) as (Hd & Hlo & Hhi); [lia | ].
    assert (Zdigits2 z - 1 < 53) by (apply pow2_lt_exponent; lia). lia.
Qed.

Lemma unscale (x : Q) (e : Z) : (x == scaled x e * 2 ^ e)%Q.
Proof.
  unfold scaled. rewrite <- Qmult_assoc, <- Qpower_plus by discriminate.
  replace (- e + e) with 0 by lia. change (2 ^ 0)%Q with 1%Q. ring.
Qed.

Lemma scaled_lower (x a : Q) (e : Z) : (a <= scaled x e)%Q -> (a * 2 ^ e <= x)%Q.
Proof.
  intros H. rewrite (unscale x e) at 1.
  apply Qmult_le_compat_r; [exact H | apply Qlt_le_weak, pow2_pos].
Qed.

Lemma scaled_upper (x a : Q) (e : Z) : (scaled x e <= a)%Q -> (x <= a * 2 ^ e)%Q.
Proof.
  intros H. rewrite (unscale x e) at 1.
  apply Qmult_le_compat_r; [exact H | apply Qlt_le_weak, pow2_pos].
Qed.

Lemma scaled_tie (x a : Q) (e : Z) : (x == a * 2 ^ e)%Q -> (scaled x e == a)%Q.
Proof.
  intros H. unfold scaled. rewrite H, <- Qmult_assoc, <- Qpower_plus by discriminate.
  replace (e + - e) with 0 by lia. change (2 ^ 0)%Q with 1%Q. ring.
Qed.

Lemma pow2_succ (e : Z) : (2 ^ (e + 1) == 2 * 2 ^ e)%Q.
Proof. rewrite Qpower_plus by discriminate. change (2 ^ 1)%Q with 2%Q. ring. Qed.

Lemma pow2_le (e e' : Z) : e <= e' -> (2 ^ e <= 2 ^ e')%Q.
Proof.
  intros H. replace e' with (e + (e' - e)) by lia.
  rewrite Qpower_plus by discriminate.
  assert (H1 : (1 <= 2 ^ (e' - e))%Q).
  { change 2%Q with (inject_Z 2). rewrite <- Zpower_Qpower by lia.
    change 1%Q with (inject_Z 1). rewrite <- Zle_Qle.
    pose proof (Z.pow_pos_nonneg 2 (e' - e)). lia. }
  pose proof (pow2_pos e). nra.
Qed.

(** What [binary_round_aux] returns for a located [x]: zero, the nearest
    number, or infinity. *)
Lemma binary_round_aux_rounds (x : Q) (mx ex : Z) (lx : location) :
  0 <= mx -> -1074 <= ex -> (ex = -1074 \/ 2 ^ 52 <= mx) ->
  located (scaled x ex) (shr_record_of_loc mx lx) ->
  rounds_to x (binary_round_aux prec emax false mx ex lx).
Proof.
  intros Hm He Hcan Hloc. unfold binary_round_aux.
  destruct (shr_fexp_located x mx ex lx Hm He Hcan Hloc) as (Hloc1 & Hm1 & He1 & Hcan1).
  destruct (shr_fexp prec emax mx ex lx) as [mrs e1]. cbn [fst snd] in *.
  destruct (round_nearest_even_located _ mrs Hloc1) as (Hz & Hfloor & Hhalf & Htie & Hup).
  cbv zeta in *.
  set (z := round_nearest_even (shr_m mrs) (loc_of_shr_record mrs)) in *.
  set (y := scaled x e1) in *.
  assert (Hy : (x == y * 2 ^ e1)%Q) by apply unscale.
  pose proof (pow2_pos e1) as HP.
  assert (Hm1q : (0 <= inject_Z (shr_m mrs))%Q)
    by (change 0%Q with (inject_Z 0); rewrite <- Zle_Qle; lia).
  rewrite shr_fexp_carry by lia.
  change (emax - prec) with 971.
  destruct (Z.eqb_spec z (2 ^ 53)) as [Ez | Ez].
  - (* rounding carried *)
    assert (Ey : (9007199254740992 - (1 # 2) <= y /\ y <= 9007199254740992)%Q).
    { rewrite Ez in Hhalf, Hup. change (inject_Z (2 ^ 53)) with 9007199254740992%Q in *.
      split; [tauto | ]. apply Hup. lia. }
    cbn [shr_m]. change (2 ^ 52) with 4503599627370496. cbn match.
    destruct (Z.leb_spec (e1 + 1) 971) as [Hle | Hgt].
    + cbn [rounds_to]. split; [repeat split; cbn; lia | ].
      replace (-1074 <? e1 + 1) with true by (symmetry; apply Z.ltb_lt; lia).
      change (4503599627370496 =? 2 ^ 52) with true. cbn [andb]. cbv zeta.
      change (inject_Z 4503599627370496) with 4503599627370496%Q.
      rewrite pow2_succ, Hy.
      split; [split; nra | ].
      intros [T | [_ T]]; [ | discriminate T].
      exfalso. nra.
    + cbn [rounds_to]. rewrite Hy.
      assert (H971 : (2 ^ 971 <= 2 ^ e1)%Q) by (apply pow2_le; lia).
      pose proof (pow2_pos 971) as H0.
      revert H971 H0. generalize (2 ^ 971)%Q. intros P971 H971 H0. nra.
  - assert (Hz53 : z < 2 ^ 53) by lia. cbn [shr_m].
    destruct z as [ | p | p] eqn:Ep; [ | | lia].
    + (* zero *)
      assert (E1 : e1 = -1074).
      { destruct Hcan1 as [ | Hc]; trivial.
        change (2 ^ 52) with 4503599627370496 in Hc. lia. }
      cbn [rounds_to]. subst e1.
      change (inject_Z 0) with 0%Q in *.
      assert (Hhalfp : (2 ^ (-1075) == (1 # 2) * 2 ^ (-1074))%Q) by reflexivity.
      rewrite Hhalfp, Hy. split; nra.
    + destruct (Z.leb_spec e1 971) as [Hle | Hgt].
      * cbn [rounds_to]. split.
        { repeat split; lia. }
        cbv zeta.
        destruct ((Z.pos p =? 2 ^ 52) && (-1074 <? e1)) eqn:Eb.
        -- apply andb_true_iff in Eb as [Eb1 Eb2].
           apply Z.eqb_eq in Eb1. apply Z.ltb_lt in Eb2.
           assert (Em : shr_m mrs = Z.pos p).
           { destruct Hz as [Hz | Hz]; [congruence | ].
             destruct Hcan1 as [ | Hc]; lia. }
           rewrite Em in Hfloor.
           split; [split; [apply scaled_lower; fold y; lra | apply scaled_upper; fold y; lra] | ].
           intros [T | [_ T]]; [ | discriminate T].
           apply Htie. right. now apply scaled_tie.
        -- split; [split; [apply scaled_lower; fold y; lra | apply scaled_upper; fold y; lra] | ].
           intros [T | [T _]]; apply Htie; [right | left]; now apply scaled_tie.
      * cbn [rounds_to].
        assert (Hc : 2 ^ 52 <= shr_m mrs) by (destruct Hcan1; lia).
        assert (Hcq : (4503599627370496 <= inject_Z (shr_m mrs))%Q)
          by (change 4503599627370496%Q with (inject_Z (2 ^ 52)); now rewrite <- Zle_Qle).
        assert (H972 : (2 ^ 972 <= 2 ^ e1)%Q) by (apply pow2_le; lia).
        assert (E972 : (2 ^ 972 == 2 * 2 ^ 971)%Q) by (apply (pow2_succ 971)).
        pose proof (pow2_pos 971) as H0. rewrite Hy.
        revert H972 E972 H0. generalize (2 ^ 971)%Q (2 ^ 972)%Q.
        intros P971 P972 H972 E972 H0. nra.
Qed.

Lemma rounds_to_eq (x x' : Q) (f : number) :
  (x == x')%Q -> rounds_to x f -> rounds_to x' f.
Proof.
  intros E. destruct f as [[ | ] | [ | ] | | [ | ] m e]; cbn [rounds_to]; trivial.
  - now rewrite E.
  - now rewrite E.
  - cbv zeta. now rewrite E.
Qed.

Lemma iter_xO (p d : positive) : Z.pos (Pos.iter xO p d) = Z.pos p * 2 ^ Z.pos d.
Proof.
  induction d as [ | d IH] using Pos.peano_ind.
  - cbn. lia.
  - rewrite Pos.iter_succ, Pos2Z.inj_succ, Z.pow_succ_r by lia.
    rewrite Pos2Z.inj_xO, IH. lia.
Qed.

(** An integer is rounded to the nearest number. *)
Lemma binary_normalize_rounds (n : Z) :
  0 <= n -> rounds_to (inject_Z n) (binary_normalize prec emax n 0 false).
Proof.
  intros Hn. destruct n as [ | p | p]; [ | | lia]; cbn [binary_normalize].
  { cbn. split; [apply Qle_refl | discriminate]. }
  unfold binary_round. rewrite Z.add_0_r.
  destruct (digits2_pos_bounds p) as [Hlo Hhi].
  set (d := Z.pos (digits2_pos p)) in *.
  assert (Hd : 0 < d) by (subst d; lia).
  unfold shl_align, fexp, emin, prec, emax. rewrite Z.sub_0_r.
  destruct (Z.max (d - 53) (3 - 1024 - 53)) as [ | k | k] eqn:Ek.
  - (* already 53 bits *)
    assert (d = 53) by lia.
    apply binary_round_aux_rounds; try lia.
    + right. replace 52 with (d - 1) by lia. exact Hlo.
    + cbn. unfold scaled. change (2 ^ (- 0))%Q with 1%Q. ring.
  - assert (53 < d) by lia.
    apply binary_round_aux_rounds; try lia.
    + right. assert (2 ^ 52 <= 2 ^ (d - 1)) by (apply Z.pow_le_mono_r; lia). lia.
    + cbn. unfold scaled. change (2 ^ (- 0))%Q with 1%Q. ring.
  - assert (Hk : Z.neg k = d - 53) by lia.
    apply binary_round_aux_rounds; try lia.
    + right. rewrite iter_xO.
      assert (E : 2 ^ 52 = 2 ^ (d - 1) * 2 ^ Z.pos k)
        by (rewrite <- Z.pow_add_r by lia; f_equal; lia).
      rewrite E. apply Z.mul_le_mono_nonneg_r; [apply Z.pow_nonneg; lia | exact Hlo].
    + cbn [shr_record_of_loc]. unfold located; cbn [shr_m shr_r shr_s].
      unfold scaled. rewrite iter_xO, inject_Z_mult.
      change (- Z.neg k) with (Z.pos k).
      change 2%Q with (inject_Z 2). rewrite <- Zpower_Qpower by lia. reflexivity.
Qed.

(** The quotient of a division and the place of its remainder locate the
    exact quotient. *)
Lemma new_location_located (y : Q) (M q r : Z) :
  0 < M -> 0 <= r < M ->
  (y * inject_Z M == inject_Z q * inject_Z M + inject_Z r)%Q ->
  located y (shr_record_of_loc q (new_location M r)).
Proof.
  intros HM Hr Hy.
  assert (HMq : (0 < inject_Z M)%Q) by (change 0%Q with (inject_Z 0); now rewrite <- Zlt_Qlt).
  assert (Hrq : (0 <= inject_Z r)%Q) by (change 0%Q with (inject_Z 0); rewrite <- Zle_Qle; lia).
  assert (Cmp : forall a b, a < b -> (inject_Z a < inject_Z b)%Q) by (intros; now rewrite <- Zlt_Qlt).
  assert (Two : (inject_Z (2 * r) == 2 * inject_Z r)%Q) by now rewrite inject_Z_mult.
  assert (Exact : r = 0 -> located y (shr_record_of_loc q loc_Exact)).
  { intros ->. unfold located; cbn. change (inject_Z 0) with 0%Q in Hy. nra. }
  assert (Below : 0 < r -> 2 * r < M -> located y (shr_record_of_loc q (loc_Inexact Lt))).
  { intros H0 H. apply Cmp in H0, H. rewrite Two in H. change (inject_Z 0) with 0%Q in H0.
    unfold located; cbn. split; nra. }
  assert (Half : 2 * r = M -> located y (shr_record_of_loc q (loc_Inexact Eq))).
  { intros H. assert (E : (inject_Z M == 2 * inject_Z r)%Q) by (rewrite <- H; exact Two).
    unfold located; cbn. nra. }
  assert (Above : M < 2 * r -> located y (shr_record_of_loc q (loc_Inexact Gt))).
  { intros H. apply Cmp in H. rewrite Two in H.
    assert (H1 : (inject_Z r < inject_Z M)%Q) by (apply Cmp; lia).
    unfold located; cbn. split; nra. }
  unfold new_location, new_location_even, new_location_odd.
  destruct (Z.even M) eqn:Ev; destruct (Z.eqb_spec r 0) as [E0 | E0]; auto.
  - destruct (Z.compare_spec (2 * r) M); [apply Half | apply Below | apply Above]; lia.
  - assert (Hodd : 2 * r <> M).
    { intros <-. rewrite Z.even_mul in Ev. discriminate. }
    destruct (Z.compare_spec (2 * r + 1) M); [apply Below | apply Below | apply Above]; lia.
Qed.

(** A quotient of two integers is rounded to the nearest number. *)
Lemma division_rounds (m M : Z) :
  0 < m -> 0 < M ->
  let '(q, e, l) := SFdiv_core_binary prec emax m 0 M 0 in
  rounds_to (inject_Z m / inject_Z M) (binary_round_aux prec emax false q e l).
Proof.
  intros Hm HM. unfold SFdiv_core_binary.
  destruct (Zdigits2_bounds m Hm) as (Hd1 & Hlo1 & Hhi1).
  destruct (Zdigits2_bounds M HM) as (Hd2 & Hlo2 & Hhi2).
  set (d1 := Zdigits2 m) in *. set (d2 := Zdigits2 M) in *.
  rewrite !Z.add_0_r, Z.sub_0_r.
  unfold fexp, emin, prec, emax.
  set (e := Z.min (Z.max (d1 - d2 - 53) (3 - 1024 - 53)) 0).
  assert (He : -1074 <= e <= 0) by lia.
  set (m' := match 0 - e with 0 => m | Z.pos _ => Z.shiftl m (0 - e) | Z.neg _ => 0 end).
  assert (Em' : m' = m * 2 ^ (- e)).
  { subst m'. replace (0 - e) with (- e) by lia.
    destruct (- e) as [ | k | k] eqn:Ek; [lia | | lia].
    apply Z.shiftl_mul_pow2. lia. }
  pose proof (Z_div_mod m' M ltac:(lia)) as Hdiv.
  destruct (Z.div_eucl m' M) as [q r]. destruct Hdiv as [Hq Hr].
  assert (Hpow : 0 < 2 ^ (- e)) by (apply Z.pow_pos_nonneg; lia).
  assert (Hm' : 0 < m') by nia.
  assert (Hq0 : 0 <= q) by nia.
  apply binary_round_aux_rounds; try lia.
  - destruct (Z.eq_dec e (-1074)) as [ | Hne]; [now left | right].
    assert (Hs : 52 + d2 <= d1 - 1 + - e) by lia.
    assert (H1 : 2 ^ (52 + d2) <= 2 ^ (d1 - 1 + - e)) by (apply Z.pow_le_mono_r; lia).
    rewrite !Z.pow_add_r in H1 by lia.
    assert (H2 : 2 ^ (d1 - 1) * 2 ^ (- e) <= m') by (rewrite Em'; nia).
    assert (H3 : M * 2 ^ 52 <= m') by nia.
    destruct (Z_lt_le_dec q (2 ^ 52)) as [Hlt | ]; trivial. nia.
  - apply new_location_located; trivial.
    assert (HMq : (0 < inject_Z M)%Q) by (change 0%Q with (inject_Z 0); now rewrite <- Zlt_Qlt).
    assert (E1 : (inject_Z m' == inject_Z m * 2 ^ (- e))%Q).
    { rewrite Em', inject_Z_mult. change 2%Q with (inject_Z 2).
      now rewrite <- Zpower_Qpower by lia. }
    assert (E2 : (inject_Z m' == inject_Z q * inject_Z M + inject_Z r)%Q).
    { rewrite Hq, inject_Z_plus, inject_Z_mult. ring. }
    unfold scaled. rewrite <- E2, E1. field. lra.
Qed.

(** [of_decimal] gives the binary64 nearest to [m * 10^e]. *)
Lemma of_decimal_rounds (m e : Z) :
  0 <= m -> rounds_to (inject_Z m * 10 ^ e) (of_decimal false m e).
Proof.
  intros Hm. unfold of_decimal. destruct m as [ | p | p]; [ | | lia].
  { cbn [rounds_to]. rewrite Qmult_0_l. split; [apply Qle_refl | discriminate]. }
  destruct (Z.leb_spec 0 e) as [He | He].
  - apply (rounds_to_eq (inject_Z (Z.pos p * 10 ^ e))).
    + rewrite inject_Z_mult. change 10%Q with (inject_Z 10).
      now rewrite <- Zpower_Qpower by lia.
    + apply binary_normalize_rounds. pose proof (Z.pow_nonneg 10 e). lia.
  - assert (HM : 0 < 10 ^ (- e)) by (apply Z.pow_pos_nonneg; lia).
    pose proof (division_rounds (Z.pos p) (10 ^ (- e)) ltac:(lia) HM) as H.
    destruct (SFdiv_core_binary prec emax (Z.pos p) 0 (10 ^ (- e)) 0) as [[q e'] l].
    apply (rounds_to_eq (inject_Z (Z.pos p) / inject_Z (10 ^ (- e)))); [ | exact H].
    change 10%Q with (inject_Z 10).
    rewrite Zpower_Qpower by lia. unfold Qdiv.
    rewrite <- (Qpower_opp (inject_Z 10) (- e)), Z.opp_involutive. reflexivity.
Qed.

(** ** The value of a decimal literal *)

Lemma pow10_succ (n : nat) : (10 ^ Z.of_nat (S n) == 10 * 10 ^ Z.of_nat n)%Q.
Proof.
  rewrite Nat2Z.inj_succ. unfold Z.succ. rewrite Qpower_plus by discriminate.
  change (10 ^ 1)%Q with 10%Q. ring.
Qed.

Lemma pow10_inject (n : nat) : (inject_Z (10 ^ Z.of_nat n) == 10 ^ Z.of_nat n)%Q.
Proof. change 10%Q with (inject_Z 10). apply Zpower_Qpower. lia. Qed.

Lemma digits_fold_shift (ds : jsstring) :
  forall acc,
  fold_left (fun a c => 10 * a + (c - 0x30)) ds acc
  = acc * 10 ^ Z.of_nat (List.length ds) + digits_value ds.
Proof.
  unfold digits_value.
  induction ds as [ | c r IH]; intros acc; cbn [fold_left List.length].
  - cbn. lia.
  - rewrite (IH (10 * acc + (c - 48))), (IH (10 * 0 + (c - 48))).
    rewrite Nat2Z.inj_succ, Z.pow_succ_r by lia. ring.
Qed.

Lemma digits_value_app (ip fp : jsstring) :
  digits_value (ip ++ fp)
  = digits_value ip * 10 ^ Z.of_nat (List.length fp) + digits_value fp.
Proof.
  unfold digits_value at 1. rewrite fold_left_app.
  fold (digits_value ip). apply digits_fold_shift.
Qed.

Lemma digits_value_cons (c : Z) (r : jsstring) :
  digits_value (c :: r) = (c - 0x30) * 10 ^ Z.of_nat (List.length r) + digits_value r.
Proof. apply (digits_value_app [c] r). Qed.

Lemma fraction_value_digits (fp : jsstring) :
  (fraction_value fp * 10 ^ Z.of_nat (List.length fp) == inject_Z (digits_value fp))%Q.
Proof.
  induction fp as [ | c r IH]; [reflexivity | ].
  cbn [fraction_value List.length]. rewrite digits_value_cons, pow10_succ.
  rewrite inject_Z_plus, inject_Z_mult, pow10_inject, <- IH. unfold digit_value.
  change 48 with 0x30. field.
Qed.

Lemma decimal_value_whole (ds : jsstring) :
  all is_digit ds ->
  forall whole,
  (decimal_value_from whole ds
   == whole * 10 ^ Z.of_nat (List.length ds) + inject_Z (digits_value ds))%Q.
Proof.
  induction ds as [ | c r IH]; intros H whole.
  - cbn. change (digits_value []) with 0. change (inject_Z 0) with 0%Q.
    change (10 ^ 0)%Q with 1%Q. ring.
  - apply all_cons in H as [Hc H]. apply digit_range in Hc.
    cbn [decimal_value_from]. destruct (Z.eqb_spec c 0x2E) as [-> | _]; [lia | ].
    rewrite (IH H). cbn [List.length].
    rewrite digits_value_cons, pow10_succ, inject_Z_plus, inject_Z_mult, pow10_inject.
    unfold digit_value. ring.
Qed.

Lemma decimal_value_point (ip fp : jsstring) :
  all is_digit ip ->
  forall whole,
  Qeq (decimal_value_from whole (ip ++ 0x2E :: fp))
      (whole * 10 ^ Z.of_nat (List.length ip) + inject_Z (digits_value ip)
       + fraction_value fp)%Q.
Proof.
  induction ip as [ | c r IH]; intros H whole.
  - cbn [app decimal_value_from List.length]. change (0x2E =? 0x2E) with true. cbn match.
    change (digits_value []) with 0. change (inject_Z 0) with 0%Q.
    change (10 ^ Z.of_nat 0)%Q with 1%Q. ring.
  - apply all_cons in H as [Hc H]. apply digit_range in Hc.
    cbn [app decimal_value_from]. destruct (Z.eqb_spec c 0x2E) as [-> | _]; [lia | ].
    rewrite (IH H). cbn [List.length].
    rewrite digits_value_cons, pow10_succ, inject_Z_plus, inject_Z_mult, pow10_inject.
    unfold digit_value. ring.
Qed.

(** What [parseFloat] makes of the digits of a literal is the number
    nearest to the value of the literal. *)
Lemma decimal_literal_rounds (ip fp : jsstring) :
  all is_digit ip -> all is_digit fp ->
  rounds_to (decimal_value ip) (of_decimal false (digits_value ip) 0)
  /\ rounds_to (decimal_value (ip ++ 0x2E :: fp))
       (of_decimal false (digits_value (ip ++ fp)) (- Z.of_nat (List.length fp))).
Proof.
  intros Hip Hfp. split.
  - apply (rounds_to_eq (inject_Z (digits_value ip) * 10 ^ 0)).
    + unfold decimal_value. rewrite (decimal_value_whole ip Hip).
      change (10 ^ 0)%Q with 1%Q. ring.
    + apply of_decimal_rounds. now apply digits_value_nonneg.
  - apply (rounds_to_eq (inject_Z (digits_value (ip ++ fp))
                          * 10 ^ (- Z.of_nat (List.length fp)))).
    + unfold decimal_value. rewrite (decimal_value_point ip fp Hip).
      rewrite digits_value_app, inject_Z_plus, inject_Z_mult, pow10_inject.
      rewrite <- (fraction_value_digits fp).
      rewrite Qpower_opp.
      assert (Hp : (0 < 10 ^ Z.of_nat (List.length fp))%Q)
        by (apply Qpower_0_lt; reflexivity).
      field. lra.
    + apply of_decimal_rounds. apply digits_value_nonneg, all_app. auto.
Qed.


(** ** At most one number is nearest *)

Lemma inject_le (a b : Z) : a <= b -> (inject_Z a <= inject_Z b)%Q.
Proof. intros H. now rewrite <- Zle_Qle. Qed.

Lemma rounds_to_finite (x : Q) (m : positive) (e : Z) :
  rounds_to x (S754_finite false m e) ->
  let mq := inject_Z (Z.pos m) in
  representable (Z.pos m) e
  /\ (1 <= mq /\ mq <= 9007199254740991)%Q
  /\ (-1074 < e -> (4503599627370496 <= mq)%Q)
  /\ ((mq - (1 # 2)) * 2 ^ e <= x /\ x <= (mq + (1 # 2)) * 2 ^ e)%Q
  /\ (Z.pos m = 2 ^ 52 -> -1074 < e -> ((mq - (1 # 4)) * 2 ^ e <= x)%Q)
  /\ ((x == (mq + (1 # 2)) * 2 ^ e)%Q -> Z.even (Z.pos m) = true)
  /\ ((x == (mq - (1 # 2)) * 2 ^ e)%Q -> Z.even (Z.pos m) = true).
Proof.
  cbn [rounds_to]. cbv zeta. intros (Hrep & [Hlo Hhi] & Htie).
  pose proof (pow2_pos e) as HP.
  destruct Hrep as (Hm & He & Hcan).
  assert (H1 : (1 <= inject_Z (Z.pos m))%Q) by (apply (inject_le 1); lia).
  assert (H2 : (inject_Z (Z.pos m) <= 9007199254740991)%Q)
    by (apply (inject_le _ 9007199254740991); change (2 ^ 53) with 9007199254740992 in Hm; lia).
  assert (H3 : -1074 < e -> (4503599627370496 <= inject_Z (Z.pos m))%Q).
  { intros Hgt. apply (inject_le 4503599627370496).
    change (2 ^ 52) with 4503599627370496 in Hcan. lia. }
  split; [exact (conj Hm (conj He Hcan)) | ].
  split; [exact (conj H1 H2) | split; [exact H3 | ]].
  destruct ((Z.pos m =? 2 ^ 52) && (-1074 <? e)) eqn:Eb.
  - split; [split; [nra | exact Hhi] | ].
    split; [intros _ _; exact Hlo | split; [auto | ]].
    intros T. exfalso. nra.
  - split; [split; [exact Hlo | exact Hhi] | ].
    split; [ | split; [auto | auto]].
    intros E1 E2. apply andb_false_iff in Eb as [Eb | Eb].
    + apply Z.eqb_neq in Eb. contradiction.
    + apply Z.ltb_ge in Eb. lia.
Qed.

(** A number does not round both to [m * 2^e] and to a greater one. *)
Lemma rounds_to_ordered (x : Q) (m m' : positive) (e e' : Z) :
  e < e' \/ (e = e' /\ (m < m')%positive) ->
  rounds_to x (S754_finite false m e) -> rounds_to x (S754_finite false m' e') -> False.
Proof.
  intros Hord H H'.
  apply rounds_to_finite in H. apply rounds_to_finite in H'. cbv zeta in *.
  destruct H as (Hrep & [Hm1 Hm2] & Hn & [Hlo Hhi] & _ & Htie & _).
  destruct H' as (Hrep' & [Hm1' Hm2'] & Hn' & [Hlo' Hhi'] & Hq' & _ & Htie').
  pose proof (pow2_pos e) as HP. pose proof (pow2_pos e') as HP'.
  destruct Hord as [Hlt | [<- Hlt]].
  - assert (HPP : (2 * 2 ^ e <= 2 ^ e')%Q)
      by (rewrite <- pow2_succ; apply pow2_le; lia).
    assert (He' : -1074 < e') by (destruct Hrep as (_ & ? & _); lia).
    specialize (Hn' He').
    assert (Hlow : ((4503599627370496 - (1 # 4)) * 2 ^ e' <= x)%Q).
    { destruct (Z.eq_dec (Z.pos m') (2 ^ 52)) as [E | E].
      - specialize (Hq' E He'). rewrite E in Hq'.
        change (inject_Z (2 ^ 52)) with 4503599627370496%Q in Hq'. exact Hq'.
      - assert (Hm' : (4503599627370497 <= inject_Z (Z.pos m'))%Q).
        { apply (inject_le 4503599627370497).
          destruct Hrep' as (_ & _ & [ | Hc]); [lia | ].
          change (2 ^ 52) with 4503599627370496 in *. lia. }
        nra. }
    assert (Hx : (x == (inject_Z (Z.pos m) + (1 # 2)) * 2 ^ e)%Q).
    { apply Qle_antisym; [exact Hhi | ]. nra. }
    assert (Hmax : (inject_Z (Z.pos m) == 9007199254740991)%Q).
    { apply Qle_antisym; [exact Hm2 | ].
      apply Qnot_lt_le. intros Hc. nra. }
    apply Htie in Hx.
    change 9007199254740991%Q with (inject_Z 9007199254740991) in Hmax.
    apply (proj1 (inject_Z_injective _ _)) in Hmax. rewrite Hmax in Hx. discriminate.
  - assert (Hnext : (inject_Z (Z.pos m) + 1 <= inject_Z (Z.pos m'))%Q).
    { rewrite <- inject_succ. apply inject_le. lia. }
    assert (Hx : (x == (inject_Z (Z.pos m) + (1 # 2)) * 2 ^ e)%Q).
    { apply Qle_antisym; [exact Hhi | ]. nra. }
    assert (Hx' : (x == (inject_Z (Z.pos m') - (1 # 2)) * 2 ^ e)%Q).
    { apply Qle_antisym; [ | exact Hlo']. nra. }
    assert (Hm' : (inject_Z (Z.pos m') == inject_Z (Z.pos m + 1))%Q).
    { rewrite inject_succ. apply Qle_antisym; [ | exact Hnext].
      apply Qnot_lt_le. intros Hc. rewrite Hx in Hx'. nra. }
    apply (proj1 (inject_Z_injective _ _)) in Hm'.
    apply Htie in Hx. apply Htie' in Hx'.
    rewrite Hm', Z.even_add, Hx in Hx'. discriminate.
Qed.

Lemma rounds_to_unique (x : Q) (f g : number) :
  rounds_to x f -> rounds_to x g -> f = g.
Proof.
  assert (Zero : forall m e, rounds_to x (S754_zero false) ->
                             rounds_to x (S754_finite false m e) -> False).
  { intros m e [_ Hz] H. apply rounds_to_finite in H. cbv zeta in H.
    destruct H as ((_ & He & _) & [Hm1 _] & Hn & [Hlo _] & _ & _ & Htie).
    pose proof (pow2_pos e) as HP.
    assert (Hhalf : (2 ^ (-1075) == (1 # 2) * 2 ^ (-1074))%Q) by reflexivity.
    assert (Hle : (2 ^ (-1074) <= 2 ^ e)%Q) by (apply pow2_le; lia).
    pose proof (pow2_pos (-1074)) as HP0.
    rewrite Hhalf in Hz.
    destruct (Z.eq_dec e (-1074)) as [-> | Hne].
    - assert (Hone : (inject_Z (Z.pos m) == inject_Z 1)%Q).
      { change (inject_Z 1) with 1%Q. apply Qle_antisym; [ | exact Hm1].
        apply Qnot_lt_le. intros Hc. nra. }
      assert (Hx : (x == (inject_Z (Z.pos m) - (1 # 2)) * 2 ^ (-1074))%Q).
      { apply Qle_antisym; [ | exact Hlo]. rewrite Hone.
        change (inject_Z 1) with 1%Q. nra. }
      apply Htie in Hx. apply (proj1 (inject_Z_injective _ _)) in Hone. rewrite Hone in Hx. discriminate.
    - specialize (Hn ltac:(lia)).
      revert Hz Hlo Hle HP HP0. generalize (2 ^ e)%Q (2 ^ (-1074))%Q. intros. nra. }
  assert (Inf : forall m e, rounds_to x (S754_finite false m e) ->
                            rounds_to x (S754_infinity false) -> False).
  { intros m e H Hi. cbn [rounds_to] in Hi.
    apply rounds_to_finite in H. cbv zeta in H.
    destruct H as ((_ & He & _) & [_ Hm2] & _ & [_ Hhi] & _ & Htie & _).
    pose proof (pow2_pos e) as HP.
    assert (Hle : (2 ^ e <= 2 ^ 971)%Q) by (apply pow2_le; lia).
    revert Hi Hle. generalize (2 ^ 971)%Q. intros T Hi Hle.
    assert (Hx : (x == (inject_Z (Z.pos m) + (1 # 2)) * 2 ^ e)%Q).
    { apply Qle_antisym; [exact Hhi | ]. nra. }
    assert (Hmax : (inject_Z (Z.pos m) == inject_Z 9007199254740991)%Q).
    { change (inject_Z 9007199254740991) with 9007199254740991%Q.
      apply Qle_antisym; [exact Hm2 | ].
      apply Qnot_lt_le. intros Hc. nra. }
    apply Htie in Hx. apply (proj1 (inject_Z_injective _ _)) in Hmax. rewrite Hmax in Hx. discriminate. }
  assert (ZeroInf : rounds_to x (S754_zero false) -> rounds_to x (S754_infinity false) -> False).
  { intros [_ Hz] Hi. cbn [rounds_to] in Hi.
    assert (Hle : (2 ^ (-1075) <= 2 ^ 971)%Q) by (apply pow2_le; lia).
    pose proof (pow2_pos (-1075)) as HP.
    revert Hz Hi Hle HP. generalize (2 ^ (-1075))%Q (2 ^ 971)%Q. intros. nra. }
  intros Hf Hg.
  destruct f as [[ | ] | [ | ] | | [ | ] m e]; try (now destruct Hf);
    destruct g as [[ | ] | [ | ] | | [ | ] m' e']; try (now destruct Hg);
    trivial; try (exfalso; eauto; fail).
  destruct (Z.lt_trichotomy e e') as [Hlt | [<- | Hgt]].
  - exfalso. apply (rounds_to_ordered x m m' e e'); auto.
  - destruct (Pos.lt_total m m') as [Hlt | [<- | Hgt]]; trivial.
    + exfalso. apply (rounds_to_ordered x m m' e e); auto.
    + exfalso. apply (rounds_to_ordered x m' m e e); auto.
  - exfalso. apply (rounds_to_ordered x m' m e' e); auto.
Qed.

(** C3.  A token with no Chinese numeral character that is a valid decimal
    literal (Arabic digits, at most one decimal point) parses to its plain
    decimal value: the number returned is the binary64 nearest to the
    rational the literal denotes, and no other number is. *)
Theorem parse_decimal_literal (token : jsstring) :
  has_numeral_char token = false ->
  is_decimal_literal token = true ->
  rounds_to (decimal_value token) (parseNumber token)
  /\ forall f, rounds_to (decimal_value token) f -> f = parseNumber token.
Proof.
  intros Hcn Hlit.
  assert (H : rounds_to (decimal_value token) (parseNumber token)).
  { unfold parseNumber; cbv zeta. rewrite Hcn.
    destruct (decimal_literal_shape token Hlit)
      as (ip & fp & Hip & Hfp & [[-> Hne] | [-> Hne]]).
    - pose proof (parseFloat_digits ip [] Hip Hne I) as Hp.
      rewrite app_nil_r in Hp. rewrite Hp.
      rewrite of_decimal_not_nan by now apply digits_value_nonneg.
      cbn [negb andb]. now apply (decimal_literal_rounds ip []).
    - rewrite parseFloat_point by trivial.
      rewrite of_decimal_not_nan
        by (apply digits_value_nonneg, all_app; auto).
      cbn [negb andb]. now apply decimal_literal_rounds. }
  split; [exact H | ].
  intros f Hf. exact (rounds_to_unique _ _ _ Hf H).
Qed.

Lemma parse_decimal_literal_witness :
  (rounds_to (decimal_value (js "3.14")) (parseNumber (js "3.14"))
   /\ forall f, rounds_to (decimal_value (js "3.14")) f -> f = parseNumber (js "3.14"))
  /\ parseNumber (js "3.14") = S754_finite false 7070651414971679 (-51).
Proof.
  split; [apply parse_decimal_literal; reflexivity | vm_compute; reflexivity].
Defined.

(** ** The required inputs *)

(** C1, at the code.  The required inputs 150, 兩萬三千, 十五 and 兩 parse
    to 150, 23000, 15 and 2.  The token 一百五 parses to 105 where 150 is
    required: the digit after 百 counts as units, an elided unit is not
    restored.  It is the first amount of the text the empty list suggests
    saying, 「一百五 200 300」. *)
Theorem parse_required_inputs :
  parses_to (js "150") 150 /\
  parses_to (js "一百五") 105 /\
  parses_to (js "兩萬三千") 23000 /\
  parses_to (js "十五") 15 /\
  parses_to (js "兩") 2.
Proof. repeat split; vm_compute; reflexivity. Qed.

(** C1 does not hold of the code: 一百五 does not parse to 150. *)
Lemma parse_yi_bai_wu_not_150 :
  ~ (parses_to (js "150") 150 /\
     parses_to (js "一百五") 150 /\
     parses_to (js "兩萬三千") 23000 /\
     parses_to (js "十五") 15 /\
     parses_to (js "兩") 2).
Proof. intros (_ & [H _] & _). vm_compute in H. discriminate. Qed.

(** ** Zero *)

(** C5, as the code has it.  A token that has a Chinese numeral character,
    or that [parseFloat] rejects, yields no value exactly when its scanned
    value is 0 or is itself NaN, and then the token loop adds no entry for
    it; any other token is returned as [parseFloat] reads it, zero
    included. *)
Theorem parse_failure_iff_zero (token : jsstring) :
  (isNaN (parseFloat token) || has_numeral_char token = true ->
     (isNaN (parseNumber token) = true
        <-> strict_eq (scan_value token) (lit 0) = true
            \/ isNaN (scan_value token) = true)
     /\ (strict_eq (scan_value token) (lit 0) = true
         \/ isNaN (scan_value token) = true ->
         forall env acc, add_token env acc token = acc))
  /\ (isNaN (parseFloat token) || has_numeral_char token = false ->
      parseNumber token = parseFloat token).
Proof.
  assert (Hp : isNaN (parseFloat token) || has_numeral_char token = true ->
               parseNumber token
               = if strict_eq (scan_value token) (lit 0) then NaN
                 else scan_value token).
  { intros H. unfold parseNumber; cbv zeta.
    destruct (isNaN (parseFloat token)); [reflexivity | ].
    cbn [orb] in H. now rewrite H. }
  split.
  - intros H.
    assert (Hiff : isNaN (parseNumber token) = true
                   <-> strict_eq (scan_value token) (lit 0) = true
                       \/ isNaN (scan_value token) = true).
    { rewrite (Hp H).
      destruct (strict_eq (scan_value token) (lit 0)) eqn:E; cbn; [tauto | ].
      split; [tauto | ]. now intros [ | ]. }
    split; [exact Hiff | ].
    intros Hz env [st n]. apply Hiff in Hz. unfold add_token.
    destruct (truthy token); [ | reflexivity].
    cbn [negb]. now rewrite Hz.
  - intros H. apply orb_false_iff in H as [H1 H2].
    unfold parseNumber; cbv zeta. now rewrite H1, H2.
Qed.

Lemma parse_failure_iff_zero_witness :
  (isNaN (parseNumber (js "零")) = true
     <-> strict_eq (scan_value (js "零")) (lit 0) = true
         \/ isNaN (scan_value (js "零")) = true)
  /\ parseNumber (js "0") = parseFloat (js "0").
Proof.
  split.
  - apply (parse_failure_iff_zero (js "零")). reflexivity.
  - apply (parse_failure_iff_zero (js "0")). reflexivity.
Defined.

(** C5 as stated fails twice.  The token 0 has the value 0 and is not a
    failure: committing it appends an entry of value 0.  The token of a
    lone point is a failure although its scanned value is not 0. *)
Lemma parse_zero_is_a_value :
  strict_eq (scan_value (js "0")) (lit 0) = true
  /\ parseNumber (js "0") = S754_zero false
  /\ List.map value
       (entries (state_of (processSpeechInput sample_env initial (js "0"))))
     = [S754_zero false]
  /\ isNaN (parseNumber (js ".")) = true
  /\ strict_eq (scan_value (js ".")) (lit 0) = false.
Proof. repeat split; vm_compute; reflexivity. Qed.

(** ** The entry list *)

Lemma entries_showTranscript (st : App) (m : message) :
  entries (showTranscript st m) = entries st.
Proof. reflexivity. Qed.

Lemma entries_deleteLastEntry (st : App) :
  entries (deleteLastEntry st) = removelast (entries st).
Proof.
  unfold deleteLastEntry.
  pose proof (rev_involutive (entries st)) as Hr.
  destruct (rev (entries st)) as [ | removed front].
  - rewrite entries_showTranscript, <- Hr. reflexivity.
  - rewrite entries_showTranscript, <- Hr; cbn.
    now rewrite removelast_last.
Qed.

(** C9.  Appending a value and then removing the last entry gives back the
    entry list, hence its length and its sum. *)
Theorem append_removeLast_roundtrip (env : Env) (st : App) (v : number) :
  let st' := deleteLastEntry (push_entry env st v) in
  entries st' = entries st
  /\ count st' = count st
  /\ calculateTotal st' = calculateTotal st.
Proof.
  cbv zeta.
  assert (H : entries (deleteLastEntry (push_entry env st v)) = entries st).
  { rewrite entries_deleteLastEntry. unfold push_entry; cbn.
    apply removelast_last. }
  unfold count, calculateTotal. now rewrite H.
Qed.

(** ** Substrings *)

Lemma starts_with_spec (p s : jsstring) :
  starts_with p s = true <-> exists t, s = p ++ t.
Proof.
  revert s; induction p as [ | a p IH]; intros s; cbn.
  - split; eauto.
  - destruct s as [ | b s]; [split; [discriminate | intros [t [=]]] | ].
    rewrite andb_true_iff, Z.eqb_eq, IH. split.
    + intros [-> [t ->]]; eauto.
    + intros [t [= -> ->]]; eauto.
Qed.

Lemma includes_spec (s p : jsstring) :
  includes s p = true <-> exists a b, s = a ++ p ++ b.
Proof.
  induction s as [ | c s IH]; cbn [includes];
    rewrite orb_true_iff, starts_with_spec.
  - split.
    + intros [[t ->] | [=]]. exists [], t; reflexivity.
    + intros (a & b & H). left. destruct a; [cbn in H; eauto | discriminate].
  - rewrite IH. split.
    + intros [[t ->] | (a & b & ->)]; [exists [], t | exists (c :: a), b]; reflexivity.
    + intros (a & b & H). destruct a as [ | a0 a]; cbn in H.
      * left; eauto.
      * injection H as -> ->. right; eauto.
Qed.

Lemma drop_while_keeps (f : Z -> bool) (a : jsstring) (c : Z) (t : jsstring) :
  f c = false -> exists a', drop_while f (a ++ c :: t) = a' ++ c :: t.
Proof.
  intros Hc; induction a as [ | x a IH]; cbn.
  - rewrite Hc. exists []; reflexivity.
  - destruct (f x); [exact IH | ]. exists (x :: a); reflexivity.
Qed.


Ltac rev_norm :=
  repeat (rewrite ?rev_app_distr, ?rev_involutive; cbn [rev app]);
  rewrite <- ?app_assoc; cbn [app].

Lemma trim_keeps (a b : jsstring) (c d : Z) (p : jsstring) :
  is_space c = false -> is_space d = false ->
  exists a' b', trim (a ++ (c :: p ++ [d]) ++ b) = a' ++ (c :: p ++ [d]) ++ b'.
Proof.
  intros Hc Hd. unfold trim. cbn [app].
  destruct (drop_while_keeps is_space a c ((p ++ [d]) ++ b) Hc) as [a' ->].
  replace (rev (a' ++ c :: (p ++ [d]) ++ b))
    with (rev b ++ d :: rev p ++ c :: rev a')
    by (rev_norm; reflexivity).
  destruct (drop_while_keeps is_space (rev b) d (rev p ++ c :: rev a') Hd) as [b' ->].
  exists a', (rev b'). rev_norm. reflexivity.
Qed.

Lemma remove_commas_keeps (a p b : jsstring) :
  all (fun c => negb (c =? 0x2C)) p ->
  remove_commas (a ++ p ++ b) = remove_commas a ++ p ++ remove_commas b.
Proof.
  intros H. unfold remove_commas. rewrite !filter_app. now rewrite (filter_all _ p).
Qed.

Lemma includes_clean (text : jsstring) (c d : Z) :
  is_space c = false -> is_space d = false -> c <> 0x2C -> d <> 0x2C ->
  includes text [c; d] = true ->
  includes (remove_commas (trim text)) [c; d] = true.
Proof.
  intros Hc Hd Hc' Hd'. rewrite !includes_spec. intros (a & b & ->).
  destruct (trim_keeps a b c d [] Hc Hd) as (a' & b' & E).
  cbn [app] in *. rewrite E. change (c :: d :: b') with ([c; d] ++ b').
  rewrite remove_commas_keeps.
  - exists (remove_commas a'), (remove_commas b'); reflexivity.
  - unfold all; cbn [forallb]. zbool. repeat split; trivial.
Qed.

(** ** Commands *)

(** C6.  Committing a text that contains 刪除 appends no entry: the pass
    ends in [deleteLastEntry], so the entry list is the old one without
    its last element and no entry has been created, whatever else the text
    contains. *)
Theorem delete_command_appends_nothing (env : Env) (st : App) (text : jsstring) :
  includes text (js "刪除") = true ->
  let st' := state_of (processSpeechInput env st text) in
  entries st' = removelast (entries st) /\ created st' = created st.
Proof.
  intros H. change (js "刪除") with [0x522A; 0x9664] in H.
  apply includes_clean in H; try reflexivity; try lia.
  cbv zeta. unfold processSpeechInput.
  set (cleanText := remove_commas (trim text)) in *.
  assert (Ht : truthy cleanText = true).
  { apply includes_spec in H as (a & b & ->). destruct a; reflexivity. }
  unfold is_delete_command.
  change (js "刪除") with [0x522A; 0x9664]. rewrite Ht, H. cbn [negb orb state_of].
  split.
  - rewrite entries_deleteLastEntry. reflexivity.
  - unfold deleteLastEntry.
    destruct (rev (entries (emit st (Called text)))); reflexivity.
Qed.

Lemma delete_command_appends_nothing_witness :
  let st := state_of (processSpeechInput sample_env initial (js "100 200")) in
  let st' := state_of (processSpeechInput sample_env st (js "刪除 5")) in
  entries st' = removelast (entries st) /\ created st' = created st.
Proof.
  apply (delete_command_appends_nothing sample_env
           (state_of (processSpeechInput sample_env initial (js "100 200")))
           (js "刪除 5")).
  reflexivity.
Defined.

(** ** The multiplier pattern *)





Lemma expand_no_match (c : Z) (r : jsstring) :
  match_phrase (c :: r) = None ->
  expand (c :: r) = option_map (cons c) (expand r).
Proof.
  intros H. unfold expand. cbn [List.length replace_loop]. rewrite H.
  destruct (replace_loop (List.length r) r); reflexivity.
Qed.

Lemma drop_while_incl (f : Z -> bool) (s : jsstring) (c : Z) :
  In c (drop_while f s) -> In c s.
Proof.
  induction s as [ | d r IH]; cbn; trivial.
  destruct (f d); cbn; tauto.
Qed.

Lemma match_phrase_unit (s : jsstring) (p : phrase) :
  match_phrase s = Some p -> existsb unit_class s = true.
Proof.
  unfold match_phrase.
  destruct (take_while qty_class s); [discriminate | ].
  destruct (drop_while is_space (drop_while qty_class s)) as [ | u r3] eqn:E;
    [discriminate | ].
  destruct (unit_class u) eqn:Eu; [ | discriminate]. intros _.
  apply existsb_exists. exists u; split; trivial.
  apply (drop_while_incl qty_class), (drop_while_incl is_space).
  rewrite E; left; reflexivity.
Qed.

Lemma expand_no_unit (s : jsstring) :
  existsb unit_class s = false -> expand s = Some s.
Proof.
  induction s as [ | c r IH]; [reflexivity | ]. intros H.
  rewrite expand_no_match.
  - cbn [existsb] in H. apply orb_false_iff in H as [_ H].
    now rewrite IH.
  - destruct (match_phrase (c :: r)) eqn:E; trivial.
    apply match_phrase_unit in E. congruence.
Qed.

(** ** Disjoint classes *)

Ltac eval_js :=
  repeat match goal with
         | |- context [js ?s] =>
           let v := eval vm_compute in (js s) in change (js s) with v
         | H : context [js ?s] |- _ =>
           let v := eval vm_compute in (js s) in change (js s) with v in H
         end.

Ltac class_facts :=
  unfold qty_class, amount_class, unit_class, token_class, is_space, is_digit,
    in_class in *;
  eval_js; cbn [existsb] in *; zbool; lia.









(** Conversely, what [match_phrase] reports is a match of the pattern, and
    its amount cannot be extended. *)
Lemma match_phrase_pattern (s : jsstring) (p : phrase) :
  match_phrase s = Some p ->
  pattern_at s (qtyStr p) (amountStr p) (after p) /\ not_amount_head (after p).
Proof.
  unfold match_phrase.
  pose proof (take_drop qty_class s) as H1.
  pose proof (all_take_while qty_class s) as A1.
  set (r1 := drop_while qty_class s) in *.
  destruct (take_while qty_class s) as [ | q0 q]; [discriminate | ].
  pose proof (take_drop is_space r1) as H2.
  pose proof (all_take_while is_space r1) as A2.
  set (w1 := take_while is_space r1) in *.
  destruct (drop_while is_space r1) as [ | u r3]; [discriminate | ].
  destruct (unit_class u) eqn:Eu; [ | discriminate].
  pose proof (take_drop is_space r3) as H3.
  pose proof (all_take_while is_space r3) as A3.
  set (w2 := take_while is_space r3) in *.
  set (r4 := drop_while is_space r3) in *.
  pose proof (take_drop amount_class r4) as H4.
  pose proof (all_take_while amount_class r4) as A4.
  assert (A5 : not_amount_head (drop_while amount_class r4)).
  { destruct (drop_while amount_class r4) eqn:E; [exact I | ].
    apply drop_while_head in E. exact E. }
  set (r5 := drop_while amount_class r4) in *.
  destruct (take_while amount_class r4) as [ | a0 a]; [discriminate | ].
  intros [= <-]; cbn [matched after qtyStr amountStr].
  clearbody r1 w1 w2 r4 r5. subst s r1 r3 r4.
  split; [ | exact A5].
  apply (Pattern_at (q0 :: q) w1 u w2 (a0 :: a) r5); trivial; discriminate.
Qed.


(** ** Comparisons *)






Lemma split_loop_token (s cur : jsstring) :
  all token_class s ->
  split_loop (fun c => negb (token_class c)) s cur false = [cur ++ s].
Proof.
  revert cur; induction s as [ | c r IH]; intros cur H; cbn [split_loop].
  - now rewrite app_nil_r.
  - apply all_cons in H as [Hc Hr]. rewrite Hc; cbn [negb].
    rewrite IH by trivial. now rewrite <- app_assoc.
Qed.








(** ** Texts of digits, points and list separators *)

Lemma all_In (f : Z -> bool) (s : jsstring) (c : Z) :
  all f s -> In c s -> f c = true.
Proof. unfold all; rewrite forallb_forall; auto. Qed.

Lemma includes_head (s : jsstring) (c : Z) (p : jsstring) :
  includes s (c :: p) = true -> In c s.
Proof.
  rewrite includes_spec. intros (a & b & ->).
  apply in_or_app; right; left; reflexivity.
Qed.

Lemma includes_absent (f : Z -> bool) (s : jsstring) (c : Z) (p : jsstring) :
  all f s -> f c = false -> includes s (c :: p) = false.
Proof.
  intros Hs Hc. destruct (includes s (c :: p)) eqn:E; trivial.
  apply includes_head in E. apply (all_In f s c Hs) in E. congruence.
Qed.

Lemma trim_no_space (s : jsstring) :
  all (fun c => negb (is_space c)) s -> trim s = s.
Proof.
  intros H. unfold trim.
  assert (G : forall t, all (fun c => negb (is_space c)) t -> drop_while is_space t = t).
  { intros [ | c t] Ht; [reflexivity | ]. apply all_cons in Ht as [Hc _].
    apply negb_true_iff in Hc. cbn. now rewrite Hc. }
  rewrite (G s H), G, rev_involutive; trivial.
  unfold all in *. rewrite forallb_forall in *. intros c Hc.
  apply H, in_rev, Hc.
Qed.

Lemma plain_not_space (c : Z) : plain_char c = true -> negb (is_space c) = true.
Proof. unfold plain_char. intros H. class_facts. Qed.

Lemma plain_not_comma (c : Z) : plain_char c = true -> negb (c =? 0x2C) = true.
Proof. unfold plain_char. intros H. class_facts. Qed.

Lemma plain_not_unit (c : Z) : plain_char c = true -> unit_class c = false.
Proof. unfold plain_char. intros H. class_facts. Qed.

Lemma plain_token (c : Z) : plain_char c = true -> token_class c = true.
Proof. unfold plain_char. intros H. class_facts. Qed.

Lemma plain_lower (c : Z) :
  plain_char c = true ->
  (if (0x41 <=? c) && (c <=? 0x5A) then c + 0x20 else c) = c.
Proof.
  unfold plain_char. intros H.
  destruct ((0x41 <=? c) && (c <=? 0x5A)) eqn:E; trivial. class_facts.
Qed.

Lemma plain_not_numeral (c : Z) :
  plain_char c = true -> in_class (js "零一二兩三四五六七八九十百千萬") c = false.
Proof. unfold plain_char. intros H. class_facts. Qed.

Lemma plain_no_command (s : jsstring) :
  all plain_char s ->
  is_delete_command s = false /\ is_summary_command s = false.
Proof.
  intros H.
  assert (Hl : toLowerCase s = s).
  { unfold toLowerCase. induction s as [ | c r IH]; [reflexivity | ].
    apply all_cons in H as [Hc Hr]. cbn [List.map].
    rewrite plain_lower, IH; trivial. }
  unfold is_delete_command, is_summary_command. rewrite Hl. eval_js.
  rewrite !(includes_absent plain_char s) by (trivial; reflexivity).
  split; reflexivity.
Qed.

Lemma existsb_none (f : Z -> bool) (g : Z -> bool) (s : jsstring) :
  (forall c, g c = true -> f c = false) -> all g s -> existsb f s = false.
Proof.
  intros Hgf; induction s as [ | c r IH]; [reflexivity | ].
  rewrite all_cons; intros [Hc Hr]. cbn. now rewrite (Hgf c Hc), IH.
Qed.

(** A text of such characters is neither trimmed nor rewritten, is no
    command, and is a single token. *)
Lemma process_plain_text (env : Env) (st : App) (text : jsstring) :
  text <> [] -> all plain_char text ->
  processSpeechInput env st text
  = Returned (let '(st1, addedCount) :=
                add_token env (emit st (Called text), O) text in
              if (0 <? addedCount)%nat then render st1 else st1).
Proof.
  intros Hne H. unfold processSpeechInput; cbv zeta.
  rewrite trim_no_space by (eapply all_impl; [apply plain_not_space | exact H]).
  unfold remove_commas.
  rewrite filter_all by (eapply all_impl; [apply plain_not_comma | exact H]).
  destruct (plain_no_command text H) as [-> ->].
  destruct text as [ | c r] eqn:E; [congruence | ]. cbn [truthy negb].
  rewrite <- E in *.
  rewrite expand_no_unit by (apply (existsb_none _ plain_char); auto using plain_not_unit).
  unfold split. rewrite split_loop_token
    by (eapply all_impl; [apply plain_token | exact H]).
  cbn [app fold_left].
  destruct (add_token env (emit st (Called text), O) text); reflexivity.
Qed.

Lemma parse_digits (d rest : jsstring) :
  all is_digit d -> d <> [] -> ends_number rest ->
  has_numeral_char (d ++ rest) = false ->
  parseNumber (d ++ rest) = of_decimal false (digits_value d) 0
  /\ isNaN (parseNumber (d ++ rest)) = false
  /\ rounds_to (decimal_value d) (parseNumber (d ++ rest)).
Proof.
  intros Hd Hne Hrest Hnum.
  assert (Hv : parseNumber (d ++ rest) = of_decimal false (digits_value d) 0).
  { unfold parseNumber; cbv zeta.
    rewrite (parseFloat_digits d rest Hd Hne Hrest), Hnum.
    now rewrite of_decimal_not_nan by now apply digits_value_nonneg. }
  rewrite Hv. split; [reflexivity | split].
  - apply of_decimal_not_nan. now apply digits_value_nonneg.
  - now apply (decimal_literal_rounds d []).
Qed.

(** C10.  Two runs of digits joined by the list separator are one token;
    the token parses to the value of the first run alone -- the number
    nearest to the decimal value of its digits --, and committing the text
    appends one entry, with that value. *)
Theorem separator_joins_and_drops (env : Env) (st : App) (d1 d2 : jsstring) :
  d1 <> [] -> d2 <> [] -> all is_digit d1 -> all is_digit d2 ->
  let text := d1 ++ js "、" ++ d2 in
  split text = [text]
  /\ rounds_to (decimal_value d1) (parseNumber text)
  /\ exists e, entries (state_of (processSpeechInput env st text)) = entries st ++ [e]
               /\ value e = parseNumber text.
Proof.
  intros H1 H2 Hd1 Hd2 text.
  assert (Hdp : forall c, is_digit c = true -> plain_char c = true)
    by (intros c Hc; unfold plain_char; now rewrite Hc).
  assert (Hp : all plain_char text).
  { apply all_app; split; [eapply all_impl; eauto | ].
    apply all_app; split; [reflexivity | eapply all_impl; eauto]. }
  assert (Hne : text <> []) by (subst text; destruct d1; [congruence | discriminate]).
  destruct (parse_digits d1 (js "、" ++ d2)) as (_ & Hn & Hv); trivial.
  { cbn. repeat split; lia || reflexivity. }
  { unfold has_numeral_char. fold text.
    apply (existsb_none _ plain_char); auto using plain_not_numeral. }
  fold text in Hn, Hv.
  split; [ | split; [exact Hv | ]].
  - unfold split. apply (split_loop_token text []).
    eapply all_impl; [apply plain_token | exact Hp].
  - rewrite process_plain_text by trivial. unfold add_token.
    destruct text as [ | c r] eqn:E; [congruence | ]. cbn [truthy negb].
    rewrite Hn. cbn [negb Nat.ltb Nat.leb state_of].
    eexists; split; reflexivity.
Qed.

Lemma separator_joins_and_drops_witness :
  split (js "3、4") = [js "3、4"]
  /\ rounds_to (decimal_value (js "3")) (parseNumber (js "3、4"))
  /\ exists e, entries (state_of (processSpeechInput sample_env initial (js "3、4")))
               = entries initial ++ [e]
               /\ value e = parseNumber (js "3、4").
Proof.
  apply (separator_joins_and_drops sample_env initial (js "3") (js "4"));
    discriminate || reflexivity.
Defined.

(** ** What each operation leaves alone *)

Create HintDb evolve.

Section Evolves.

Variable P : effect -> bool.
Variable T : task -> bool.

Lemma evolves_refl (st : App) : evolves P T st st.
Proof.
  split; [lia | split; [auto | ]]. exists []. now rewrite app_nil_r.
Qed.

Lemma evolves_trans (st1 st2 st3 : App) :
  evolves P T st1 st2 -> evolves P T st2 st3 -> evolves P T st1 st3.
Proof.
  intros (Hn1 & Ht1 & new1 & Hr1 & Hp1) (Hn2 & Ht2 & new2 & Hr2 & Hp2).
  split; [lia | split].
  - intros h t Hin. destruct (Ht2 h t Hin) as [Hin2 | (Ha & Hb & Hc)].
    + destruct (Ht1 h t Hin2) as [ | (Ha & Hb & Hc)]; [tauto | ].
      right; repeat split; trivial; lia.
    + right; repeat split; trivial; lia.
  - exists (new1 ++ new2). rewrite Hr2, Hr1, app_assoc, forallb_app, Hp1, Hp2.
    split; reflexivity.
Qed.

Lemma evolves_emit (st x : App) (e : effect) :
  evolves P T st x -> P e = true -> evolves P T st (emit x e).
Proof.
  intros H He. apply (evolves_trans st x); trivial.
  split; [cbn; lia | split; [cbn; auto | ]].
  exists [e]; cbn. now rewrite He.
Qed.

Lemma evolves_setTimeout (st x : App) (f : option timer_field) (t : task) :
  evolves P T st x -> T t = true -> evolves P T st (setTimeout x f t).
Proof.
  intros H Ht. apply (evolves_trans st x); trivial.
  split; [cbn; lia | split; [ | exists []; cbn; now rewrite app_nil_r]].
  cbn. intros h t' Hin. apply in_app_or in Hin as [Hin | [[= <- <-] | []]];
    [left; exact Hin | right; repeat split; trivial; lia].
Qed.

Lemma evolves_clearTimeout (st x : App) (h : option nat) :
  evolves P T st x -> evolves P T st (clearTimeout x h).
Proof.
  intros H. apply (evolves_trans st x); trivial.
  split; [cbn; lia | split; [ | exists []; cbn; now rewrite app_nil_r]].
  cbn. intros h' t Hin. left. destruct h; trivial.
  apply filter_In in Hin. tauto.
Qed.

Lemma evolves_fields (st x y : App) :
  evolves P T st x ->
  next_handle y = next_handle x -> timers y = timers x -> trace y = trace x ->
  evolves P T st y.
Proof.
  intros H Hn Ht Hr. apply (evolves_trans st x); trivial.
  unfold evolves. rewrite Hn, Ht, Hr.
  split; [lia | split; [auto | exists []; now rewrite app_nil_r]].
Qed.

Lemma evolves_set_entries (st x : App) (es : list Entry) :
  evolves P T st x -> evolves P T st (set_entries x es).
Proof. intros H; now apply (evolves_fields st x). Qed.

Lemma evolves_set_isListening (st x : App) (b : bool) :
  evolves P T st x -> evolves P T st (set_isListening x b).
Proof. intros H; now apply (evolves_fields st x). Qed.

Lemma evolves_set_created (st x : App) (n : nat) :
  evolves P T st x -> evolves P T st (set_created x n).
Proof. intros H; now apply (evolves_fields st x). Qed.

Lemma evolves_set_autoStopMinutes (st x : App) (n : number) :
  evolves P T st x -> evolves P T st (set_autoStopMinutes x n).
Proof. intros H; now apply (evolves_fields st x). Qed.

End Evolves.

Lemma evolves_mono (P P' : effect -> bool) (T T' : task -> bool) (st st' : App) :
  (forall e, P e = true -> P' e = true) ->
  (forall t, T t = true -> T' t = true) ->
  evolves P T st st' -> evolves P' T' st st'.
Proof.
  intros HP HT (Hn & Ht & new & Hr & Hp). split; [trivial | split].
  - intros h t Hin. destruct (Ht h t Hin) as [ | (Ha & Hb & Hc)]; auto.
  - exists new; split; trivial.
    rewrite forallb_forall in *; auto.
Qed.

#[export] Hint Resolve evolves_refl evolves_emit evolves_setTimeout
  evolves_clearTimeout evolves_set_entries evolves_set_isListening
  evolves_set_created evolves_set_autoStopMinutes : evolve.
#[export] Hint Extern 1 (_ = true) => reflexivity : evolve.

(** Unfold the operations built from the primitive ones. *)
Ltac to_primitives :=
  unfold deleteLastEntry, showSummary, render, showTranscript, updateUIState,
    hideTranscript, push_entry, resetInactivityTimer in *; cbv zeta in *.

Ltac split_cases :=
  repeat match goal with
         | |- context [if ?b then _ else _] => destruct b eqn:?
         | |- context [match ?x with [] => _ | _ :: _ => _ end] => destruct x eqn:?
         end.

(** ** The extraction pass leaves the session alone *)

Lemma set_nothing (st : App) :
  set_created (set_entries st (entries st ++ [])) (created st) = st.
Proof. destruct st; cbn. now rewrite app_nil_r. Qed.

(** The token loop only appends entries, each with a value that is a
    number. *)
Lemma fold_add_token (env : Env) (tokens : list jsstring) :
  forall (st : App) (n : nat),
  exists new k,
    fst (fold_left (add_token env) tokens (st, n))
    = set_created (set_entries st (entries st ++ new)) k
    /\ forallb has_value new = true.
Proof.
  induction tokens as [ | token rest IH]; intros st n; cbn [fold_left].
  - exists [], (created st). now rewrite set_nothing.
  - unfold add_token at 2.
    destruct (negb (truthy token)); [apply IH | ].
    destruct (negb (isNaN (parseNumber token))) eqn:E; [ | apply IH].
    destruct (IH (push_entry env st (parseNumber token)) (S n)) as (new & k & -> & Hnew).
    eexists (_ :: new), k. split.
    + unfold push_entry; cbn. rewrite <- app_assoc. reflexivity.
    + cbn [forallb]. rewrite Hnew. unfold has_value; cbn [value]. now rewrite E.
Qed.

Lemma removelast_has_value (es : list Entry) :
  forallb has_value es = true -> forallb has_value (removelast es) = true.
Proof.
  rewrite !forallb_forall. intros H e He. apply H.
  destruct es as [ | e0 es] using rev_ind; [destruct He | ].
  rewrite removelast_last in He. apply in_or_app; left; exact He.
Qed.

Lemma processSpeechInput_frame (env : Env) (st : App) (text : jsstring) :
  let st' := state_of (processSpeechInput env st text) in
  evolves page_effect hide_task (emit st (Called text)) st'
  /\ isListening st' = isListening st
  /\ forceFinalizeTimer st' = forceFinalizeTimer st
  /\ (forallb has_value (entries st) = true ->
      forallb has_value (entries st') = true).
Proof.
  cbv zeta. unfold processSpeechInput; cbv zeta.
  set (st0 := emit st (Called text)).
  destruct (negb (truthy (remove_commas (trim text)))).
  { cbn [state_of]. split; [auto with evolve | cbn; auto]. }
  destruct (is_delete_command (remove_commas (trim text))).
  { cbn [state_of]. split; [ | split; [ | split]].
    - unfold deleteLastEntry.
      destruct (rev (entries st0)); to_primitives; auto 10 with evolve.
    - unfold deleteLastEntry. destruct (rev (entries st0)); reflexivity.
    - unfold deleteLastEntry. destruct (rev (entries st0)); reflexivity.
    - rewrite entries_deleteLastEntry. apply removelast_has_value. }
  destruct (is_summary_command (remove_commas (trim text))).
  { cbn [state_of]. to_primitives. split; [auto with evolve | cbn; auto]. }
  destruct (expand (remove_commas (trim text))) as [cleanText' | ].
  2: { cbn [state_of]. split; [auto with evolve | cbn; auto]. }
  destruct (fold_add_token env (split cleanText') st0 O) as (new & k & Hf & Hnew).
  destruct (fold_left (add_token env) (split cleanText') (st0, O)) as [st1 addedCount].
  cbn [fst] in Hf. subst st1. cbn [state_of].
  assert (He : forallb has_value (entries st) = true ->
               forallb has_value (entries st ++ new) = true)
    by (intros H; now rewrite forallb_app, H, Hnew).
  destruct (0 <? addedCount)%nat; to_primitives;
    (split; [auto 10 with evolve | cbn; auto]).
Qed.

(** ** What every handler preserves *)

Ltac weaker := let x := fresh in intros x; destruct x; cbn; congruence.

Lemma page_page (e : effect) : page_effect e = true -> page_effect e = true.
Proof. trivial. Qed.

Lemma hide_hide (t : task) : hide_task t = true -> hide_task t = true.
Proof. trivial. Qed.

Lemma page_any (e : effect) : page_effect e = true -> any_effect e = true.
Proof. reflexivity. Qed.

Lemma hide_any (t : task) : hide_task t = true -> any_task t = true.
Proof. reflexivity. Qed.

Lemma page_no_auto_restart (e : effect) :
  page_effect e = true -> no_auto_restart e = true.
Proof. revert e; weaker. Qed.

Lemma hide_no_restart (t : task) : hide_task t = true -> no_restart_task t = true.
Proof. revert t; weaker. Qed.

Lemma page_not_a_call (e : effect) : page_effect e = true -> not_a_call e = true.
Proof. revert e; weaker. Qed.

#[export] Hint Resolve page_page hide_hide page_any hide_any
  page_no_auto_restart hide_no_restart page_not_a_call : evolve.

Section Derived.

Variable P : effect -> bool.
Variable T : task -> bool.
Hypothesis page_allowed : forall e, page_effect e = true -> P e = true.
Hypothesis hide_allowed : forall t, hide_task t = true -> T t = true.

Lemma evolves_through (st x c : App) :
  evolves P T st x -> evolves page_effect hide_task x c -> evolves P T st c.
Proof.
  intros H1 H2. apply (evolves_trans P T st x); trivial.
  now apply (evolves_mono page_effect P hide_task T).
Qed.

Lemma evolves_showTranscript (st x : App) (m : message) :
  evolves P T st x -> evolves P T st (showTranscript x m).
Proof.
  intros H. apply (evolves_through st x); trivial.
  unfold showTranscript; cbv zeta. auto with evolve.
Qed.

Lemma evolves_render (st x : App) :
  evolves P T st x -> evolves P T st (render x).
Proof. intros H. apply evolves_emit; auto. Qed.

Lemma evolves_showSummary (st x : App) :
  evolves P T st x -> evolves P T st (showSummary x).
Proof. intros H. apply evolves_emit; auto. Qed.

Lemma evolves_deleteLastEntry (st x : App) :
  evolves P T st x -> evolves P T st (deleteLastEntry x).
Proof.
  intros H. apply (evolves_through st x); trivial.
  unfold deleteLastEntry. destruct (rev (entries x)); to_primitives;
    auto 10 with evolve.
Qed.

Lemma evolves_processSpeechInput (env : Env) (st x : App) (text : jsstring) :
  evolves P T st x -> P (Called text) = true ->
  evolves P T st (state_of (processSpeechInput env x text)).
Proof.
  intros H Hc. apply (evolves_through st (emit x (Called text))).
  - now apply evolves_emit.
  - apply processSpeechInput_frame.
Qed.

End Derived.

Lemma evolves_hideTranscript (P : effect -> bool) (T : task -> bool) (st x : App) :
  evolves P T st x -> P HideTranscriptNow = true ->
  evolves P T st (hideTranscript x).
Proof. intros; now apply evolves_emit. Qed.

Lemma evolves_updateUIState (P : effect -> bool) (T : task -> bool)
    (st x : App) (b : bool) :
  evolves P T st x -> P (UpdateUIState b) = true -> P HideTranscriptNow = true ->
  evolves P T st (updateUIState x b).
Proof.
  intros. unfold updateUIState, hideTranscript.
  destruct b; auto with evolve.
Qed.

Lemma evolves_resetInactivityTimer (P : effect -> bool) (T : task -> bool)
    (st x : App) :
  evolves P T st x -> T AutoStop = true ->
  evolves P T st (resetInactivityTimer x).
Proof.
  intros. unfold resetInactivityTimer; cbv zeta.
  destruct (isListening _); auto with evolve.
Qed.

#[export] Hint Resolve evolves_showTranscript evolves_render evolves_showSummary
  evolves_deleteLastEntry evolves_processSpeechInput evolves_hideTranscript
  evolves_updateUIState evolves_resetInactivityTimer : evolve.

Lemma isListening_resetInactivityTimer (st : App) :
  isListening (resetInactivityTimer st) = isListening st.
Proof.
  unfold resetInactivityTimer; cbv zeta.
  destruct (isListening (clearTimeout st (inactivityTimer st))) eqn:E;
    [reflexivity | exact E || reflexivity].
Qed.

Lemma forceFinalizeTimer_resetInactivityTimer (st : App) :
  forceFinalizeTimer (resetInactivityTimer st) = forceFinalizeTimer st.
Proof.
  unfold resetInactivityTimer; cbv zeta.
  destruct (isListening (clearTimeout st (inactivityTimer st))) eqn:E;
    [reflexivity | exact E || reflexivity].
Qed.

Lemma entries_resetInactivityTimer (st : App) :
  entries (resetInactivityTimer st) = entries st.
Proof.
  unfold resetInactivityTimer; cbv zeta.
  destruct (isListening (clearTimeout st (inactivityTimer st))) eqn:E;
    [reflexivity | exact E || reflexivity].
Qed.

Lemma isListening_deleteLastEntry (st : App) :
  isListening (deleteLastEntry st) = isListening st.
Proof. unfold deleteLastEntry. now destruct (rev (entries st)). Qed.

Lemma forceFinalizeTimer_deleteLastEntry (st : App) :
  forceFinalizeTimer (deleteLastEntry st) = forceFinalizeTimer st.
Proof. unfold deleteLastEntry. now destruct (rev (entries st)). Qed.

(** Name the result of each call of [processSpeechInput] in the goal and
    recall what the call preserves. *)
Ltac use_frame :=
  repeat match goal with
         | |- context [processSpeechInput ?env ?st ?text] =>
           let H := fresh "Hframe" in
           let c := fresh "c" in
           pose proof (processSpeechInput_frame env st text) as H;
           cbv zeta in H;
           destruct (processSpeechInput env st text) as [c | c];
           cbn [state_of] in H;
           destruct H as (? & ? & ? & ?)
         end.

#[export] Hint Extern 2 (evolves _ _ _ ?c) =>
  match goal with
  | H : evolves page_effect hide_task ?x c |- _ =>
    apply (fun pa ha h1 => evolves_through _ _ pa ha _ x c h1 H)
  end : evolve.

Ltac open_handler :=
  unfold handle, onstart, onend, onresult, deliver, onerror, run_task, micClick;
  cbv zeta;
  repeat match goal with
         | |- context [transcripts ?i ?r] => destruct (transcripts i r)
         | |- context [find_task ?h ?ts] => destruct (find_task h ts) as [[] | ]
         end;
  use_frame; split_cases.

Lemma handle_evolves (env : Env) (st : App) (ev : event) :
  evolves any_effect any_task st (handle env st ev).
Proof.
  destruct ev; open_handler; auto 20 with evolve.
Qed.

Lemma run_evolves (env : Env) (evs : list event) :
  forall st, evolves any_effect any_task st (run env st evs).
Proof.
  unfold run. induction evs as [ | ev evs IH]; intros st; cbn [fold_left].
  - apply evolves_refl.
  - apply (evolves_trans _ _ st (handle env st ev)); [apply handle_evolves | apply IH].
Qed.

(** Simplify the fields of a state built by the operations. *)
Ltac fields :=
  repeat (rewrite ?entries_resetInactivityTimer, ?isListening_resetInactivityTimer,
            ?forceFinalizeTimer_resetInactivityTimer, ?entries_deleteLastEntry,
            ?isListening_deleteLastEntry, ?forceFinalizeTimer_deleteLastEntry in *;
          cbn [entries isListening forceFinalizeTimer showTranscript setTimeout
               clearTimeout emit updateUIState hideTranscript render showSummary
               set_entries set_isListening set_created set_autoStopMinutes] in *).

(** ** Entries have values *)

Lemma handle_has_value (env : Env) (st : App) (ev : event) :
  forallb has_value (entries st) = true ->
  forallb has_value (entries (handle env st ev)) = true.
Proof.
  intros H. destruct ev; open_handler; fields; auto using removelast_has_value.
  rewrite forallb_forall in *. intros e He. apply filter_In in He as [He _]. auto.
Qed.

(** C7, as the code has it.  Whatever events reach the object, every entry
    of its list has a value that is not NaN: the token loop appends a value
    only after the [isNaN] test. *)
Theorem entries_are_numbers (env : Env) (evs : list event) :
  Forall (fun e => isNaN (value e) = false) (entries (run env initial evs)).
Proof.
  assert (G : forall st, forallb has_value (entries st) = true ->
                         forallb has_value (entries (run env st evs)) = true).
  { unfold run. induction evs as [ | ev evs' IH]; intros st H; cbn [fold_left]; trivial.
    apply IH, handle_has_value, H. }
  specialize (G initial eq_refl). rewrite forallb_forall in G.
  apply Forall_forall. intros e He. apply G in He. unfold has_value in He.
  now apply negb_true_iff in He.
Qed.

(** C7 as stated fails: 一 followed by 78 times 萬 is one token, its value
    overflows, and it is committed as an entry whose value is infinite.  So
    does a token of 310 digits. *)
Lemma overflowing_token_is_infinite :
  List.map (fun e => (isNaN (value e), isFinite (value e)))
    (entries (run sample_env initial
                [OnResult 0 [{| transcript := js "一" ++ repeat 0x842C 78;
                                isFinal := true |}]]))
  = [(false, false)]
  /\ parseNumber (0x31 :: repeat 0x30 309) = Infinity.
Proof. split; vm_compute; reflexivity. Qed.

(** ** A permission error ends the session *)

Lemma handle_stays_idle (env : Env) (st : App) (ev : event) :
  isListening st = false -> ev <> MicClick ->
  isListening (handle env st ev) = false
  /\ evolves no_auto_restart no_restart_task st (handle env st ev).
Proof.
  intros H Hev. destruct ev; try congruence; clear Hev;
    unfold handle, onstart, onend, onresult, deliver, onerror, run_task; cbv zeta;
    repeat match goal with
           | |- context [transcripts ?i ?r] => destruct (transcripts i r)
           | |- context [find_task ?h ?ts] => destruct (find_task h ts) as [[] | ]
           end;
    fields; rewrite ?H; cbn match; use_frame; fields;
    repeat match goal with
           | E : isListening ?c = _ |- context [isListening ?c] => rewrite E
           end;
    rewrite ?H; cbn match; split_cases; fields;
    (split; [congruence || reflexivity | auto 20 with evolve]).
Qed.

Lemma run_stays_idle (env : Env) (evs : list event) :
  forall st, isListening st = false -> ~ In MicClick evs ->
  isListening (run env st evs) = false
  /\ evolves no_auto_restart no_restart_task st (run env st evs).
Proof.
  unfold run. induction evs as [ | ev evs IH]; intros st H Hevs; cbn [fold_left].
  - split; [exact H | apply evolves_refl].
  - destruct (handle_stays_idle env st ev H) as [H1 H2].
    { intros ->. apply Hevs; left; reflexivity. }
    destruct (IH (handle env st ev) H1) as [H3 H4].
    { intros Hin. apply Hevs; right; exact Hin. }
    split; [exact H3 | ].
    apply (evolves_trans _ _ st (handle env st ev)); trivial.
Qed.

(** C8.  A permission-denial error sets [isListening] to false, shows the
    idle state and raises an alert.  From then on, as long as the user does
    not press the microphone button, the object stays idle, the restart
    timer never calls [recognition.start()], and no restart timer is
    armed. *)
Theorem permission_error_is_terminal (env : Env) (st : App) (error : jsstring) :
  error = js "not-allowed" \/ error = js "service-not-allowed" ->
  let st' := handle env st (OnError error) in
  isListening st' = false
  /\ (exists text,
        trace st' = trace st ++ [UpdateUIState false; HideTranscriptNow; Alert text])
  /\ forall evs, ~ In MicClick evs ->
       let st'' := run env st' evs in
       isListening st'' = false
       /\ (exists new, trace st'' = trace st' ++ new
                       /\ ~ In (RecognitionStart InRestartTimer) new)
       /\ (forall h, In (h, Restart) (timers st'') -> In (h, Restart) (timers st')).
Proof.
  intros Herr. cbv zeta.
  assert (Hst : handle env st (OnError error)
                = emit (updateUIState (set_isListening st false) false)
                    (Alert (js "無法存取麥克風。請確認：" ++ [0x0A]
                            ++ js "1. 網址開頭是 https" ++ [0x0A]
                            ++ js "2. 已允許瀏覽器使用麥克風")))
    by (destruct Herr as [-> | ->]; reflexivity).
  rewrite Hst. split; [reflexivity | split].
  - eexists. cbn [trace emit updateUIState hideTranscript set_isListening].
    rewrite <- !app_assoc. reflexivity.
  - intros evs Hevs.
    match goal with
    | |- context [run env ?x evs] =>
      destruct (run_stays_idle env evs x eq_refl Hevs)
        as (Hidle & _ & Htimers & new & Htrace & Hnew)
    end.
    split; [exact Hidle | split].
    + exists new. split; [exact Htrace | ].
      intros Hin. rewrite forallb_forall in Hnew. apply Hnew in Hin. discriminate.
    + intros h Hin. destruct (Htimers h Restart Hin) as [ | (_ & _ & Hc)]; trivial.
      discriminate.
Qed.

Lemma permission_error_is_terminal_witness :
  let st := run sample_env initial [MicClick; Timeout 1 false; OnStart] in
  let st' := handle sample_env st (OnError (js "not-allowed")) in
  isListening st = true /\ isListening st' = false
  /\ isListening (run sample_env st' [OnEnd; Timeout 2 false]) = false.
Proof.
  cbv zeta. split; [reflexivity | ].
  pose proof (permission_error_is_terminal sample_env
                (run sample_env initial [MicClick; Timeout 1 false; OnStart])
                (js "not-allowed") (or_introl eq_refl)) as (H1 & _ & H2).
  split; [exact H1 | ].
  assert (Hno : ~ In MicClick [OnEnd; Timeout 2 false])
    by (intros [H | [H | []]]; discriminate).
  destruct (H2 [OnEnd; Timeout 2 false] Hno) as [H3 _]. exact H3.
Defined.

(** ** Forced commits *)

Lemma hide_no_force (t : task) : hide_task t = true -> no_force_task t = true.
Proof. revert t; weaker. Qed.

#[export] Hint Resolve hide_no_force : evolve.

Lemma find_task_none (h : nat) (ts : list (nat * task)) :
  find_task h ts = None <-> forall t, ~ In (h, t) ts.
Proof.
  induction ts as [ | [h' t'] ts IH]; cbn [find_task].
  - split; [intros _ t [] | reflexivity].
  - destruct (Nat.eqb_spec h' h) as [-> | Hne].
    + split; [discriminate | ]. intros H. destruct (H t'). left; reflexivity.
    + rewrite IH. split.
      * intros H t [[= -> ->] | Hin]; [congruence | exact (H t Hin)].
      * intros H t Hin. apply (H t). right; exact Hin.
Qed.

(** A handle that is below the next one and not pending is never pending
    again. *)
Lemma handle_gone (P : effect -> bool) (T : task -> bool) (h : nat) (st st' : App) :
  evolves P T st st' ->
  (h < next_handle st)%nat -> (forall t, ~ In (h, t) (timers st)) ->
  (h < next_handle st')%nat /\ forall t, ~ In (h, t) (timers st').
Proof.
  intros (Hn & Ht & _) Hlt Hout. split; [lia | ].
  intros t Hin. destruct (Ht h t Hin) as [Hold | (Hge & _)].
  - exact (Hout t Hold).
  - lia.
Qed.

(** Every handler but [onresult] leaves [this.forceFinalizeTimer] alone
    and arms no forced-commit timer. *)
Lemma handle_no_force (env : Env) (st : App) (ev : event) :
  (forall i r, ev <> OnResult i r) ->
  evolves any_effect no_force_task st (handle env st ev)
  /\ forceFinalizeTimer (handle env st ev) = forceFinalizeTimer st.
Proof.
  intros Hev. destruct ev; try (now destruct (Hev resultIndex results)); clear Hev;
    open_handler; fields; (split; [auto 20 with evolve | congruence]).
Qed.

Lemma deliver_evolves (env : Env) (st : App) (f i : jsstring) :
  evolves any_effect any_task st (deliver env st f i).
Proof. unfold deliver; cbv zeta. use_frame; split_cases; auto 20 with evolve. Qed.

(** After the two [if] statements, a pending forced-commit timer is the one
    just armed, if none was pending before them. *)
Lemma deliver_forced (env : Env) (st : App) (f i : jsstring) :
  (forall h x, ~ In (h, ForceFinalize x) (timers st)) ->
  forall h x, In (h, ForceFinalize x) (timers (deliver env st f i)) ->
  forceFinalizeTimer (deliver env st f i) = Some h.
Proof.
  intros Hnone.
  assert (G : forall st1, evolves any_effect no_force_task st st1 ->
                          forall h x, ~ In (h, ForceFinalize x) (timers st1)).
  { intros st1 (_ & Ht & _) h x Hin.
    destruct (Ht h _ Hin) as [Hold | (_ & _ & Hc)]; [exact (Hnone h x Hold) | discriminate]. }
  unfold deliver; cbv zeta. use_frame; split_cases; intros h x Hin;
    try solve [exfalso; revert Hin; apply G; auto 20 with evolve].
  all: cbn [timers setTimeout] in Hin;
    apply in_app_or in Hin as [Hin | [[= <- <-] | []]]; [ | reflexivity];
    exfalso; revert Hin; apply G; auto 20 with evolve.
Qed.

Lemma handle_wf (env : Env) (st : App) (ev : event) :
  timers_wf st -> timers_wf (handle env st ev).
Proof.
  intros [H1 H2]. split.
  - destruct (handle_evolves env st ev) as (Hn & Ht & _).
    intros h t Hin. destruct (Ht h t Hin) as [Hold | (_ & Hlt & _)]; trivial.
    apply H1 in Hold. lia.
  - assert (Hother : (forall i r, ev <> OnResult i r) ->
                     forall h x, In (h, ForceFinalize x) (timers (handle env st ev)) ->
                                 forceFinalizeTimer (handle env st ev) = Some h).
    { intros Hev. destruct (handle_no_force env st ev Hev) as ((_ & Ht & _) & ->).
      intros h x Hin. destruct (Ht h _ Hin) as [Hold | (_ & _ & Hc)]; [eauto | discriminate]. }
    destruct ev; try (apply Hother; discriminate). clear Hother.
    cbn [handle]. unfold onresult; cbv zeta.
    destruct (transcripts resultIndex results) as [f i].
    apply deliver_forced. intros h x Hin.
    rewrite forceFinalizeTimer_resetInactivityTimer in Hin.
    cbn [timers clearTimeout] in Hin.
    assert (Hold : In (h, ForceFinalize x) (timers st)).
    { destruct (evolves_resetInactivityTimer any_effect no_force_task st st
                  (evolves_refl _ _ st) eq_refl) as (_ & Ht & _).
      destruct (forceFinalizeTimer st); [apply filter_In in Hin as [Hin _] | ];
        (destruct (Ht h _ Hin) as [ | (_ & _ & Hc)]; [assumption | discriminate]). }
    rewrite (H2 h x Hold) in Hin. apply filter_In in Hin as [_ Hin].
    cbn in Hin. rewrite Nat.eqb_refl in Hin. discriminate.
Qed.

Lemma reachable_wf (env : Env) (st : App) : reachable env st -> timers_wf st.
Proof.
  intros [evs ->]. unfold run.
  assert (G : forall s, timers_wf s -> timers_wf (fold_left (handle env) evs s)).
  { induction evs as [ | ev evs IH]; intros s Hs; cbn [fold_left]; trivial.
    apply IH, handle_wf, Hs. }
  apply G. split; intros h t [].
Qed.

Lemma calls_evolves (T : task -> bool) (st st' : App) :
  evolves not_a_call T st st' -> calls (trace st') = calls (trace st).
Proof.
  intros (_ & _ & new & -> & Hnew). unfold calls. rewrite flat_map_app.
  rewrite <- (app_nil_r (flat_map _ (trace st))) at 2. f_equal.
  induction new as [ | e new IH]; [reflexivity | ].
  cbn [forallb] in Hnew. apply andb_true_iff in Hnew as [He Hnew].
  cbn [flat_map]. rewrite (IH Hnew). destruct e; try discriminate; reflexivity.
Qed.

Lemma calls_deliver (env : Env) (st : App) (f i : jsstring) :
  calls (trace (deliver env st f i))
  = calls (trace st) ++ (if truthy f then [f] else []).
Proof.
  unfold deliver; cbv zeta. destruct (truthy f).
  - transitivity (calls (trace (emit (showTranscript st (Plain f)) (Called f)))).
    + apply (calls_evolves any_task).
      use_frame; split_cases; auto 20 with evolve.
    + cbn [trace emit]. unfold calls at 1. rewrite flat_map_app. cbn [flat_map app].
      f_equal. apply (calls_evolves any_task). auto 20 with evolve.
  - rewrite app_nil_r. apply (calls_evolves any_task).
    split_cases; auto 20 with evolve.
Qed.

(** C2, as the code has it.  In a reachable state at most one forced-commit
    timer is pending,
    the one [this.forceFinalizeTimer] names.  When a result event arrives
    that timer is cancelled before anything is committed: its handle is
    never pending again, so its callback never runs, and the event itself
    passes the final transcript to [processSpeechInput] once, if there is
    one. *)
Theorem result_cancels_forced_commit (env : Env) (st : App)
    (resultIndex : nat) (results : list result) (h : nat) (interim : jsstring) :
  reachable env st ->
  In (h, ForceFinalize interim) (timers st) ->
  let st' := handle env st (OnResult resultIndex results) in
  let finalTranscript := fst (transcripts resultIndex results) in
  (forall h' text, In (h', ForceFinalize text) (timers st) -> h' = h)
  /\ (forall evs, find_task h (timers (run env st' evs)) = None)
  /\ (forall evs start_throws,
        handle env (run env st' evs) (Timeout h start_throws) = run env st' evs)
  /\ calls (trace st')
     = calls (trace st) ++ (if truthy finalTranscript then [finalTranscript] else []).
Proof.
  intros Hreach Hin. cbv zeta.
  destruct (reachable_wf env st Hreach) as [H1 H2].
  pose proof (H2 h interim Hin) as Hfield.
  assert (Hgone : forall evs,
             find_task h (timers (run env (handle env st (OnResult resultIndex results)) evs))
             = None).
  { intros evs. apply find_task_none.
    cbn [handle]. unfold onresult; cbv zeta.
    destruct (transcripts resultIndex results) as [f i].
    rewrite forceFinalizeTimer_resetInactivityTimer, Hfield.
    set (st2 := clearTimeout (resetInactivityTimer st) (Some h)).
    assert (Hst2 : evolves any_effect any_task st st2)
      by (subst st2; auto with evolve).
    assert (Hout : forall t, ~ In (h, t) (timers st2)).
    { intros t Ht. subst st2. cbn [timers clearTimeout] in Ht.
      apply filter_In in Ht as [_ Ht]. cbn in Ht. rewrite Nat.eqb_refl in Ht.
      discriminate. }
    assert (Hlt : (h < next_handle st2)%nat).
    { destruct Hst2 as (Hn & _). apply H1 in Hin. lia. }
    eapply (handle_gone any_effect any_task h st2); trivial.
    eapply evolves_trans; [apply deliver_evolves | apply run_evolves]. }
  split; [ | split; [exact Hgone | split]].
  - intros h' text Hin'. apply H2 in Hin'. congruence.
  - intros evs b. cbn [handle]. now rewrite Hgone.
  - cbn [handle]. unfold onresult; cbv zeta.
    destruct (transcripts resultIndex results) as [f i]. cbn [fst].
    rewrite calls_deliver. f_equal.
    apply (calls_evolves any_task). auto with evolve.
Qed.

Lemma result_cancels_forced_commit_witness :
  let st := run sample_env initial
              [OnResult 0 [{| transcript := js "100"; isFinal := false |}]] in
  let st' := handle sample_env st
               (OnResult 0 [{| transcript := js "100"; isFinal := true |}]) in
  find_task 2 (timers st) = Some (ForceFinalize (js "100"))
  /\ find_task 2 (timers st') = None
  /\ calls (trace st') = calls (trace st) ++ [js "100"].
Proof.
  cbv zeta. split; [reflexivity | ].
  assert (Hin : In (2%nat, ForceFinalize (js "100"))
                  (timers (run sample_env initial
                     [OnResult 0 [{| transcript := js "100"; isFinal := false |}]])))
    by (right; left; reflexivity).
  destruct (result_cancels_forced_commit sample_env _ 0
              [{| transcript := js "100"; isFinal := true |}] 2 (js "100")
              (ex_intro _ [OnResult 0 [{| transcript := js "100"; isFinal := false |}]]
                 eq_refl) Hin) as (_ & Hgone & _ & Hcalls).
  split; [exact (Hgone []) | exact Hcalls].
Defined.

(** C2 as stated fails when the forced commit runs first.  The user stops
    the session while an interim text is pending; the click leaves the
    forced-commit timer armed, its callback commits the text and, the
    session being stopped, does not abort the utterance; the final segment
    the backend then delivers for the same result commits it again. *)
Lemma forced_commit_then_final_commits_twice :
  let interim := {| transcript := js "100"; isFinal := false |} in
  let final := {| transcript := js "100"; isFinal := true |} in
  let before := run sample_env initial
                  [MicClick; Timeout 1 false; OnStart; OnResult 0 [interim]; MicClick] in
  let st := run sample_env before [Timeout 5 false; OnResult 0 [final]] in
  find_task 5 (timers before) = Some (ForceFinalize (js "100"))
  /\ calls (trace before) = []
  /\ calls (trace st) = [js "100"; js "100"]
  /\ List.map (fun e => to_Z (value e)) (entries st) = [Some 100; Some 100].
Proof. vm_compute. repeat split; reflexivity. Qed.

(** * Further properties *)

(** ** The tokenizer *)

Lemma split_loop_concat (s : jsstring) :
  forall (cur : jsstring) (in_sep : bool),
  (in_sep = true -> cur = []) ->
  concat (split_loop (fun c => negb (token_class c)) s cur in_sep)
  = cur ++ filter token_class s.
Proof.
  induction s as [ | c r IH]; intros cur b Hb; cbn [split_loop filter].
  - cbn. now rewrite !app_nil_r.
  - destruct (token_class c); cbn [negb].
    + rewrite IH by discriminate. now rewrite <- app_assoc.
    + destruct b.
      * rewrite Hb by reflexivity. now apply IH.
      * cbn [concat]. f_equal. now apply IH.
Qed.

Lemma split_loop_classes (s : jsstring) :
  forall (cur : jsstring) (in_sep : bool),
  all token_class cur ->
  Forall (all token_class) (split_loop (fun c => negb (token_class c)) s cur in_sep).
Proof.
  induction s as [ | c r IH]; intros cur b Hcur; cbn [split_loop].
  - constructor; [exact Hcur | constructor].
  - destruct (token_class c) eqn:E; cbn [negb].
    + apply IH. apply all_app; split; [exact Hcur | ]. apply all_cons; split; [exact E | reflexivity].
    + destruct b; [apply IH; reflexivity | ].
      constructor; [exact Hcur | apply IH; reflexivity].
Qed.

(** X1.  The tokenizer keeps every character of the numeral alphabet, in
    order, and nothing else: the tokens put end to end are the text without
    its separator characters, and every token is made of alphabet
    characters only. *)
Theorem split_keeps_numeral_characters (cleanText : jsstring) :
  concat (split cleanText) = filter token_class cleanText
  /\ Forall (all token_class) (split cleanText).
Proof.
  split.
  - unfold split. now rewrite split_loop_concat.
  - apply split_loop_classes. reflexivity.
Qed.

(** ** The token loop *)

Lemma token_values_cons (token : jsstring) (rest : list jsstring) :
  token_values (token :: rest)
  = if truthy token && negb (isNaN (parseNumber token))
    then parseNumber token :: token_values rest
    else token_values rest.
Proof.
  unfold token_values. cbn [filter].
  destruct (truthy token); cbn [List.map filter andb]; [ | reflexivity].
  destruct (negb (isNaN (parseNumber token))); reflexivity.
Qed.

Lemma fold_add_token_entries (env : Env) (tokens : list jsstring) :
  forall (st : App) (n : nat),
  fold_left (add_token env) tokens (st, n)
  = (set_created
       (set_entries st (entries st ++ new_entries env (created st) (token_values tokens)))
       (created st + List.length (token_values tokens)),
     (n + List.length (token_values tokens))%nat).
Proof.
  induction tokens as [ | token rest IH]; intros st n; cbn [fold_left].
  - cbn. rewrite !Nat.add_0_r. f_equal. destruct st; cbn. now rewrite app_nil_r.
  - rewrite token_values_cons. unfold add_token at 2.
    destruct (truthy token); cbn [negb andb]; [ | apply IH].
    destruct (negb (isNaN (parseNumber token))); [ | apply IH].
    rewrite IH. cbn [List.length new_entries].
    unfold push_entry; cbn. rewrite <- app_assoc. cbn [app].
    rewrite !Nat.add_succ_r. reflexivity.
Qed.

(** X2.  A text that is no command and whose multiplier pass does not
    throw appends exactly the tokens that parse, in spoken order: a token
    that does not parse is skipped and the tokens after it are still
    read.  The list is re-rendered only if something was appended. *)
Theorem extraction_appends_parsed_tokens (env : Env) (st : App)
    (text cleanText' : jsstring) :
  let cleanText := remove_commas (trim text) in
  cleanText <> [] ->
  is_delete_command cleanText = false ->
  is_summary_command cleanText = false ->
  expand cleanText = Some cleanText' ->
  let values := token_values (split cleanText') in
  let st' := state_of (processSpeechInput env st text) in
  entries st' = entries st ++ new_entries env (created st) values
  /\ List.map value (entries st') = List.map value (entries st) ++ values
  /\ created st' = (created st + List.length values)%nat
  /\ trace st' = trace st ++ Called text
                           :: match values with [] => [] | _ :: _ => [Render] end.
Proof.
  intros cleanText Hne Hdel Hsum Hexp values. cbv zeta.
  unfold processSpeechInput; cbv zeta. fold cleanText.
  destruct cleanText as [ | c0 r0] eqn:E; [congruence | ]. cbn [truthy negb].
  rewrite Hdel, Hsum, Hexp, fold_add_token_entries. fold values.
  assert (Hv : forall k, List.map value (new_entries env k values) = values).
  { induction values as [ | v vs IH]; intros k; cbn; [reflexivity | now rewrite IH]. }
  assert (Hr : forall x : App,
             trace (if (0 <? 0 + List.length values)%nat then render x else x)
             = trace x ++ match values with [] => [] | _ :: _ => [Render] end
             /\ entries (if (0 <? 0 + List.length values)%nat then render x else x)
                = entries x
             /\ created (if (0 <? 0 + List.length values)%nat then render x else x)
                = created x).
  { intros x. destruct values; cbn; [now rewrite app_nil_r | repeat split]. }
  cbn [state_of]. destruct (Hr (set_created
       (set_entries (emit st (Called text))
          (entries (emit st (Called text))
           ++ new_entries env (created (emit st (Called text))) values))
       (created (emit st (Called text)) + List.length values))) as (-> & -> & ->).
  cbn [entries created trace set_created set_entries emit].
  rewrite map_app, Hv, <- app_assoc. repeat split; reflexivity.
Qed.

Lemma extraction_appends_parsed_tokens_witness :
  let st' := state_of (processSpeechInput sample_env initial (js " 一百五 零 200,5 ")) in
  List.map value (entries st')
  = List.map value (entries initial)
    ++ token_values (split (js "一百五 零 2005")).
Proof.
  pose proof (extraction_appends_parsed_tokens sample_env initial
                (js " 一百五 零 200,5 ") (js "一百五 零 2005")
                ltac:(discriminate) eq_refl eq_refl eq_refl) as (_ & H & _).
  exact H.
Defined.

(** ** Texts without numerals, and the two commands *)

Lemma trim_incl (s : jsstring) (c : Z) : In c (trim s) -> In c s.
Proof.
  unfold trim. intros H. apply in_rev in H.
  apply drop_while_incl, in_rev in H.
  now apply drop_while_incl in H.
Qed.

Lemma clean_incl (text : jsstring) (c : Z) :
  In c (remove_commas (trim text)) -> In c text.
Proof.
  unfold remove_commas. intros H. apply filter_In in H as [H _].
  now apply trim_incl.
Qed.

Lemma clean_lacks (f : Z -> bool) (text : jsstring) :
  existsb f text = false -> existsb f (remove_commas (trim text)) = false.
Proof.
  intros H. destruct (existsb f (remove_commas (trim text))) eqn:E; trivial.
  apply existsb_exists in E as (c & Hc & Hf). apply clean_incl in Hc.
  assert (existsb f text = true) by (apply existsb_exists; eauto). congruence.
Qed.

Lemma pattern_at_quantity (s q a rest : jsstring) :
  pattern_at s q a rest -> existsb qty_class s = true.
Proof.
  intros [q' w1 u w2 a' rest' Hq Hqs _ _ _ _ _].
  destruct q' as [ | q0 q1]; [congruence | ].
  apply all_cons in Hqs as [H0 _]. cbn. now rewrite H0.
Qed.

Lemma match_phrase_quantity (s : jsstring) (p : phrase) :
  match_phrase s = Some p -> existsb qty_class s = true.
Proof.
  intros H. apply match_phrase_pattern in H as [H _].
  exact (pattern_at_quantity _ _ _ _ H).
Qed.

Lemma expand_no_quantity (s : jsstring) :
  existsb qty_class s = false -> expand s = Some s.
Proof.
  induction s as [ | c r IH]; [reflexivity | ]. intros H.
  rewrite expand_no_match.
  - cbn [existsb] in H. apply orb_false_iff in H as [_ H]. now rewrite IH.
  - destruct (match_phrase (c :: r)) eqn:E; trivial.
    apply match_phrase_quantity in E. congruence.
Qed.

Lemma qty_token (c : Z) : qty_class c = true -> token_class c = true.
Proof. intros H. class_facts. Qed.

Lemma lacks_weaker (f g : Z -> bool) (s : jsstring) :
  (forall c, g c = true -> f c = true) ->
  existsb f s = false -> existsb g s = false.
Proof.
  intros Hgf H. destruct (existsb g s) eqn:E; trivial.
  apply existsb_exists in E as (c & Hc & Hg).
  assert (existsb f s = true) by (apply existsb_exists; eauto). congruence.
Qed.

Lemma token_values_empty (tokens : list jsstring) :
  concat tokens = [] -> token_values tokens = [].
Proof.
  induction tokens as [ | t r IH]; [reflexivity | ].
  cbn [concat]. intros H. apply app_eq_nil in H as [-> H].
  rewrite token_values_cons. cbn. auto.
Qed.

(** X3.  A text with no character of the numeral alphabet creates no
    entry, whatever else it holds (white space, commas, words): unless it
    is the delete command, the entry list is left as it is. *)
Theorem no_numeral_no_entry (env : Env) (st : App) (text : jsstring) :
  existsb token_class text = false ->
  let st' := state_of (processSpeechInput env st text) in
  created st' = created st
  /\ entries st'
     = if is_delete_command (remove_commas (trim text))
       then removelast (entries st) else entries st.
Proof.
  intros H. apply clean_lacks in H. cbv zeta.
  unfold processSpeechInput; cbv zeta.
  set (cleanText := remove_commas (trim text)) in *.
  destruct (truthy cleanText) eqn:Et; cbn [negb].
  2: { destruct cleanText; [ | discriminate]. split; reflexivity. }
  destruct (is_delete_command cleanText).
  { cbn [state_of]. rewrite entries_deleteLastEntry. split; [ | reflexivity].
    unfold deleteLastEntry. now destruct (rev (entries (emit st (Called text)))). }
  destruct (is_summary_command cleanText); [split; reflexivity | ].
  clearbody cleanText.
  assert (Hq : existsb qty_class cleanText = false)
    by (revert H; apply lacks_weaker; exact qty_token).
  assert (Hf : filter token_class cleanText = []).
  { clear - H. induction cleanText as [ | c r IH]; [reflexivity | ].
    cbn [existsb filter] in *. apply orb_false_iff in H as [-> H]. auto. }
  rewrite (expand_no_quantity cleanText Hq), fold_add_token_entries.
  rewrite token_values_empty
    by (unfold split; rewrite split_loop_concat by discriminate; exact Hf).
  cbn [List.length new_entries state_of Nat.ltb Nat.leb Nat.add].
  rewrite Nat.add_0_r. cbn. rewrite app_nil_r. split; reflexivity.
Qed.

Lemma no_numeral_no_entry_witness :
  let st := state_of (processSpeechInput sample_env initial (js "7")) in
  let st' := state_of (processSpeechInput sample_env st (js " , 謝謝，個 ")) in
  created st' = created st
  /\ entries st'
     = if is_delete_command (remove_commas (trim (js " , 謝謝，個 ")))
       then removelast (entries st) else entries st.
Proof.
  exact (no_numeral_no_entry sample_env
           (state_of (processSpeechInput sample_env initial (js "7")))
           (js " , 謝謝，個 ") eq_refl).
Defined.

(** X4.  A text that holds one of the four summary words and is not a
    delete command shows the summary with the number of entries and their
    total, and changes neither the entries nor the timers. *)
Theorem summary_command_shows_totals (env : Env) (st : App) (text word : jsstring) :
  In word [js "總共"; js "多少"; js "結算"; js "買單"] ->
  includes text word = true ->
  is_delete_command (remove_commas (trim text)) = false ->
  let st' := state_of (processSpeechInput env st text) in
  entries st' = entries st
  /\ timers st' = timers st
  /\ trace st' = trace st ++ [Called text; ShowSummary (count st) (calculateTotal st)].
Proof.
  intros Hword Hin Hdel. cbv zeta.
  assert (Hclean : includes (remove_commas (trim text)) word = true).
  { destruct Hword as [<- | [<- | [<- | [<- | []]]]];
      eval_js; apply includes_clean; trivial; try reflexivity; lia. }
  unfold processSpeechInput; cbv zeta.
  set (cleanText := remove_commas (trim text)) in *.
  assert (Ht : truthy cleanText = true).
  { apply includes_spec in Hclean as (a & b & E).
    destruct Hword as [<- | [<- | [<- | [<- | []]]]];
      destruct cleanText; trivial; destruct a; discriminate. }
  assert (Hsum : is_summary_command cleanText = true).
  { unfold is_summary_command.
    destruct Hword as [<- | [<- | [<- | [<- | []]]]]; rewrite Hclean;
      rewrite ?orb_true_r; reflexivity. }
  rewrite Ht, Hdel, Hsum. cbn. rewrite <- app_assoc. repeat split; reflexivity.
Qed.

Lemma summary_command_shows_totals_witness :
  let st := state_of (processSpeechInput sample_env initial (js "100 200")) in
  let st' := state_of (processSpeechInput sample_env st (js "總共 300, 多少錢")) in
  entries st' = entries st
  /\ timers st' = timers st
  /\ trace st' = trace st ++ [Called (js "總共 300, 多少錢");
                              ShowSummary (count st) (calculateTotal st)].
Proof.
  exact (summary_command_shows_totals sample_env
           (state_of (processSpeechInput sample_env initial (js "100 200")))
           (js "總共 300, 多少錢") (js "多少")
           (or_intror (or_introl eq_refl)) eq_refl eq_refl).
Defined.

(** *** The Latin alias of the delete command *)

Lemma lower_space (c : Z) : is_space (lower c) = is_space c.
Proof.
  unfold lower. destruct ((0x41 <=? c) && (c <=? 0x5A)) eqn:E; trivial.
  assert (H : 0x41 <= c <= 0x5A) by (zbool; lia). clear E.
  assert (H1 : is_space c = false)
    by (unfold is_space, in_class; cbn [existsb]; zbool; repeat split; lia).
  rewrite H1. unfold is_space, in_class; cbn [existsb]; zbool; repeat split; lia.
Qed.

Lemma lower_comma (c : Z) : (lower c =? 0x2C) = (c =? 0x2C).
Proof.
  unfold lower. destruct ((0x41 <=? c) && (c <=? 0x5A)) eqn:E; trivial.
  assert (H : 0x41 <= c <= 0x5A) by (zbool; lia). clear E.
  destruct (c =? 0x2C) eqn:E1; zbool; lia.
Qed.

Lemma toLowerCase_drop_while (s : jsstring) :
  drop_while is_space (List.map lower s) = List.map lower (drop_while is_space s).
Proof.
  induction s as [ | c r IH]; [reflexivity | ].
  cbn [List.map drop_while]. rewrite lower_space.
  destruct (is_space c); [exact IH | reflexivity].
Qed.

Lemma toLowerCase_clean (s : jsstring) :
  toLowerCase (remove_commas (trim s)) = remove_commas (trim (toLowerCase s)).
Proof.
  change toLowerCase with (List.map lower).
  unfold remove_commas, trim.
  rewrite toLowerCase_drop_while, <- map_rev, toLowerCase_drop_while, <- map_rev.
  set (t := rev (drop_while is_space (rev (drop_while is_space s)))).
  induction t as [ | c r IH]; [reflexivity | ].
  cbn [filter List.map]. rewrite lower_comma.
  destruct (negb (c =? 0x2C)); cbn [List.map]; now rewrite IH.
Qed.

Lemma includes_clean_word (text : jsstring) (c d : Z) (p : jsstring) :
  is_space c = false -> is_space d = false ->
  all (fun x => negb (x =? 0x2C)) (c :: p ++ [d]) ->
  includes text (c :: p ++ [d]) = true ->
  includes (remove_commas (trim text)) (c :: p ++ [d]) = true.
Proof.
  intros Hc Hd Hp. rewrite !includes_spec. intros (a & b & ->).
  destruct (trim_keeps a b c d p Hc Hd) as (a' & b' & E). rewrite E.
  rewrite remove_commas_keeps by exact Hp.
  exists (remove_commas a'), (remove_commas b'); reflexivity.
Qed.

(** X5.  The word delete, in any mix of upper and lower case, is the
    delete command: the text removes the last entry and creates none,
    whatever numbers it also holds. *)
Theorem delete_alias_any_case (env : Env) (st : App) (text : jsstring) :
  includes (toLowerCase text) (js "delete") = true ->
  let st' := state_of (processSpeechInput env st text) in
  entries st' = removelast (entries st) /\ created st' = created st.
Proof.
  intros H. cbv zeta.
  change (js "delete") with (0x64 :: js "elet" ++ [0x65]) in H.
  apply includes_clean_word in H; try reflexivity.
  rewrite <- toLowerCase_clean in H.
  change (0x64 :: js "elet" ++ [0x65]) with (js "delete") in H.
  unfold processSpeechInput; cbv zeta.
  set (cleanText := remove_commas (trim text)) in *.
  assert (Ht : truthy cleanText = true).
  { apply includes_spec in H as (a & b & E).
    destruct cleanText; [destruct a; discriminate | reflexivity]. }
  unfold is_delete_command. rewrite Ht, H, orb_true_r. cbn [negb state_of].
  split; [rewrite entries_deleteLastEntry; reflexivity | ].
  unfold deleteLastEntry. now destruct (rev (entries (emit st (Called text)))).
Qed.

Lemma delete_alias_any_case_witness :
  let st := state_of (processSpeechInput sample_env initial (js "100 200")) in
  let st' := state_of (processSpeechInput sample_env st (js "Please DeLeTe 5")) in
  entries st' = removelast (entries st) /\ created st' = created st.
Proof.
  exact (delete_alias_any_case sample_env
           (state_of (processSpeechInput sample_env initial (js "100 200")))
           (js "Please DeLeTe 5") eq_refl).
Defined.

(** *** Thousands separators *)

Lemma digits_of_grouped (text : jsstring) :
  all (fun c => is_digit c || (c =? 0x2C)) text ->
  all is_digit (remove_commas text).
Proof.
  unfold remove_commas. induction text as [ | c r IH]; [reflexivity | ].
  rewrite all_cons. intros [Hc Hr]. cbn beta in Hc. cbn [filter].
  destruct (c =? 0x2C) eqn:E; cbn [negb]; [auto | ].
  apply all_cons. rewrite orb_false_r in Hc. auto.
Qed.

Lemma digits_kept_of_grouped (text : jsstring) :
  all (fun c => is_digit c || (c =? 0x2C)) text ->
  remove_commas text = filter is_digit text.
Proof.
  unfold remove_commas. induction text as [ | c r IH]; [reflexivity | ].
  rewrite all_cons. intros [Hc Hr]. cbn beta in Hc. cbn [filter].
  destruct (c =? 0x2C) eqn:E; cbn [negb].
  - apply Z.eqb_eq in E; subst c. cbn. auto.
  - rewrite orb_false_r in Hc. rewrite Hc. f_equal. auto.
Qed.

(** X6.  Commas are dropped before anything is read, so a number written
    with thousands separators is one amount: a text of digits and commas
    appends one entry, whose value is the number nearest to the decimal
    value of the digits. *)
Theorem grouped_digits_are_one_amount (env : Env) (st : App) (text : jsstring) :
  all (fun c => is_digit c || (c =? 0x2C)) text ->
  existsb is_digit text = true ->
  exists v,
    entries (state_of (processSpeechInput env st text))
    = entries st ++ new_entries env (created st) [v]
    /\ rounds_to (decimal_value (filter is_digit text)) v.
Proof.
  intros Hall Hex. rewrite <- (digits_kept_of_grouped text Hall).
  assert (Htrim : trim text = text).
  { apply trim_no_space. eapply all_impl; [ | exact Hall].
    intros c Hc. apply orb_true_iff in Hc as [Hc | Hc].
    - now rewrite digit_not_space.
    - apply Z.eqb_eq in Hc; subst; reflexivity. }
  pose proof (digits_of_grouped text Hall) as Hd.
  assert (Hne : remove_commas text <> []).
  { apply existsb_exists in Hex as (c & Hc & Hdig). intros E.
    assert (Hin : In c (remove_commas text)).
    { apply filter_In; split; trivial. apply digit_range in Hdig.
      apply negb_true_iff. zbool. lia. }
    rewrite E in Hin. destruct Hin. }
  unfold processSpeechInput; cbv zeta. rewrite Htrim.
  set (d := remove_commas text) in *. clearbody d.
  assert (Hplain : all plain_char d).
  { eapply all_impl; [ | exact Hd]. intros c Hc. unfold plain_char. now rewrite Hc. }
  destruct (plain_no_command d Hplain) as [-> ->].
  destruct d as [ | c r] eqn:E; [congruence | ]. cbn [truthy negb]. rewrite <- E in *.
  rewrite expand_no_unit
    by (apply (existsb_none _ plain_char); auto using plain_not_unit).
  unfold split. rewrite split_loop_token
    by (eapply all_impl; [apply plain_token | exact Hplain]).
  rewrite fold_add_token_entries, token_values_cons. cbn [app].
  destruct (parse_digits d []) as (_ & Hn & Hv); trivial.
  { exact I. }
  { rewrite app_nil_r. unfold has_numeral_char.
    apply (existsb_none _ plain_char); auto using plain_not_numeral. }
  rewrite app_nil_r in Hn, Hv.
  assert (Ht : truthy d = true) by (rewrite E; reflexivity).
  rewrite Hn, Ht. cbn [negb andb].
  change (token_values []) with (@nil number).
  cbn [List.length Nat.add Nat.ltb Nat.leb state_of].
  exists (parseNumber d). split; [reflexivity | exact Hv].
Qed.

Lemma grouped_digits_are_one_amount_witness :
  exists v,
    entries (state_of (processSpeechInput sample_env initial (js "1,250,000")))
    = entries initial ++ new_entries sample_env (created initial) [v]
    /\ rounds_to (decimal_value (filter is_digit (js "1,250,000"))) v.
Proof.
  exact (grouped_digits_are_one_amount sample_env initial (js "1,250,000")
           eq_refl eq_refl).
Defined.

(** ** The scanning loop of the parser *)

Lemma scan_value_fold (str : jsstring) :
  scan_value str
  = let st := fold_left scan_char str scan_start in
    num_add (val st)
      (if truthy (currentDigitStr st) then parseFloat (currentDigitStr st)
       else bucket st).
Proof. reflexivity. Qed.

Lemma scan_char_clears (st : scan) (c : Z) :
  is_digit c || (c =? 0x2E) = false -> currentDigitStr (scan_char st c) = [].
Proof.
  intros H. unfold scan_char; cbv zeta. rewrite H.
  repeat match goal with
         | |- context [match ?x with _ => _ end] => destruct x
         end; reflexivity.
Qed.

Lemma no_pending_after (s : jsstring) :
  no_pending_digits s -> currentDigitStr (fold_left scan_char s scan_start) = [].
Proof.
  unfold no_pending_digits. destruct s as [ | c r] using rev_ind; [reflexivity | ].
  rewrite rev_app_distr, fold_left_app. cbn [rev app fold_left].
  apply scan_char_clears.
Qed.

Lemma scan_char_unknown (st : scan) (c : Z) :
  currentDigitStr st = [] ->
  is_digit c || (c =? 0x2E) = false -> lookup map [c] = None ->
  scan_char st c = st.
Proof.
  intros Hcur Hd Hm. unfold scan_char; cbv zeta. rewrite Hd, Hm, Hcur.
  destruct st; cbn in *. now subst.
Qed.

Lemma unknown_not_numeral (c : Z) :
  lookup map [c] = None -> in_class (js "零一二兩三四五六七八九十百千萬") c = false.
Proof.
  intros H. rewrite numeral_chars.
  destruct (in_class _ c) eqn:E; trivial. exfalso.
  apply existsb_exists in E as (x & Hx & Hc).
  apply Z.eqb_eq in Hc; subst x. cbn [In] in Hx.
  repeat (destruct Hx as [<- | Hx]; [vm_compute in H; discriminate | ]).
  destruct Hx.
Qed.

(** X9.  In a token that has a Chinese numeral, a character the parser
    does not know (the list separator, a letter, a sign) is skipped where
    no run of digits is pending: the token reads as if the character were
    not there.  So 三、四 reads as 三四, which is 4. *)
Theorem unknown_character_is_skipped (s1 : jsstring) (c : Z) (s2 : jsstring) :
  no_pending_digits s1 ->
  is_digit c || (c =? 0x2E) = false -> lookup map [c] = None ->
  has_numeral_char (s1 ++ s2) = true ->
  parseNumber (s1 ++ c :: s2) = parseNumber (s1 ++ s2).
Proof.
  intros Hs1 Hd Hm Hn.
  assert (Hn' : has_numeral_char (s1 ++ c :: s2) = true).
  { unfold has_numeral_char in *. rewrite existsb_app in *. cbn [existsb].
    rewrite (unknown_not_numeral c Hm). exact Hn. }
  assert (Hv : scan_value (s1 ++ c :: s2) = scan_value (s1 ++ s2)).
  { rewrite !scan_value_fold. cbv zeta. rewrite !fold_left_app. cbn [fold_left].
    rewrite scan_char_unknown; trivial. now apply no_pending_after. }
  unfold parseNumber; cbv zeta. rewrite Hn, Hn', Hv, !andb_false_r. reflexivity.
Qed.

Lemma unknown_character_is_skipped_witness :
  parseNumber (js "三、四") = parseNumber (js "三四").
Proof.
  apply (unknown_character_is_skipped (js "三") 0x3001 (js "四"));
    vm_compute; reflexivity.
Defined.

Lemma scan_char_multiplier (st : scan) (c : Z) (num : number) :
  is_digit c || (c =? 0x2E) = false ->
  lookup map [c] = Some num ->
  num_ge num (lit 10)
  && negb (includes_number (List.map lit [0; 1; 2; 3; 4; 5; 6; 7; 8; 9]) num) = true ->
  bucket (scan_char st c) = lit 0 /\ currentDigitStr (scan_char st c) = [].
Proof.
  intros Hd Hm Hge. unfold scan_char; cbv zeta. rewrite Hd, Hm, Hge.
  destruct (strict_eq num (lit 10000)); split; reflexivity.
Qed.

Lemma scan_char_zero (st : scan) :
  bucket st = lit 0 -> currentDigitStr st = [] -> scan_char st 0x96F6 = st.
Proof.
  intros Hb Hc. unfold scan_char; cbv zeta.
  change (is_digit 0x96F6 || (0x96F6 =? 0x2E)) with false. cbn match.
  rewrite Hc. cbn [truthy].
  replace (lookup map [0x96F6]) with (Some (lit 0)) by (vm_compute; reflexivity).
  replace (num_ge (lit 0) (lit 10)) with false by (vm_compute; reflexivity).
  cbn [andb].
  destruct st; cbn in *. now subst.
Qed.

(** X10.  零 written after a unit word (十, 百, 千 or 萬) is a filler: the
    token reads as if it were not there, so 一千零五 reads as 一千五 does,
    1005. *)
Theorem zero_after_unit_is_filler (s1 : jsstring) (unit : Z) (s2 : jsstring) :
  In unit (js "十百千萬") ->
  parseNumber (s1 ++ unit :: js "零" ++ s2) = parseNumber (s1 ++ unit :: s2).
Proof.
  intros Hu.
  assert (Hnum : forall t, has_numeral_char (s1 ++ unit :: t) = true).
  { intros t. unfold has_numeral_char. rewrite existsb_app. cbn [existsb].
    replace (in_class (js "零一二兩三四五六七八九十百千萬") unit) with true;
      [now rewrite orb_true_r | ].
    vm_compute in Hu.
    repeat (destruct Hu as [<- | Hu]; [vm_compute; reflexivity | ]). destruct Hu. }
  assert (Hst : forall st, bucket (scan_char st unit) = lit 0
                           /\ currentDigitStr (scan_char st unit) = []).
  { intros st. vm_compute in Hu.
    repeat (destruct Hu as [<- | Hu];
            [eapply scan_char_multiplier; vm_compute; reflexivity | ]).
    destruct Hu. }
  assert (Hv : scan_value (s1 ++ unit :: js "零" ++ s2) = scan_value (s1 ++ unit :: s2)).
  { rewrite !scan_value_fold. cbv zeta. rewrite !fold_left_app.
    replace (js "零") with [0x96F6] by (vm_compute; reflexivity).
    cbn [app fold_left].
    destruct (Hst (fold_left scan_char s1 scan_start)) as [Hb Hc].
    now rewrite scan_char_zero. }
  unfold parseNumber; cbv zeta. rewrite !Hnum, Hv, !andb_false_r. reflexivity.
Qed.

Lemma zero_after_unit_is_filler_witness :
  parseNumber (js "一千零五") = parseNumber (js "一千五").
Proof.
  apply (zero_after_unit_is_filler (js "一") 0x5343 (js "五")).
  vm_compute. tauto.
Defined.

(** ** Numbers written place by place *)

Lemma number_eqb_eq (x y : number) : number_eqb x y = true -> x = y.
Proof.
  destruct x, y; cbn; try discriminate; trivial.
  - intros H. apply Bool.eqb_prop in H. now subst.
  - intros H. apply Bool.eqb_prop in H. now subst.
  - rewrite !andb_true_iff. intros [[H1 H2] H3].
    apply Bool.eqb_prop in H1. apply Pos.eqb_eq in H2. apply Z.eqb_eq in H3.
    now subst.
Qed.

(** X11.  A number written place by place, 千 百 十 and units, every place
    optional and filled with any digit word (兩 for two, a bare 十 for
    ten), is read as the sum of its places; a form worth zero is reported
    as not a number. *)
Theorem positional_numeral_value
    (th h : option (jsstring * Z)) (t : option (option (jsstring * Z)))
    (u : option (jsstring * Z)) :
  In th (options basic_numerals) -> In h (options basic_numerals) ->
  In t (options (options basic_numerals)) -> In u (options basic_numerals) ->
  parseNumber (fst (written th h t u)) = reading (snd (written th h t u)).
Proof.
  intros Hth Hh Ht Hu. apply number_eqb_eq.
  assert (Hall :
    forallb (fun th => forallb (fun h => forallb (fun t => forallb (fun u =>
      reads (written th h t u))
      (options basic_numerals)) (options (options basic_numerals)))
      (options basic_numerals)) (options basic_numerals) = true)
    by (vm_cast_no_check (eq_refl true)).
  rewrite forallb_forall in Hall. specialize (Hall th Hth).
  rewrite forallb_forall in Hall. specialize (Hall h Hh).
  rewrite forallb_forall in Hall. specialize (Hall t Ht).
  rewrite forallb_forall in Hall. exact (Hall u Hu).
Qed.

Lemma positional_numeral_value_witness :
  parseNumber (js "三千兩百五十六") = lit 3256.
Proof.
  apply (positional_numeral_value (Some (js "三", 3)) (Some (js "兩", 2))
           (Some (Some (js "五", 5))) (Some (js "六", 6)));
    vm_compute; tauto.
Defined.

(** X12.  A count of ten thousands written with tens and units before 萬,
    followed by thousands and hundreds, is read as the count times 10000
    plus the places that follow. *)
Theorem wan_numeral_value
    (t : option (option (jsstring * Z))) (u th h : option (jsstring * Z)) :
  In t (options (options basic_numerals)) -> In u (options basic_numerals) ->
  In th (options basic_numerals) -> In h (options basic_numerals) ->
  parseNumber (fst (written_wan t u th h)) = reading (snd (written_wan t u th h)).
Proof.
  intros Ht Hu Hth Hh. apply number_eqb_eq.
  assert (Hall :
    forallb (fun t => forallb (fun u => forallb (fun th => forallb (fun h =>
      reads (written_wan t u th h))
      (options basic_numerals)) (options basic_numerals))
      (options basic_numerals)) (options (options basic_numerals)) = true)
    by (vm_cast_no_check (eq_refl true)).
  rewrite forallb_forall in Hall. specialize (Hall t Ht).
  rewrite forallb_forall in Hall. specialize (Hall u Hu).
  rewrite forallb_forall in Hall. specialize (Hall th Hth).
  rewrite forallb_forall in Hall. exact (Hall h Hh).
Qed.

Lemma wan_numeral_value_witness :
  parseNumber (js "二十三萬五千六百") = lit 235600.
Proof.
  apply (wan_numeral_value (Some (Some (js "二", 2))) (Some (js "三", 3))
           (Some (js "五", 5)) (Some (js "六", 6)));
    vm_compute; tauto.
Defined.

(** ** Signs *)

Lemma binary_round_aux_sign (s : bool) (mx ex : Z) (lx : location) :
  negative (binary_round_aux prec emax s mx ex lx) = true -> s = true.
Proof.
  unfold binary_round_aux.
  destruct (shr_fexp prec emax mx ex lx) as [mrs' e'].
  destruct (shr_fexp prec emax _ e' loc_Exact) as [mrs'' e''].
  destruct (shr_m mrs'') as [ | m | m]; cbn [negative]; try discriminate; trivial.
  destruct (e'' <=? emax - prec); trivial.
Qed.

Lemma binary_normalize_sign (m e : Z) :
  0 <= m -> negative (binary_normalize prec emax m e false) = false.
Proof.
  intros H. destruct m as [ | p | p]; cbn [binary_normalize]; try lia; trivial.
  unfold binary_round. destruct (shl_align _ _ _) as [mz ez].
  destruct (negative _) eqn:E; trivial.
  apply binary_round_aux_sign in E. discriminate.
Qed.

Lemma lit_sign (z : Z) : 0 <= z -> negative (lit z) = false.
Proof. apply binary_normalize_sign. Qed.

Lemma of_decimal_sign (m e : Z) : negative (of_decimal false m e) = false.
Proof.
  unfold of_decimal. destruct m as [ | p | p]; trivial.
  destruct (0 <=? e) eqn:He.
  - apply binary_normalize_sign. apply Z.leb_le in He.
    pose proof (Z.pow_nonneg 10 e). nia.
  - destruct (SFdiv_core_binary _ _ _ _ _ _) as [[q e'] l].
    destruct (negative _) eqn:E; trivial.
    apply binary_round_aux_sign in E. discriminate.
Qed.

Lemma num_add_sign (x y : number) :
  negative x = false -> negative y = false -> negative (num_add x y) = false.
Proof.
  destruct x as [sx | sx | | sx mx ex], y as [sy | sy | | sy my ey];
    cbn [negative]; intros Hx Hy; subst; try reflexivity.
  unfold num_add, SFadd; cbv zeta. apply binary_normalize_sign.
  cbn [cond_Zopp]. lia.
Qed.

Lemma num_mul_sign (x y : number) :
  negative x = false -> negative y = false -> negative (num_mul x y) = false.
Proof.
  destruct x as [sx | sx | | sx mx ex], y as [sy | sy | | sy my ey];
    cbn [negative]; intros Hx Hy; subst; try reflexivity.
  unfold num_mul, SFmul. cbn [xorb].
  destruct (negative _) eqn:E; trivial.
  apply binary_round_aux_sign in E. discriminate.
Qed.

Lemma scan_unsigned_sign (s : jsstring) : negative (scan_unsigned false s) = false.
Proof.
  unfold scan_unsigned; cbv zeta.
  repeat match goal with
         | |- context [if ?b then _ else _] => destruct b
         | |- context [match ?x with [] => _ | _ :: _ => _ end] => destruct x
         end; trivial; apply of_decimal_sign.
Qed.

Lemma parseFloat_sign (s : jsstring) :
  negative (parseFloat s) = true -> exists r, drop_while is_space s = 0x2D :: r.
Proof.
  unfold parseFloat. destruct (drop_while is_space s) as [ | c r]; [discriminate | ].
  destruct (c =? 0x2B); [now rewrite scan_unsigned_sign | ].
  destruct (c =? 0x2D) eqn:E; [ | now rewrite scan_unsigned_sign].
  apply Z.eqb_eq in E. subst c. intros _. now exists r.
Qed.

Lemma parseFloat_no_minus (s : jsstring) :
  ~ In 0x2D s -> negative (parseFloat s) = false.
Proof.
  intros H. destruct (negative (parseFloat s)) eqn:E; trivial.
  apply parseFloat_sign in E as [r Hr]. exfalso. apply H.
  apply (drop_while_incl is_space). rewrite Hr. now left.
Qed.

Lemma lookup_in (m : list (jsstring * number)) (char : jsstring) (v : number) :
  lookup m char = Some v -> In v (List.map snd m).
Proof.
  induction m as [ | [k w] m IH]; cbn; [discriminate | ].
  destruct (string_eqb k char); [intros [= ->]; now left | auto].
Qed.

Lemma lookup_sign (char : jsstring) (num : number) :
  lookup map char = Some num -> negative num = false.
Proof.
  intros H. apply lookup_in in H.
  assert (Hall : forallb (fun v => negb (negative v)) (List.map snd map) = true)
    by (vm_compute; reflexivity).
  rewrite forallb_forall in Hall. apply Hall in H. now apply negb_true_iff in H.
Qed.

Lemma scan_char_unsigned (st : scan) (c : Z) :
  unsigned_scan st -> unsigned_scan (scan_char st c).
Proof.
  intros (Hv & Hb & Hc). unfold scan_char; cbv zeta.
  destruct (is_digit c || (c =? 0x2E)) eqn:Hd.
  { repeat split; trivial. cbn [currentDigitStr]. intros Hin.
    apply in_app_or in Hin as [Hin | [Hin | []]]; [auto | ].
    subst c. discriminate Hd. }
  set (bucket1 := if truthy (currentDigitStr st) then parseFloat (currentDigitStr st)
                  else bucket st).
  assert (H1 : negative bucket1 = false).
  { subst bucket1. destruct (truthy _); [now apply parseFloat_no_minus | exact Hb]. }
  destruct (lookup map [c]) as [num | ] eqn:Hm.
  2: { repeat split; cbn [val bucket currentDigitStr]; trivial; cbn [In]; tauto. }
  apply lookup_sign in Hm.
  set (bucket2 := if strict_eq bucket1 (lit 0) && string_eqb [c] (js "十") then lit 1
                  else bucket1).
  assert (H2 : negative bucket2 = false).
  { subst bucket2. destruct (_ && _); [now apply lit_sign | exact H1]. }
  assert (H3 : negative (lit 10000) = false) by now apply lit_sign.
  destruct (num_ge num (lit 10) && _).
  2: { repeat split; cbn [val bucket currentDigitStr]; trivial; cbn [In]; tauto. }
  destruct (strict_eq num (lit 10000)); repeat split; cbn [val bucket currentDigitStr];
    try (cbn [In]; tauto); try (now apply lit_sign);
    auto using num_add_sign, num_mul_sign.
Qed.

Lemma scan_value_sign (str : jsstring) : negative (scan_value str) = false.
Proof.
  rewrite scan_value_fold; cbv zeta.
  assert (H : unsigned_scan (fold_left scan_char str scan_start)).
  { assert (H0 : unsigned_scan scan_start)
      by (repeat split; try (now apply lit_sign); cbn; tauto).
    revert H0. generalize scan_start.
    induction str as [ | c r IH]; intros st H0; cbn [fold_left]; trivial.
    apply IH, scan_char_unsigned, H0. }
  destruct H as (Hv & Hb & Hc). apply num_add_sign; trivial.
  destruct (truthy _); [now apply parseFloat_no_minus | exact Hb].
Qed.

Lemma parseNumber_sign (str : jsstring) :
  negative (parseNumber str) = true ->
  has_numeral_char str = false /\ exists r, drop_while is_space str = 0x2D :: r.
Proof.
  unfold parseNumber; cbv zeta.
  destruct (negb (isNaN (parseFloat str)) && negb (has_numeral_char str)) eqn:E.
  - apply andb_true_iff in E as [_ E]. apply negb_true_iff in E.
    intros H. split; [exact E | now apply parseFloat_sign].
  - destruct (strict_eq _ _); [discriminate | ]. now rewrite scan_value_sign.
Qed.

Lemma nonneg_ge (x : number) :
  isNaN x = false -> negative x = false -> num_ge x (lit 0) = true.
Proof.
  replace (lit 0) with (S754_zero false) by (vm_compute; reflexivity).
  destruct x as [s | s | | s m e]; cbn; try discriminate; intros _ ->; reflexivity.
Qed.

Lemma token_unsigned (token : jsstring) :
  all token_class token -> isNaN (parseNumber token) = false ->
  isNaN (parseNumber token) = false /\ negative (parseNumber token) = false.
Proof.
  intros Ht Hn. split; trivial.
  destruct (negative _) eqn:E; trivial.
  apply parseNumber_sign in E as [_ [r Hr]]. exfalso.
  assert (Hin : In 0x2D token)
    by (apply (drop_while_incl is_space); rewrite Hr; now left).
  unfold all in Ht. rewrite forallb_forall in Ht. apply Ht in Hin.
  revert Hin. vm_compute. discriminate.
Qed.

Lemma num_add_unsigned (x y : number) :
  isNaN x = false /\ negative x = false ->
  isNaN y = false /\ negative y = false ->
  isNaN (num_add x y) = false /\ negative (num_add x y) = false.
Proof.
  intros [Hx Sx] [Hy Sy]. split; [ | now apply num_add_sign].
  destruct x as [sx | sx | | sx mx ex], y as [sy | sy | | sy my ey];
    cbn [negative isNaN] in *; subst; try discriminate; try reflexivity.
  unfold num_add, SFadd; cbv zeta. apply binary_normalize_not_nan.
Qed.

(** X13.  The parser gives a value with the sign bit set only for a text
    that has no Chinese numeral and whose first character after leading
    white space is a minus sign: the scanning loop never subtracts. *)
Theorem negative_value_needs_minus (str : jsstring) :
  negative (parseNumber str) = true ->
  has_numeral_char str = false /\ exists r, drop_while is_space str = 0x2D :: r.
Proof. apply parseNumber_sign. Qed.

Lemma negative_value_needs_minus_witness :
  has_numeral_char (js "-5") = false
  /\ exists r, drop_while is_space (js "-5") = 0x2D :: r.
Proof.
  apply (negative_value_needs_minus (js "-5")). vm_compute. reflexivity.
Defined.

(** ** What holds of every entry *)

Section EntryValues.

Variable Q : number -> Prop.
Hypothesis token_value :
  forall token, all token_class token -> isNaN (parseNumber token) = false ->
                Q (parseNumber token).

Lemma new_entries_values (env : Env) (vs : list number) :
  forall k, Forall Q vs -> Forall (fun e => Q (value e)) (new_entries env k vs).
Proof.
  induction vs as [ | v r IH]; intros k H; cbn [new_entries]; constructor.
  - cbn [value]. now inversion H.
  - apply IH. now inversion H.
Qed.

Lemma token_values_good (tokens : list jsstring) :
  Forall (all token_class) tokens -> Forall Q (token_values tokens).
Proof.
  induction 1 as [ | token rest Ht _ IH]; [constructor | ].
  rewrite token_values_cons.
  destruct (truthy token); cbn [andb]; trivial.
  destruct (isNaN (parseNumber token)) eqn:E; cbn [negb]; trivial.
  constructor; auto.
Qed.

Lemma removelast_good (es : list Entry) :
  Forall (fun e => Q (value e)) es -> Forall (fun e => Q (value e)) (removelast es).
Proof.
  rewrite !Forall_forall. intros H e He. apply H.
  destruct es as [ | e0 es] using rev_ind; [destruct He | ].
  rewrite removelast_last in He. apply in_or_app; left; exact He.
Qed.

Lemma filter_good (f : Entry -> bool) (es : list Entry) :
  Forall (fun e => Q (value e)) es -> Forall (fun e => Q (value e)) (filter f es).
Proof.
  rewrite !Forall_forall. intros H e He. apply filter_In in He as [He _]. auto.
Qed.

Lemma processSpeechInput_good (env : Env) (st : App) (text : jsstring) :
  Forall (fun e => Q (value e)) (entries st) ->
  Forall (fun e => Q (value e)) (entries (state_of (processSpeechInput env st text))).
Proof.
  intros H. unfold processSpeechInput; cbv zeta.
  destruct (negb (truthy (remove_commas (trim text)))); [exact H | ].
  destruct (is_delete_command (remove_commas (trim text))).
  { cbn [state_of]. rewrite entries_deleteLastEntry. now apply removelast_good. }
  destruct (is_summary_command (remove_commas (trim text))); [exact H | ].
  destruct (expand (remove_commas (trim text))) as [cleanText' | ]; [ | exact H].
  rewrite fold_add_token_entries.
  assert (G : Forall (fun e => Q (value e))
                (entries st ++ new_entries env (created st) (token_values (split cleanText')))).
  { apply Forall_app; split; [exact H | ].
    apply new_entries_values, token_values_good.
    apply split_loop_classes. reflexivity. }
  destruct (0 <? _)%nat; exact G.
Qed.

Lemma handle_good (env : Env) (st : App) (ev : event) :
  Forall (fun e => Q (value e)) (entries st) ->
  Forall (fun e => Q (value e)) (entries (handle env st ev)).
Proof.
  intros H.
  destruct ev;
    unfold handle, onstart, onend, onresult, deliver, onerror, run_task, micClick;
    cbv zeta;
    repeat match goal with
           | |- context [transcripts ?i ?r] => destruct (transcripts i r)
           | |- context [find_task ?h ?ts] => destruct (find_task h ts) as [[] | ]
           end;
    repeat match goal with
           | |- context [processSpeechInput ?env ?st ?text] =>
             let G := fresh "G" in
             pose proof (processSpeechInput_good env st text) as G;
             destruct (processSpeechInput env st text);
             cbn [state_of] in G
           end;
    split_cases; fields;
    auto using removelast_good, filter_good.
Qed.

Lemma run_good (env : Env) (evs : list event) :
  forall st, Forall (fun e => Q (value e)) (entries st) ->
             Forall (fun e => Q (value e)) (entries (run env st evs)).
Proof.
  unfold run. induction evs as [ | ev evs IH]; intros st H; cbn [fold_left]; trivial.
  apply IH, handle_good, H.
Qed.

Lemma reachable_good (env : Env) (st : App) :
  reachable env st -> Forall (fun e => Q (value e)) (entries st).
Proof. intros [evs ->]. apply run_good. constructor. Qed.

End EntryValues.

Lemma total_unsigned (es : list Entry) :
  Forall (fun e => isNaN (value e) = false /\ negative (value e) = false) es ->
  forall sum, isNaN sum = false /\ negative sum = false ->
  let total := fold_left (fun sum item => num_add sum (value item)) es sum in
  isNaN total = false /\ negative total = false.
Proof.
  induction 1 as [ | e es He _ IH]; intros sum Hsum; cbn [fold_left]; trivial.
  apply IH. now apply num_add_unsigned.
Qed.

(** X14.  Whatever events reach the object, no entry of its list is
    negative: every value is [>= 0], the tokens having no minus sign and
    the parser never subtracting. *)
Theorem entries_never_negative (env : Env) (evs : list event) :
  Forall (fun e => num_ge (value e) (lit 0) = true) (entries (run env initial evs)).
Proof.
  apply (run_good (fun v => num_ge v (lit 0) = true)); [ | constructor].
  intros token Ht Hn. apply nonneg_ge; now apply token_unsigned.
Qed.

(** X15.  Whatever events reach the object, the total of its entries is a
    number and is [>= 0]; it is never [NaN]. *)
Theorem total_never_negative (env : Env) (evs : list event) :
  num_ge (calculateTotal (run env initial evs)) (lit 0) = true.
Proof.
  assert (H : isNaN (calculateTotal (run env initial evs)) = false
              /\ negative (calculateTotal (run env initial evs)) = false).
  { apply total_unsigned.
    - apply (run_good (fun v => isNaN v = false /\ negative v = false));
        [exact token_unsigned | constructor].
    - split; [apply lit_not_nan | now apply lit_sign]. }
  now apply nonneg_ge.
Qed.

(** ** One pending timer for each field *)

Lemma owned_fields (x y : App) :
  timers y = timers x -> next_handle y = next_handle x ->
  (forall f, field_value y f = field_value x f) ->
  timers_owned x -> timers_owned y.
Proof.
  intros Ht Hn Hf (H1 & H2 & H3 & H4 & H5). unfold timers_owned. rewrite Ht, Hn.
  split; [ | split; [ | split; [ | split]]]; trivial.
  - intros h t f Hin Ho. rewrite Hf. eauto.
  - intros f h. rewrite Hf. eauto.
  - intros f h t. rewrite Hf. eauto.
Qed.

Lemma absent_fields (f : timer_field) (x y : App) :
  timers y = timers x -> absent f x -> absent f y.
Proof. unfold absent. intros ->. trivial. Qed.

Lemma NoDup_map_filter {A B : Type} (g : A -> B) (p : A -> bool) (l : list A) :
  NoDup (List.map g l) -> NoDup (List.map g (filter p l)).
Proof.
  induction l as [ | a l IH]; cbn [List.map filter]; trivial.
  intros H. inversion H as [ | ? ? Hout Hnd]; subst.
  destruct (p a); cbn [List.map]; auto.
  constructor; auto. intros Hin. apply Hout.
  apply in_map_iff in Hin as (b & <- & Hb). apply filter_In in Hb as [Hb _].
  now apply in_map.
Qed.

Lemma timers_clearTimeout (st : App) (h : option nat) (h' : nat) (t : task) :
  In (h', t) (timers (clearTimeout st h)) ->
  In (h', t) (timers st) /\ h <> Some h'.
Proof.
  cbn [timers clearTimeout]. destruct h as [n | ]; [ | split; [trivial | discriminate]].
  intros Hin. apply filter_In in Hin as [Hin Hne]. split; trivial.
  cbn [fst] in Hne. apply negb_true_iff, Nat.eqb_neq in Hne. congruence.
Qed.

Lemma owned_clearTimeout (st : App) (h : option nat) :
  timers_owned st -> timers_owned (clearTimeout st h).
Proof.
  intros (H1 & H2 & H3 & H4 & H5).
  assert (Hf : forall f, field_value (clearTimeout st h) f = field_value st f)
    by (intros []; reflexivity).
  split; [ | split; [ | split; [ | split]]].
  - intros h' t Hin. apply timers_clearTimeout in Hin as [Hin _].
    cbn [next_handle clearTimeout]. eauto.
  - cbn [timers clearTimeout]. destruct h; [now apply NoDup_map_filter | trivial].
  - intros h' t f Hin Ho. apply timers_clearTimeout in Hin as [Hin _].
    rewrite Hf. eauto.
  - intros f h'. rewrite Hf. cbn [next_handle clearTimeout]. eauto.
  - intros f h' t. rewrite Hf. intros Hv Hin.
    apply timers_clearTimeout in Hin as [Hin _]. eauto.
Qed.

Lemma absent_clearTimeout (f : timer_field) (st : App) (h : option nat) :
  absent f st -> absent f (clearTimeout st h).
Proof.
  intros H h' t Hin. apply timers_clearTimeout in Hin as [Hin _]. eauto.
Qed.

(** Clearing the handle a field names leaves no timer of that field. *)
Lemma absent_clear_field (f : timer_field) (st : App) :
  timers_owned st -> absent f (clearTimeout st (field_value st f)).
Proof.
  intros (_ & _ & H3 & _) h t Hin Ho. apply timers_clearTimeout in Hin as [Hin Hne].
  apply Hne. eauto.
Qed.

Lemma field_value_setTimeout (st : App) (f g : timer_field) (t : task) :
  field_value (setTimeout st (Some f) t) g
  = if match f, g with
       | TranscriptTimeout, TranscriptTimeout | ForceFinalizeTimer, ForceFinalizeTimer
       | RestartTimer, RestartTimer | InactivityTimer, InactivityTimer => true
       | _, _ => false
       end
    then Some (next_handle st) else field_value st g.
Proof. destruct f, g; reflexivity. Qed.

Lemma fresh_handle (st : App) (g : option timer_field) (t : task) :
  (forall h t', In (h, t') (timers st) -> (h < next_handle st)%nat) ->
  NoDup (List.map fst (timers st)) ->
  (forall h t', In (h, t') (timers (setTimeout st g t)) ->
                (h < next_handle (setTimeout st g t))%nat)
  /\ NoDup (List.map fst (timers (setTimeout st g t))).
Proof.
  intros H1 H2. cbn [timers next_handle setTimeout]. split.
  - intros h t' Hin.
    apply in_app_or in Hin as [Hin | [[= <- <-] | []]]; [ | lia].
    apply H1 in Hin. lia.
  - rewrite map_app. apply NoDup_app; trivial.
    + cbn. constructor; [intros [] | constructor].
    + intros h Hin Hn. cbn in Hn. destruct Hn as [Hn | []]. subst h.
      apply in_map_iff in Hin as ([h' t'] & Hh & Hin).
      apply H1 in Hin. cbn [fst] in Hh. lia.
Qed.

Lemma owned_setTimeout (st : App) (f : timer_field) (t : task) :
  timers_owned st -> absent f st -> owner t = Some f ->
  timers_owned (setTimeout st (Some f) t).
Proof.
  intros (H1 & H2 & H3 & H4 & H5) Ha Ho.
  destruct (fresh_handle st (Some f) t H1 H2) as [G1 G2].
  split; [exact G1 | split; [exact G2 | split; [ | split]]].
  - intros h t' g Hin Hg. rewrite field_value_setTimeout.
    cbn [timers setTimeout] in Hin.
    apply in_app_or in Hin as [Hin | [[= <- <-] | []]].
    + assert (Hne : g <> f) by (intros ->; exact (Ha h t' Hin Hg)).
      rewrite <- (H3 h t' g Hin Hg). destruct f, g; congruence.
    + assert (g = f) by congruence. subst g. destruct f; reflexivity.
  - intros g h. rewrite field_value_setTimeout. cbn [next_handle setTimeout].
    destruct (match f, g with
              | TranscriptTimeout, TranscriptTimeout
              | ForceFinalizeTimer, ForceFinalizeTimer
              | RestartTimer, RestartTimer | InactivityTimer, InactivityTimer => true
              | _, _ => false
              end); [intros [= <-]; lia | ].
    intros Hv. apply H4 in Hv. lia.
  - intros g h t' Hv Hin. rewrite field_value_setTimeout in Hv.
    cbn [timers setTimeout] in Hin.
    apply in_app_or in Hin as [Hin | [[= <- <-] | []]].
    + pose proof (H1 h t' Hin) as Hlt.
      destruct f, g; cbn match in Hv;
        try (injection Hv as <-; lia); eauto.
    + destruct f, g; cbn match in Hv; trivial;
        apply H4 in Hv; lia.
Qed.

Lemma owned_setTimeout_unnamed (st : App) (t : task) :
  timers_owned st -> owner t = None -> timers_owned (setTimeout st None t).
Proof.
  intros (H1 & H2 & H3 & H4 & H5) Ho.
  destruct (fresh_handle st None t H1 H2) as [G1 G2].
  assert (Hf : forall f, field_value (setTimeout st None t) f = field_value st f)
    by (intros []; reflexivity).
  split; [exact G1 | split; [exact G2 | split; [ | split]]].
  - intros h t' g Hin Hg. cbn [timers setTimeout] in Hin. rewrite Hf.
    apply in_app_or in Hin as [Hin | [[= <- <-] | []]]; [eauto | congruence].
  - intros g h. rewrite Hf. cbn [next_handle setTimeout]. intros Hv.
    apply H4 in Hv. lia.
  - intros g h t'. rewrite Hf. intros Hv Hin. cbn [timers setTimeout] in Hin.
    apply in_app_or in Hin as [Hin | [[= <- <-] | []]]; [eauto | ].
    apply H4 in Hv. lia.
Qed.

Lemma absent_setTimeout (f : timer_field) (st : App) (g : option timer_field) (t : task) :
  absent f st -> owner t <> Some f -> absent f (setTimeout st g t).
Proof.
  intros H Ho h t' Hin. cbn [timers setTimeout] in Hin.
  apply in_app_or in Hin as [Hin | [[= <- <-] | []]]; eauto.
Qed.

Lemma owned_emit (st : App) (e : effect) : timers_owned st -> timers_owned (emit st e).
Proof. apply owned_fields; trivial; intros []; reflexivity. Qed.

Lemma owned_set_entries (st : App) (es : list Entry) :
  timers_owned st -> timers_owned (set_entries st es).
Proof. apply owned_fields; trivial; intros []; reflexivity. Qed.

Lemma owned_set_isListening (st : App) (b : bool) :
  timers_owned st -> timers_owned (set_isListening st b).
Proof. apply owned_fields; trivial; intros []; reflexivity. Qed.

Lemma owned_set_created (st : App) (n : nat) :
  timers_owned st -> timers_owned (set_created st n).
Proof. apply owned_fields; trivial; intros []; reflexivity. Qed.

Lemma owned_set_autoStopMinutes (st : App) (n : number) :
  timers_owned st -> timers_owned (set_autoStopMinutes st n).
Proof. apply owned_fields; trivial; intros []; reflexivity. Qed.

Lemma absent_emit (f : timer_field) (st : App) (e : effect) :
  absent f st -> absent f (emit st e).
Proof. now apply absent_fields. Qed.

Lemma absent_set_entries (f : timer_field) (st : App) (es : list Entry) :
  absent f st -> absent f (set_entries st es).
Proof. now apply absent_fields. Qed.

Lemma absent_set_created (f : timer_field) (st : App) (n : nat) :
  absent f st -> absent f (set_created st n).
Proof. now apply absent_fields. Qed.

Create HintDb own discriminated.

#[export] Hint Resolve owned_emit owned_set_entries owned_set_isListening
  owned_set_created owned_set_autoStopMinutes owned_clearTimeout
  owned_setTimeout owned_setTimeout_unnamed
  absent_emit absent_set_entries absent_set_created absent_clearTimeout
  absent_setTimeout : own.

#[export] Hint Extern 1 (owner _ = _) => reflexivity : own.
#[export] Hint Extern 1 (owner _ <> _) => discriminate : own.
#[export] Hint Extern 1 (_ <> _ :> timer_field) => discriminate : own.
#[export] Hint Extern 1 (absent TranscriptTimeout (clearTimeout ?x (transcriptTimeout ?x))) =>
  apply (absent_clear_field TranscriptTimeout) : own.
#[export] Hint Extern 1 (absent ForceFinalizeTimer (clearTimeout ?x (forceFinalizeTimer ?x))) =>
  apply (absent_clear_field ForceFinalizeTimer) : own.
#[export] Hint Extern 1 (absent RestartTimer (clearTimeout ?x (restartTimer ?x))) =>
  apply (absent_clear_field RestartTimer) : own.
#[export] Hint Extern 1 (absent InactivityTimer (clearTimeout ?x (inactivityTimer ?x))) =>
  apply (absent_clear_field InactivityTimer) : own.

Lemma owned_showTranscript (st : App) (m : message) :
  timers_owned st -> timers_owned (showTranscript st m).
Proof. intros H. unfold showTranscript; cbv zeta. auto 10 with own. Qed.

Lemma absent_showTranscript (f : timer_field) (st : App) (m : message) :
  f <> TranscriptTimeout -> absent f st -> absent f (showTranscript st m).
Proof.
  intros Hf H. unfold showTranscript; cbv zeta.
  apply absent_setTimeout; [auto with own | cbn; congruence].
Qed.

Lemma owned_deleteLastEntry (st : App) :
  timers_owned st -> timers_owned (deleteLastEntry st).
Proof.
  intros H. unfold deleteLastEntry, render.
  destruct (rev (entries st)); auto using owned_showTranscript with own.
Qed.

Lemma absent_deleteLastEntry (f : timer_field) (st : App) :
  f <> TranscriptTimeout -> absent f st -> absent f (deleteLastEntry st).
Proof.
  intros Hf H. unfold deleteLastEntry, render.
  destruct (rev (entries st)); apply absent_showTranscript; auto with own.
Qed.

Lemma owned_processSpeechInput (env : Env) (st : App) (text : jsstring) :
  timers_owned st -> timers_owned (state_of (processSpeechInput env st text)).
Proof.
  intros H. unfold processSpeechInput; cbv zeta.
  destruct (negb (truthy (remove_commas (trim text)))); [cbn; auto with own | ].
  destruct (is_delete_command (remove_commas (trim text))).
  { cbn [state_of]. auto using owned_deleteLastEntry with own. }
  destruct (is_summary_command (remove_commas (trim text))).
  { cbn [state_of]. unfold showSummary. auto with own. }
  destruct (expand (remove_commas (trim text))) as [cleanText' | ]; [ | cbn; auto with own].
  rewrite fold_add_token_entries.
  destruct (0 <? _)%nat; cbn [state_of]; unfold render; auto 10 with own.
Qed.

Lemma absent_processSpeechInput (f : timer_field) (env : Env) (st : App) (text : jsstring) :
  f <> TranscriptTimeout -> absent f st ->
  absent f (state_of (processSpeechInput env st text)).
Proof.
  intros Hf H. unfold processSpeechInput; cbv zeta.
  destruct (negb (truthy (remove_commas (trim text)))); [cbn; auto with own | ].
  destruct (is_delete_command (remove_commas (trim text))).
  { cbn [state_of]. auto using absent_deleteLastEntry with own. }
  destruct (is_summary_command (remove_commas (trim text))).
  { cbn [state_of]. unfold showSummary. auto with own. }
  destruct (expand (remove_commas (trim text))) as [cleanText' | ]; [ | cbn; auto with own].
  rewrite fold_add_token_entries.
  destruct (0 <? _)%nat; cbn [state_of]; unfold render; auto 10 with own.
Qed.

Lemma owned_updateUIState (st : App) (b : bool) :
  timers_owned st -> timers_owned (updateUIState st b).
Proof. intros H. unfold updateUIState, hideTranscript. destruct b; auto with own. Qed.

Lemma owned_resetInactivityTimer (st : App) :
  timers_owned st -> timers_owned (resetInactivityTimer st).
Proof.
  intros H. unfold resetInactivityTimer; cbv zeta.
  destruct (isListening _); auto 10 with own.
Qed.

Lemma absent_resetInactivityTimer (f : timer_field) (st : App) :
  f <> InactivityTimer -> absent f st -> absent f (resetInactivityTimer st).
Proof.
  intros Hf H. unfold resetInactivityTimer; cbv zeta.
  destruct (isListening _); auto with own.
  apply absent_setTimeout; [auto with own | cbn; congruence].
Qed.

#[export] Hint Resolve owned_showTranscript owned_deleteLastEntry
  owned_processSpeechInput owned_updateUIState owned_resetInactivityTimer : own.

Lemma owned_deliver (env : Env) (st : App) (f i : jsstring) :
  timers_owned st -> absent ForceFinalizeTimer st ->
  timers_owned (deliver env st f i).
Proof.
  intros H Ha. unfold deliver; cbv zeta.
  assert (G : forall c, timers_owned (state_of c) -> absent ForceFinalizeTimer (state_of c) ->
    timers_owned
      match c with
      | Thrown st1 => st1
      | Returned st1 =>
        if truthy i then
          setTimeout (showTranscript st1 (Plain i)) (Some ForceFinalizeTimer) (ForceFinalize i)
        else st1
      end).
  { intros [st1 | st1]; cbn [state_of]; intros H1 H2; trivial.
    destruct (truthy i); trivial.
    apply owned_setTimeout; [auto with own | | reflexivity].
    apply absent_showTranscript; [discriminate | exact H2]. }
  apply G; destruct (truthy f); cbn [state_of]; trivial.
  - auto with own.
  - apply absent_processSpeechInput; [discriminate | ].
    apply absent_showTranscript; [discriminate | exact Ha].
Qed.

Lemma owned_handle (env : Env) (st : App) (ev : event) :
  timers_owned st -> timers_owned (handle env st ev).
Proof.
  intros H. destruct ev; cbn [handle].
  - unfold onstart. destruct (isListening st); auto with own.
  - unfold onend. destruct (isListening st); auto 10 with own.
  - unfold onresult; cbv zeta.
    destruct (transcripts resultIndex results) as [f i].
    apply owned_deliver; auto with own.
  - unfold onerror. split_cases; auto 10 with own.
  - destruct (find_task h (timers st)) as [t | ]; trivial.
    assert (H1 : timers_owned (clearTimeout st (Some h))) by auto with own.
    unfold run_task, hideTranscript. destruct t; auto 10 with own.
    + pose proof (owned_processSpeechInput env _ interimTranscript H1) as H2.
      destruct (processSpeechInput env _ interimTranscript); cbn [state_of] in H2; trivial.
      destruct (isListening _); auto with own.
    + destruct (isListening _); auto with own.
    + destruct start_throws; auto 10 with own.
  - unfold micClick; cbv zeta. destruct (isListening st); auto 10 with own.
  - auto with own.
  - unfold showSummary. auto with own.
  - destruct confirmed; unfold render; auto 10 with own.
  - unfold render. auto with own.
  - cbv zeta. destruct (isListening _); auto 10 with own.
Qed.

Lemma owned_initial : timers_owned initial.
Proof.
  split; [ | split; [ | split; [ | split]]]; cbn.
  - intros h t [].
  - constructor.
  - intros h t f [].
  - intros []; discriminate.
  - intros f h t _ [].
Qed.

Lemma reachable_owned (env : Env) (st : App) : reachable env st -> timers_owned st.
Proof.
  intros [evs ->]. unfold run. generalize owned_initial. generalize initial.
  induction evs as [ | ev evs IH]; intros s Hs; cbn [fold_left]; trivial.
  apply IH, owned_handle, Hs.
Qed.

Lemma same_handle_same_task (ts : list (nat * task)) (h : nat) (t1 t2 : task) :
  NoDup (List.map fst ts) -> In (h, t1) ts -> In (h, t2) ts -> t1 = t2.
Proof.
  induction ts as [ | [h' t'] ts IH]; cbn [List.map fst]; [intros _ [] | ].
  intros Hnd H1 H2. inversion Hnd as [ | ? ? Hout Hnd']; subst.
  cbn [fst] in Hout.
  destruct H1 as [E1 | H1], H2 as [E2 | H2].
  - congruence.
  - exfalso. apply Hout. injection E1 as -> _. now apply (in_map fst _ (h, t2)).
  - exfalso. apply Hout. injection E2 as -> _. now apply (in_map fst _ (h, t1)).
  - auto.
Qed.

(** X16.  In every state the object can reach, no two pending timers share
    a handle, a pending timer that hides the transcript, commits an interim
    text, restarts recognition or stops an idle session is the one its field
    names, and so at most one timer of each of these four kinds is
    pending. *)
Theorem one_pending_timer_per_field (env : Env) (st : App) :
  reachable env st ->
  NoDup (List.map fst (timers st))
  /\ (forall h t f, In (h, t) (timers st) -> owner t = Some f ->
                    field_value st f = Some h)
  /\ (forall h1 t1 h2 t2 f, In (h1, t1) (timers st) -> In (h2, t2) (timers st) ->
        owner t1 = Some f -> owner t2 = Some f -> h1 = h2 /\ t1 = t2).
Proof.
  intros Hr. destruct (reachable_owned env st Hr) as (H1 & H2 & H3 & _).
  repeat split; trivial.
  - pose proof (H3 _ _ _ H H4). pose proof (H3 _ _ _ H0 H5). congruence.
  - assert (h1 = h2)
      by (pose proof (H3 _ _ _ H H4); pose proof (H3 _ _ _ H0 H5); congruence).
    subst h2. eapply same_handle_same_task; eauto.
Qed.

Lemma one_pending_timer_per_field_witness :
  let st := run sample_env initial
              [MicClick; Timeout 1 false; OnStart;
               OnResult 0 [{| transcript := js "100"; isFinal := false |}]] in
  NoDup (List.map fst (timers st))
  /\ (forall h t f, In (h, t) (timers st) -> owner t = Some f ->
                    field_value st f = Some h)
  /\ (forall h1 t1 h2 t2 f, In (h1, t1) (timers st) -> In (h2, t2) (timers st) ->
        owner t1 = Some f -> owner t2 = Some f -> h1 = h2 /\ t1 = t2).
Proof.
  cbv zeta. apply (one_pending_timer_per_field sample_env).
  exists [MicClick; Timeout 1 false; OnStart;
          OnResult 0 [{| transcript := js "100"; isFinal := false |}]].
  reflexivity.
Defined.

(** ** The session *)

Lemma find_task_fresh (ts : list (nat * task)) (n : nat) (t : task) :
  (forall h t', In (h, t') ts -> (h < n)%nat) ->
  find_task n (ts ++ [(n, t)]) = Some t.
Proof.
  induction ts as [ | [h' t'] ts IH]; intros H; cbn [app find_task].
  - now rewrite Nat.eqb_refl.
  - assert (Hlt : (h' < n)%nat) by (apply (H h' t'); now left).
    destruct (Nat.eqb_spec h' n); [lia | ].
    apply IH. intros h t'' Hin. apply (H h t''). now right.
Qed.

Lemma timers_cleared (st : App) (h : nat) (t : task) :
  ~ In (h, t) (timers (clearTimeout st (Some h))).
Proof.
  intros Hin. apply timers_clearTimeout in Hin as [_ Hne]. now apply Hne.
Qed.

(** X17.  When recognition ends while the session is listening, one
    restart timer is armed, named by [this.restartTimer] and the only one
    pending; nothing is shown.  When it fires, [recognition.start()] is
    called from the timer, the session is still listening and the timer is
    gone. *)
Theorem ended_session_restarts (env : Env) (st : App) (start_throws : bool) :
  reachable env st -> isListening st = true ->
  let st1 := handle env st OnEnd in
  let h := next_handle st in
  trace st1 = trace st
  /\ restartTimer st1 = Some h
  /\ find_task h (timers st1) = Some Restart
  /\ (forall h', In (h', Restart) (timers st1) -> h' = h)
  /\ let st2 := handle env st1 (Timeout h start_throws) in
     trace st2 = trace st ++ [RecognitionStart InRestartTimer]
     /\ isListening st2 = true
     /\ forall t, ~ In (h, t) (timers st2).
Proof.
  intros Hr Hl. cbv zeta.
  pose proof (reachable_owned env st Hr) as Ho.
  assert (E1 : handle env st OnEnd
               = setTimeout (clearTimeout st (restartTimer st)) (Some RestartTimer) Restart)
    by (cbn [handle]; unfold onend; now rewrite Hl).
  rewrite E1.
  assert (Hfind : find_task (next_handle st)
                    (timers (setTimeout (clearTimeout st (restartTimer st))
                               (Some RestartTimer) Restart)) = Some Restart).
  { cbn [timers setTimeout next_handle clearTimeout]. apply find_task_fresh.
    intros h t Hin.
    apply (timers_clearTimeout st (restartTimer st)) in Hin as [Hin _].
    destruct Ho as (H1 & _). eauto. }
  split; [reflexivity | split; [reflexivity | split; [exact Hfind | split]]].
  - intros h' Hin. cbn [timers setTimeout] in Hin.
    apply in_app_or in Hin as [Hin | [[= <-] | []]]; [ | reflexivity].
    exfalso. apply (absent_clear_field RestartTimer st Ho h' Restart Hin). reflexivity.
  - cbn [handle]. rewrite Hfind. unfold run_task.
    cbn [isListening clearTimeout setTimeout]. rewrite Hl.
    split; [reflexivity | split; [exact Hl | ]].
    intros t Hin. cbn [timers emit] in Hin. revert Hin. apply timers_cleared.
Qed.

Lemma ended_session_restarts_witness :
  let st := run sample_env initial [MicClick; Timeout 1 false; OnStart] in
  let st1 := handle sample_env st OnEnd in
  find_task 3 (timers st1) = Some Restart
  /\ trace (handle sample_env st1 (Timeout 3 false))
     = trace st ++ [RecognitionStart InRestartTimer].
Proof.
  cbv zeta.
  destruct (ended_session_restarts sample_env
              (run sample_env initial [MicClick; Timeout 1 false; OnStart]) false
              (ex_intro _ [MicClick; Timeout 1 false; OnStart] eq_refl) eq_refl)
    as (_ & _ & Hfind & _ & Htrace & _).
  split; [exact Hfind | exact Htrace].
Defined.

(** *** What a field keeps *)

Lemma kept_refl (f : timer_field) (st : App) : kept f st st.
Proof. split; auto. Qed.

Lemma kept_trans (f : timer_field) (x y z : App) :
  kept f x y -> kept f y z -> kept f x z.
Proof. intros [H1 H2] [H3 H4]. split; [congruence | eauto]. Qed.

Lemma kept_fields (f : timer_field) (x y : App) :
  timers y = timers x -> (forall g, field_value y g = field_value x g) ->
  kept f x y.
Proof. intros Ht Hf. split; [apply Hf | rewrite Ht; auto]. Qed.

Lemma kept_emit (f : timer_field) (st : App) (e : effect) : kept f st (emit st e).
Proof. apply kept_fields; trivial; intros []; reflexivity. Qed.

Lemma kept_set_entries (f : timer_field) (st : App) (es : list Entry) :
  kept f st (set_entries st es).
Proof. apply kept_fields; trivial; intros []; reflexivity. Qed.

Lemma kept_set_created (f : timer_field) (st : App) (n : nat) :
  kept f st (set_created st n).
Proof. apply kept_fields; trivial; intros []; reflexivity. Qed.

Lemma kept_setTimeout (f g : timer_field) (st : App) (t : task) :
  g <> f -> kept f st (setTimeout st (Some g) t).
Proof.
  intros Hne. split.
  - rewrite field_value_setTimeout. destruct g, f; congruence.
  - intros h t' _ Hin. cbn [timers setTimeout]. apply in_or_app. now left.
Qed.

(** Clearing the handle of another field removes no timer of [f]. *)
Lemma kept_clear_field (f g : timer_field) (st : App) :
  timers_owned st -> g <> f -> kept f st (clearTimeout st (field_value st g)).
Proof.
  intros (_ & _ & _ & _ & H5) Hne. split; [destruct f; reflexivity | ].
  intros h t Ho Hin. cbn [timers clearTimeout].
  destruct (field_value st g) as [n | ] eqn:Hg; trivial.
  apply filter_In. split; trivial. cbn [fst].
  apply negb_true_iff, Nat.eqb_neq. intros ->.
  pose proof (H5 g n t Hg Hin). congruence.
Qed.

Lemma kept_showTranscript (f : timer_field) (st : App) (m : message) :
  timers_owned st -> f <> TranscriptTimeout -> kept f st (showTranscript st m).
Proof.
  intros Ho Hf. unfold showTranscript; cbv zeta.
  apply (kept_trans f _ (emit st (ShowTranscript m))); [apply kept_emit | ].
  eapply kept_trans; [ | apply kept_setTimeout; congruence].
  apply (kept_clear_field f TranscriptTimeout); [auto with own | congruence].
Qed.

Lemma kept_deleteLastEntry (f : timer_field) (st : App) :
  timers_owned st -> f <> TranscriptTimeout -> kept f st (deleteLastEntry st).
Proof.
  intros Ho Hf. unfold deleteLastEntry, render.
  destruct (rev (entries st)); [now apply kept_showTranscript | ].
  eapply kept_trans; [ | apply kept_showTranscript; auto with own].
  eapply kept_trans; [apply kept_set_entries | apply kept_emit].
Qed.

Lemma kept_processSpeechInput (f : timer_field) (env : Env) (st : App) (text : jsstring) :
  timers_owned st -> f <> TranscriptTimeout ->
  kept f st (state_of (processSpeechInput env st text)).
Proof.
  intros Ho Hf. unfold processSpeechInput; cbv zeta.
  apply (kept_trans f _ (emit st (Called text))); [apply kept_emit | ].
  destruct (negb (truthy (remove_commas (trim text)))); [apply kept_refl | ].
  destruct (is_delete_command (remove_commas (trim text))).
  { cbn [state_of]. apply kept_deleteLastEntry; auto with own. }
  destruct (is_summary_command (remove_commas (trim text))).
  { cbn [state_of]. apply kept_emit. }
  destruct (expand (remove_commas (trim text))) as [cleanText' | ]; [ | apply kept_refl].
  rewrite fold_add_token_entries.
  assert (G : kept f (emit st (Called text))
                (set_created
                   (set_entries (emit st (Called text))
                      (entries (emit st (Called text))
                       ++ new_entries env (created (emit st (Called text)))
                            (token_values (split cleanText'))))
                   (created (emit st (Called text))
                    + List.length (token_values (split cleanText')))))
    by (eapply kept_trans; [apply kept_set_entries | apply kept_set_created]).
  destruct (0 <? _)%nat; cbn [state_of]; [ | exact G].
  eapply kept_trans; [exact G | apply kept_emit].
Qed.

Lemma kept_deliver (f : timer_field) (env : Env) (st : App) (final interim : jsstring) :
  timers_owned st -> f <> TranscriptTimeout -> f <> ForceFinalizeTimer ->
  kept f st (deliver env st final interim).
Proof.
  intros Ho Hf Hf'. unfold deliver; cbv zeta.
  assert (G : forall c, timers_owned (state_of c) -> kept f st (state_of c) ->
    kept f st
      match c with
      | Thrown st1 => st1
      | Returned st1 =>
        if truthy interim then
          setTimeout (showTranscript st1 (Plain interim)) (Some ForceFinalizeTimer)
            (ForceFinalize interim)
        else st1
      end).
  { intros [st1 | st1]; cbn [state_of]; intros H1 H2; trivial.
    destruct (truthy interim); trivial.
    eapply kept_trans; [exact H2 | ].
    eapply kept_trans; [now apply kept_showTranscript | ].
    apply kept_setTimeout. congruence. }
  apply G; destruct (truthy final); cbn [state_of]; auto using kept_refl with own.
  eapply kept_trans; [now apply kept_showTranscript | ].
  apply kept_processSpeechInput; auto with own.
Qed.

Lemma isListening_showTranscript (st : App) (m : message) :
  isListening (showTranscript st m) = isListening st.
Proof. reflexivity. Qed.

Lemma isListening_processSpeechInput (env : Env) (st : App) (text : jsstring) :
  isListening (state_of (processSpeechInput env st text)) = isListening st.
Proof. now destruct (processSpeechInput_frame env st text) as (_ & H & _). Qed.

Lemma isListening_deliver (env : Env) (st : App) (final interim : jsstring) :
  isListening (deliver env st final interim) = isListening st.
Proof.
  unfold deliver; cbv zeta.
  assert (G : forall c, isListening (state_of c) = isListening st ->
    isListening
      match c with
      | Thrown st1 => st1
      | Returned st1 =>
        if truthy interim then
          setTimeout (showTranscript st1 (Plain interim)) (Some ForceFinalizeTimer)
            (ForceFinalize interim)
        else st1
      end = isListening st).
  { intros [st1 | st1]; cbn [state_of]; trivial. now destruct (truthy interim). }
  apply G. destruct (truthy final); [ | reflexivity].
  now rewrite isListening_processSpeechInput.
Qed.

(** After [resetInactivityTimer] in a listening session the inactivity
    timer is the one just armed. *)
Lemma resetInactivityTimer_listening (st : App) :
  isListening st = true ->
  resetInactivityTimer st
  = setTimeout (clearTimeout st (inactivityTimer st)) (Some InactivityTimer) AutoStop.
Proof. intros H. unfold resetInactivityTimer; cbv zeta. cbn [isListening clearTimeout]. now rewrite H. Qed.

Lemma rearmed (st : App) :
  isListening st = true ->
  inactivityTimer (resetInactivityTimer st) = Some (next_handle st)
  /\ In (next_handle st, AutoStop) (timers (resetInactivityTimer st)).
Proof.
  intros H. rewrite (resetInactivityTimer_listening st H). split; [reflexivity | ].
  cbn [timers setTimeout next_handle clearTimeout]. apply in_or_app. right. now left.
Qed.

(** X18.  Whatever counts as activity of a listening session (recognition
    starting, a result, the settings being saved) restarts the inactivity
    countdown: afterwards the session is still listening and exactly one
    inactivity timer is pending, armed during the event and named by
    [this.inactivityTimer]. *)
Theorem activity_rearms_inactivity_timer (env : Env) (st : App) (ev : event) :
  reachable env st -> isListening st = true -> activity ev ->
  let st' := handle env st ev in
  isListening st' = true
  /\ exists h, (next_handle st <= h)%nat
               /\ inactivityTimer st' = Some h
               /\ In (h, AutoStop) (timers st')
               /\ forall h', In (h', AutoStop) (timers st') -> h' = h.
Proof.
  intros Hr Hl Hev. cbv zeta.
  pose proof (reachable_owned env st Hr) as Ho.
  pose proof (owned_handle env st ev Ho) as Ho'.
  assert (G : isListening (handle env st ev) = true
              /\ exists h, (next_handle st <= h)%nat
                           /\ inactivityTimer (handle env st ev) = Some h
                           /\ In (h, AutoStop) (timers (handle env st ev))).
  { destruct Hev as [-> | [(i & r & ->) | (v & ->)]]; cbn [handle].
    - unfold onstart. rewrite Hl.
      destruct (rearmed (updateUIState st true)) as [H1 H2]; [exact Hl | ].
      split; [now rewrite isListening_resetInactivityTimer | ].
      exists (next_handle st). auto.
    - unfold onresult; cbv zeta. destruct (transcripts i r) as [final interim].
      destruct (rearmed st Hl) as [H1 H2].
      set (st1 := resetInactivityTimer st) in *.
      assert (Ho1 : timers_owned st1) by (subst st1; auto with own).
      assert (K2 : kept InactivityTimer st1 (clearTimeout st1 (forceFinalizeTimer st1)))
        by (apply (kept_clear_field InactivityTimer ForceFinalizeTimer); [exact Ho1 | discriminate]).
      assert (K3 : kept InactivityTimer (clearTimeout st1 (forceFinalizeTimer st1))
                     (deliver env (clearTimeout st1 (forceFinalizeTimer st1)) final interim))
        by (apply kept_deliver; [auto with own | discriminate | discriminate]).
      destruct (kept_trans _ _ _ _ K2 K3) as [Hf Hk].
      split.
      + rewrite isListening_deliver. cbn [isListening clearTimeout]. subst st1.
        now rewrite isListening_resetInactivityTimer.
      + exists (next_handle st). split; [lia | split].
        * cbn [field_value] in Hf. now rewrite Hf.
        * apply Hk; [reflexivity | exact H2].
    - cbv zeta.
      set (st1 := showTranscript (set_autoStopMinutes st v) (AutoStopSet v)).
      assert (Hl1 : isListening st1 = true) by exact Hl.
      rewrite Hl1. destruct (rearmed st1 Hl1) as [H1 H2].
      split; [now rewrite isListening_resetInactivityTimer | ].
      exists (next_handle st1). split; [ | auto].
      subst st1. cbn [next_handle showTranscript setTimeout clearTimeout emit set_autoStopMinutes].
      lia. }
  destruct G as (G1 & h & G2 & G3 & G4). split; [exact G1 | ].
  exists h. repeat split; trivial.
  intros h' Hin. destruct Ho' as (_ & _ & H3 & _).
  pose proof (H3 h' AutoStop InactivityTimer Hin eq_refl) as E.
  cbn [field_value] in E. congruence.
Qed.

Lemma activity_rearms_inactivity_timer_witness :
  let st := run sample_env initial [MicClick; Timeout 1 false; OnStart] in
  let st' := handle sample_env st
               (OnResult 0 [{| transcript := js "100"; isFinal := true |}]) in
  isListening st' = true
  /\ exists h, (next_handle st <= h)%nat
               /\ inactivityTimer st' = Some h
               /\ In (h, AutoStop) (timers st')
               /\ forall h', In (h', AutoStop) (timers st') -> h' = h.
Proof.
  cbv zeta.
  apply (activity_rearms_inactivity_timer sample_env
           (run sample_env initial [MicClick; Timeout 1 false; OnStart])).
  - now exists [MicClick; Timeout 1 false; OnStart].
  - reflexivity.
  - right; left. now exists 0%nat, [{| transcript := js "100"; isFinal := true |}].
Defined.

Lemma calls_emit (st : App) (e : effect) :
  not_a_call e = true -> calls (trace (emit st e)) = calls (trace st).
Proof.
  intros H. cbn [trace emit]. unfold calls. rewrite flat_map_app. cbn [flat_map].
  destruct e; try discriminate; now rewrite app_nil_r.
Qed.

Lemma calls_processSpeechInput (env : Env) (st : App) (text : jsstring) :
  calls (trace (state_of (processSpeechInput env st text)))
  = calls (trace st) ++ [text].
Proof.
  destruct (processSpeechInput_frame env st text) as (H & _).
  transitivity (calls (trace (emit st (Called text)))).
  - apply (calls_evolves hide_task).
    apply (evolves_mono page_effect not_a_call hide_task hide_task); trivial.
    intros []; cbn; congruence.
  - cbn [trace emit]. unfold calls. now rewrite flat_map_app.
Qed.

(** X19.  A result event that carries interim text only commits nothing
    and arms one forced-commit timer for exactly that text, the only one
    pending.  When the timer fires the text is passed to
    [processSpeechInput], once. *)
Theorem interim_text_is_committed_by_timer (env : Env) (st : App)
    (resultIndex : nat) (results : list result) (interim : jsstring)
    (start_throws : bool) :
  reachable env st ->
  transcripts resultIndex results = ([], interim) -> interim <> [] ->
  let st' := handle env st (OnResult resultIndex results) in
  calls (trace st') = calls (trace st)
  /\ exists h,
       forceFinalizeTimer st' = Some h
       /\ find_task h (timers st') = Some (ForceFinalize interim)
       /\ (forall h' text, In (h', ForceFinalize text) (timers st') ->
             h' = h /\ text = interim)
       /\ calls (trace (handle env st' (Timeout h start_throws)))
          = calls (trace st) ++ [interim].
Proof.
  intros Hr Htr Hne. cbv zeta.
  pose proof (reachable_owned env st Hr) as Ho.
  pose proof (owned_handle env st (OnResult resultIndex results) Ho) as Ho'.
  assert (Hcalls : calls (trace (handle env st (OnResult resultIndex results)))
                   = calls (trace st)).
  { cbn [handle]. unfold onresult; cbv zeta. rewrite Htr.
    rewrite calls_deliver. cbn [truthy]. rewrite app_nil_r.
    apply (calls_evolves any_task). auto 10 with evolve. }
  revert Ho' Hcalls. cbn [handle]. unfold onresult; cbv zeta. rewrite Htr.
  set (st2 := clearTimeout (resetInactivityTimer st)
                (forceFinalizeTimer (resetInactivityTimer st))).
  assert (Ho2 : timers_owned (showTranscript st2 (Plain interim)))
    by (subst st2; auto 10 with own).
  unfold deliver; cbv zeta. cbn [truthy].
  destruct interim as [ | c r]; [congruence | ]. cbn [truthy].
  set (st3 := showTranscript st2 (Plain (c :: r))) in *.
  intros Ho' Hcalls. split; [exact Hcalls | ].
  assert (Hfind : find_task (next_handle st3)
                    (timers (setTimeout st3 (Some ForceFinalizeTimer)
                               (ForceFinalize (c :: r))))
                  = Some (ForceFinalize (c :: r))).
  { cbn [timers setTimeout]. apply find_task_fresh. destruct Ho2 as (H1 & _). exact H1. }
  exists (next_handle st3).
  split; [reflexivity | split; [exact Hfind | split]].
  - intros h' text Hin. destruct Ho' as (_ & Hnd & H3 & _).
    pose proof (H3 h' _ ForceFinalizeTimer Hin eq_refl) as E.
    cbn [field_value forceFinalizeTimer setTimeout] in E.
    injection E as <-. split; [reflexivity | ].
    assert (Hin' : In (next_handle st3, ForceFinalize (c :: r))
                     (timers (setTimeout st3 (Some ForceFinalizeTimer)
                                (ForceFinalize (c :: r)))))
      by (cbn [timers setTimeout]; apply in_or_app; right; now left).
    pose proof (same_handle_same_task _ _ _ _ Hnd Hin Hin') as E.
    now injection E.
  - cbn [handle]. rewrite Hfind. unfold run_task.
    set (st4 := clearTimeout _ _).
    pose proof (calls_processSpeechInput env st4 (c :: r)) as Hc.
    assert (E4 : calls (trace st4) = calls (trace st)) by exact Hcalls.
    rewrite E4 in Hc.
    destruct (processSpeechInput env st4 (c :: r)) as [st5 | st5];
      cbn [state_of] in Hc; trivial.
    destruct (isListening st5); trivial. now rewrite calls_emit.
Qed.

Lemma interim_text_is_committed_by_timer_witness :
  let st := run sample_env initial [MicClick; Timeout 1 false; OnStart] in
  let st' := handle sample_env st
               (OnResult 0 [{| transcript := js "100"; isFinal := false |}]) in
  calls (trace st') = calls (trace st)
  /\ exists h,
       forceFinalizeTimer st' = Some h
       /\ find_task h (timers st') = Some (ForceFinalize (js "100"))
       /\ (forall h' text, In (h', ForceFinalize text) (timers st') ->
             h' = h /\ text = js "100")
       /\ calls (trace (handle sample_env st' (Timeout h false)))
          = calls (trace st) ++ [js "100"].
Proof.
  cbv zeta.
  apply (interim_text_is_committed_by_timer sample_env
           (run sample_env initial [MicClick; Timeout 1 false; OnStart]) 0
           [{| transcript := js "100"; isFinal := false |}] (js "100") false).
  - now exists [MicClick; Timeout 1 false; OnStart].
  - reflexivity.
  - discriminate.
Defined.

(** *** An idle session *)

Lemma resetInactivityTimer_idle (st : App) :
  isListening st = false ->
  resetInactivityTimer st = clearTimeout st (inactivityTimer st).
Proof.
  intros H. unfold resetInactivityTimer; cbv zeta.
  cbn [isListening clearTimeout]. now rewrite H.
Qed.

Lemma hide_idle (t : task) : hide_task t = true -> idle_task t = true.
Proof. destruct t; cbn; intros H; reflexivity || discriminate H. Qed.

#[export] Hint Resolve hide_idle : evolve.

Lemma handle_idle (env : Env) (st : App) (ev : event) :
  isListening st = false -> ev <> MicClick ->
  isListening (handle env st ev) = false
  /\ evolves any_effect idle_task st (handle env st ev).
Proof.
  intros H Hev. destruct ev; try congruence; clear Hev;
    unfold handle, onstart, onend, onresult, deliver, onerror, run_task; cbv zeta;
    rewrite ?(resetInactivityTimer_idle st H);
    repeat match goal with
           | |- context [transcripts ?i ?r] => destruct (transcripts i r)
           | |- context [find_task ?h ?ts] => destruct (find_task h ts) as [[] | ]
           end;
    fields; rewrite ?H; cbn match; use_frame; fields;
    repeat match goal with
           | E : isListening ?c = _ |- context [isListening ?c] => rewrite E
           end;
    rewrite ?H; cbn match; split_cases; fields;
    (split; [congruence || reflexivity | auto 20 with evolve]).
Qed.

Lemma run_idle (env : Env) (evs : list event) :
  forall st, isListening st = false -> ~ In MicClick evs ->
  isListening (run env st evs) = false
  /\ evolves any_effect idle_task st (run env st evs).
Proof.
  unfold run. induction evs as [ | ev evs IH]; intros st H Hevs; cbn [fold_left].
  - split; [exact H | apply evolves_refl].
  - destruct (handle_idle env st ev H) as [H1 H2].
    { intros ->. apply Hevs; left; reflexivity. }
    destruct (IH (handle env st ev) H1) as [H3 H4].
    { intros Hin. apply Hevs; right; exact Hin. }
    split; [exact H3 | ].
    apply (evolves_trans _ _ st (handle env st ev)); trivial.
Qed.

(** X20.  A click on the microphone button of a listening session stops
    recognition, shows the idle state and cancels the inactivity timer.
    From then on, as long as the button is not pressed again, the session
    stays idle, no inactivity timer is pending, and every pending restart
    timer was armed before the click. *)
Theorem stop_click_ends_the_session (env : Env) (st : App) :
  reachable env st -> isListening st = true ->
  let st' := handle env st MicClick in
  isListening st' = false
  /\ trace st' = trace st ++ [RecognitionStop; UpdateUIState false; HideTranscriptNow]
  /\ forall evs, ~ In MicClick evs ->
       let st'' := run env st' evs in
       isListening st'' = false
       /\ (forall h, ~ In (h, AutoStop) (timers st''))
       /\ (forall h, In (h, Restart) (timers st'') -> In (h, Restart) (timers st)).
Proof.
  intros Hr Hl. cbv zeta.
  pose proof (reachable_owned env st Hr) as Ho.
  set (st1 := updateUIState (emit (set_isListening st false) RecognitionStop) false).
  assert (E : handle env st MicClick = clearTimeout st1 (inactivityTimer st1))
    by (cbn [handle]; unfold micClick; cbv zeta; now rewrite Hl).
  rewrite E.
  assert (Ho1 : timers_owned st1) by (subst st1; auto 10 with own).
  pose proof (absent_clear_field InactivityTimer st1 Ho1) as Ha.
  cbn [field_value] in Ha.
  split; [reflexivity | split].
  - subst st1. cbn [trace clearTimeout updateUIState hideTranscript emit set_isListening].
    now rewrite <- !app_assoc.
  - intros evs Hevs.
    destruct (run_idle env evs (clearTimeout st1 (inactivityTimer st1)) eq_refl Hevs)
      as (Hidle & _ & Ht & _).
    split; [exact Hidle | split].
    + intros h Hin. destruct (Ht h _ Hin) as [Hold | (_ & _ & Hc)]; [ | discriminate].
      exact (Ha h AutoStop Hold eq_refl).
    + intros h Hin. destruct (Ht h _ Hin) as [Hold | (_ & _ & Hc)]; [ | discriminate].
      apply timers_clearTimeout in Hold as [Hold _]. exact Hold.
Qed.

Lemma stop_click_ends_the_session_witness :
  let st := run sample_env initial [MicClick; Timeout 1 false; OnStart] in
  let st' := handle sample_env st MicClick in
  isListening st' = false
  /\ trace st' = trace st ++ [RecognitionStop; UpdateUIState false; HideTranscriptNow]
  /\ forall evs, ~ In MicClick evs ->
       let st'' := run sample_env st' evs in
       isListening st'' = false
       /\ (forall h, ~ In (h, AutoStop) (timers st''))
       /\ (forall h, In (h, Restart) (timers st'') -> In (h, Restart) (timers st)).
Proof.
  cbv zeta.
  apply (stop_click_ends_the_session sample_env
           (run sample_env initial [MicClick; Timeout 1 false; OnStart])).
  - now exists [MicClick; Timeout 1 false; OnStart].
  - reflexivity.
Defined.

Lemma find_task_in (ts : list (nat * task)) (h : nat) (t : task) :
  NoDup (List.map fst ts) -> In (h, t) ts -> find_task h ts = Some t.
Proof.
  induction ts as [ | [h' t'] ts IH]; [intros _ [] | ].
  intros Hnd Hin. cbn [find_task]. destruct (Nat.eqb_spec h' h) as [-> | Hne].
  - f_equal. apply (same_handle_same_task ((h, t') :: ts) h); trivial. now left.
  - destruct Hin as [[= -> ->] | Hin]; [congruence | ].
    apply IH; trivial. now inversion Hnd.
Qed.

(** X21.  A stop click does not cancel a start that is still settling: when
    the button of an idle session is clicked twice before the start timer
    fires, the timer is still pending after the second click, and when it
    fires [recognition.start()] is called although the session is idle. *)
Theorem start_survives_quick_stop (env : Env) (st : App) :
  reachable env st -> isListening st = false ->
  let h := next_handle st in
  let st2 := handle env (handle env st MicClick) MicClick in
  isListening st2 = false
  /\ find_task h (timers st2) = Some StartSettle
  /\ let st3 := handle env st2 (Timeout h false) in
     isListening st3 = false
     /\ trace st3 = trace st2 ++ [RecognitionStart InMicClick].
Proof.
  intros Hr Hl. cbv zeta.
  pose proof (reachable_owned env st Hr) as Ho.
  set (st1 := setTimeout (emit (emit (set_isListening st true) (StatusText (js "啟動中...")))
                            RecognitionAbort) None StartSettle).
  assert (E1 : handle env st MicClick = st1)
    by (cbn [handle]; unfold micClick; cbv zeta; now rewrite Hl).
  rewrite E1.
  set (st1' := updateUIState (emit (set_isListening st1 false) RecognitionStop) false).
  assert (E2 : handle env st1 MicClick = clearTimeout st1' (inactivityTimer st1')) by reflexivity.
  rewrite E2.
  assert (Ho1 : timers_owned st1) by (subst st1; auto 10 with own).
  assert (Ho2 : timers_owned (clearTimeout st1' (inactivityTimer st1')))
    by (subst st1'; auto 10 with own).
  assert (Hin : In (next_handle st, StartSettle)
                  (timers (clearTimeout st1' (inactivityTimer st1')))).
  { destruct (kept_clear_field RestartTimer InactivityTimer st1') as [_ Hk];
      [subst st1'; auto 10 with own | discriminate | ].
    clear Hk. cbn [timers clearTimeout].
    assert (Hin1 : In (next_handle st, StartSettle) (timers st1'))
      by (cbn; apply in_or_app; right; now left).
    destruct (inactivityTimer st1') as [k | ] eqn:Ek; trivial.
    apply filter_In. split; trivial. cbn [fst].
    apply negb_true_iff, Nat.eqb_neq. intros Heq.
    destruct Ho as (_ & _ & _ & H4 & _).
    pose proof (H4 InactivityTimer k Ek). lia. }
  assert (Hfind : find_task (next_handle st)
                    (timers (clearTimeout st1' (inactivityTimer st1'))) = Some StartSettle).
  { apply find_task_in; trivial. destruct Ho2 as (_ & Hnd & _). exact Hnd. }
  split; [reflexivity | split; [exact Hfind | ]].
  cbn [handle]. rewrite Hfind. split; reflexivity.
Qed.

Lemma start_survives_quick_stop_witness :
  let st2 := handle sample_env (handle sample_env initial MicClick) MicClick in
  isListening st2 = false
  /\ find_task 1 (timers st2) = Some StartSettle
  /\ let st3 := handle sample_env st2 (Timeout 1 false) in
     isListening st3 = false
     /\ trace st3 = trace st2 ++ [RecognitionStart InMicClick].
Proof.
  cbv zeta. apply (start_survives_quick_stop sample_env initial).
  - now exists [].
  - reflexivity.
Defined.

(** ** The list on the page *)

Lemma rows_snoc (st : App) (es : list Entry) (e : Entry) :
  rows (set_entries st (es ++ [e]))
  = (S (List.length es), e) :: rows (set_entries st es).
Proof.
  unfold rows; cbv zeta. cbn [entries set_entries].
  rewrite rev_app_distr, length_app. cbn [rev app List.length].
  rewrite Nat.add_1_r. cbn [seq combine List.map]. f_equal.
  rewrite <- seq_shift.
  generalize (rev es) (seq 0 (List.length es)). intros l s.
  revert l. induction s as [ | i s IH]; intros [ | x l]; cbn; trivial.
  now rewrite IH.
Qed.

Lemma rows_entries (es : list Entry) :
  forall st,
  List.map fst (rows (set_entries st es)) = rev (seq 1 (List.length es))
  /\ List.map snd (rows (set_entries st es)) = rev es
  /\ forall k e, In (k, e) (rows (set_entries st es)) ->
                 (1 <= k)%nat /\ nth_error es (k - 1) = Some e.
Proof.
  induction es as [ | x es IH] using rev_ind; intros st.
  - repeat split; cbn in *; contradiction.
  - destruct (IH st) as (H1 & H2 & H3). rewrite rows_snoc.
    split; [ | split].
    + cbn [List.map fst]. rewrite H1, length_app, Nat.add_1_r, seq_S, rev_app_distr.
      reflexivity.
    + cbn [List.map snd]. now rewrite H2, rev_app_distr.
    + intros k e [[= <- <-] | Hin].
      * split; [lia | ]. rewrite nth_error_app2 by lia.
        replace (S (List.length es) - 1 - List.length es)%nat with 0%nat by lia.
        reflexivity.
      * destruct (H3 k e Hin) as [Hk He]. split; trivial.
        rewrite nth_error_app1; trivial. apply nth_error_Some. congruence.
Qed.

(** X7.  The rows of the list are numbered downwards from the number of
    entries to 1, they show the entries newest first, and the row numbered
    [k] shows the [k]-th entry that was added. *)
Theorem rows_number_the_entries (st : App) :
  List.map fst (rows st) = rev (seq 1 (count st))
  /\ List.map snd (rows st) = rev (entries st)
  /\ forall k e, In (k, e) (rows st) ->
                 (1 <= k)%nat /\ nth_error (entries st) (k - 1) = Some e.
Proof.
  assert (E : rows st = rows (set_entries st (entries st))) by reflexivity.
  rewrite E. apply rows_entries.
Qed.

(** X8.  The delete button of a row removes the entry of that row and no
    other, when the identifier of the entry equals itself and no other entry
    has it; the list is drawn again. *)
Theorem row_delete_removes_its_entry (env : Env) (st : App)
    (before after : list Entry) (e : Entry) :
  entries st = before ++ e :: after ->
  strict_eq (id e) (id e) = true ->
  (forall x, In x (before ++ after) -> strict_eq (id x) (id e) = false) ->
  let st' := handle env st (DeleteEntryClick (id e)) in
  entries st' = before ++ after /\ trace st' = trace st ++ [Render].
Proof.
  intros He Hid Hothers. cbv zeta. cbn [handle]. split; [ | reflexivity].
  cbn [entries render emit set_entries]. rewrite He, filter_app. cbn [filter].
  rewrite Hid. cbn [negb].
  assert (G : forall l, (forall x, In x l -> strict_eq (id x) (id e) = false) ->
                        filter (fun x => negb (strict_eq (id x) (id e))) l = l).
  { induction l as [ | x l IH]; intros H; cbn [filter]; trivial.
    rewrite (H x) by now left. cbn [negb]. f_equal. apply IH.
    intros y Hy. apply H. now right. }
  rewrite !G; trivial; intros x Hx; apply Hothers, in_or_app; auto.
Qed.

Lemma row_delete_removes_its_entry_witness :
  let entry (k : Z) := {| id := lit k; value := lit (100 * k); timestamp := lit k |} in
  let st := set_entries initial [entry 1; entry 2; entry 3] in
  let st' := handle sample_env st (DeleteEntryClick (lit 2)) in
  entries st' = [entry 1] ++ [entry 3] /\ trace st' = trace st ++ [Render].
Proof.
  cbv zeta.
  apply (row_delete_removes_its_entry sample_env
           (set_entries initial
              [ {| id := lit 1; value := lit (100 * 1); timestamp := lit 1 |};
                {| id := lit 2; value := lit (100 * 2); timestamp := lit 2 |};
                {| id := lit 3; value := lit (100 * 3); timestamp := lit 3 |} ])
           [ {| id := lit 1; value := lit (100 * 1); timestamp := lit 1 |} ]
           [ {| id := lit 3; value := lit (100 * 3); timestamp := lit 3 |} ]
           {| id := lit 2; value := lit (100 * 2); timestamp := lit 2 |}).
  - reflexivity.
  - vm_compute. reflexivity.
  - intros x [<- | [<- | []]]; vm_compute; reflexivity.
Defined.

(** X22.  The loop of [onresult] over the results from [resultIndex] gives
    the transcripts of the final results joined in order, and the
    transcripts of the others joined in order. *)
Theorem transcripts_partition (resultIndex : nat) (results : list result) :
  transcripts resultIndex results
  = (concat (List.map transcript (filter isFinal (skipn resultIndex results))),
     concat (List.map transcript
               (filter (fun r => negb (isFinal r)) (skipn resultIndex results)))).
Proof.
  unfold transcripts.
  assert (G : forall l f i,
    fold_left
      (fun '(finalTranscript, interimTranscript) r =>
         if isFinal r then (finalTranscript ++ transcript r, interimTranscript)
         else (finalTranscript, interimTranscript ++ transcript r))
      l (f, i)
    = (f ++ concat (List.map transcript (filter isFinal l)),
       i ++ concat (List.map transcript (filter (fun r => negb (isFinal r)) l)))).
  { induction l as [ | r l IH]; intros f i; cbn [fold_left filter].
    - cbn. now rewrite !app_nil_r.
    - destruct (isFinal r); cbn [negb List.map concat]; rewrite IH;
        now rewrite <- app_assoc. }
  apply G.
Qed.

(** X23.  When the inactivity timer fires, recognition is stopped, the idle
    state is shown and the session is idle.  From then on, as long as the
    microphone button is not pressed, the session stays idle, no inactivity
    timer is pending, and every pending restart timer was armed before. *)
Theorem inactivity_stop_ends_the_session (env : Env) (st : App) (h : nat)
    (start_throws : bool) :
  reachable env st -> In (h, AutoStop) (timers st) ->
  let st' := handle env st (Timeout h start_throws) in
  isListening st' = false
  /\ trace st' = trace st ++ [RecognitionStop; UpdateUIState false; HideTranscriptNow;
                              StatusText (js "閒置已關閉")]
  /\ forall evs, ~ In MicClick evs ->
       let st'' := run env st' evs in
       isListening st'' = false
       /\ (forall h', ~ In (h', AutoStop) (timers st''))
       /\ (forall h', In (h', Restart) (timers st'') -> In (h', Restart) (timers st)).
Proof.
  intros Hr Hin. cbv zeta.
  destruct (reachable_owned env st Hr) as (_ & Hnd & H3 & _).
  pose proof (find_task_in _ _ _ Hnd Hin) as Hfind.
  set (st1 := emit (updateUIState
                      (emit (set_isListening (clearTimeout st (Some h)) false)
                         RecognitionStop) false)
                (StatusText (js "閒置已關閉"))).
  assert (E : handle env st (Timeout h start_throws) = st1)
    by (cbn [handle]; now rewrite Hfind).
  rewrite E.
  assert (Ha : forall h', ~ In (h', AutoStop) (timers st1)).
  { intros h' Hin'. apply (timers_clearTimeout st (Some h)) in Hin' as [Hin' Hne].
    pose proof (H3 _ _ InactivityTimer Hin eq_refl).
    pose proof (H3 _ _ InactivityTimer Hin' eq_refl). congruence. }
  split; [reflexivity | split].
  - subst st1. cbn [trace clearTimeout updateUIState hideTranscript emit set_isListening].
    now rewrite <- !app_assoc.
  - intros evs Hevs.
    destruct (run_idle env evs st1 eq_refl Hevs) as (Hidle & _ & Ht & _).
    split; [exact Hidle | split].
    + intros h' Hin'. destruct (Ht h' _ Hin') as [Hold | (_ & _ & Hc)]; [ | discriminate].
      exact (Ha h' Hold).
    + intros h' Hin'. destruct (Ht h' _ Hin') as [Hold | (_ & _ & Hc)]; [ | discriminate].
      apply (timers_clearTimeout st (Some h)) in Hold as [Hold _]. exact Hold.
Qed.

Lemma inactivity_stop_ends_the_session_witness :
  let st := run sample_env initial [MicClick; Timeout 1 false; OnStart] in
  let st' := handle sample_env st (Timeout 2 false) in
  isListening st' = false
  /\ trace st' = trace st ++ [RecognitionStop; UpdateUIState false; HideTranscriptNow;
                              StatusText (js "閒置已關閉")]
  /\ forall evs, ~ In MicClick evs ->
       let st'' := run sample_env st' evs in
       isListening st'' = false
       /\ (forall h', ~ In (h', AutoStop) (timers st''))
       /\ (forall h', In (h', Restart) (timers st'') -> In (h', Restart) (timers st)).
Proof.
  cbv zeta.
  apply (inactivity_stop_ends_the_session sample_env
           (run sample_env initial [MicClick; Timeout 1 false; OnStart]) 2 false).
  - now exists [MicClick; Timeout 1 false; OnStart].
  - vm_compute. left. reflexivity.
Defined.
